(** * MigraGo: reconciliation of a declared migration set with the changelog

    A shallow embedding of the two versions of the migration engine of the
    repository,

    - [Legacy]:  [migrate.go], the free function [ExecuteMigration] over a
      slice of migrations, and
    - [Service]: the [MigrationService] methods (constructor
      [NewMigrationService]),

    over one model of the database handle, and the properties of the
    specification stated on them. *)

From Stdlib Require Import ZArith Ascii String List Lia Bool.
From stdpp Require Import base option list gmap strings fin_maps.

Open Scope string_scope.
Open Scope list_scope.

(** ** Data model *)

(** [type Migration struct { Id, Script, RevertScript, Checksum string }].
    A Go string is a sequence of bytes, as is [string] here. *)
Record Migration := mkMigration {
  Id : string;
  Script : string;
  RevertScript : string;
  Checksum : string
}.

#[global] Instance Migration_eq_dec : EqDecision Migration.
Proof. solve_decision. Defined.

(** ** crypto/md5 and encoding/hex

    [md5.Sum] and [hex.EncodeToString] belong to Go's standard library, not
    to the repository; they are written out here after RFC 1321 and the
    documentation of encoding/hex, so that the checksums of the loaders can
    be computed. *)
Module MD5.
Open Scope Z_scope.

Definition add32 (a b : Z) : Z := (a + b) mod 2 ^ 32.
Definition not32 (a : Z) : Z := Z.lxor a 0xffffffff.
Definition rotl32 (x n : Z) : Z :=
  Z.lor (Z.shiftl x n mod 2 ^ 32) (Z.shiftr x (32 - n)).

Definition K : list Z :=
[ 0xd76aa478; 0xe8c7b756; 0x242070db; 0xc1bdceee;
  0xf57c0faf; 0x4787c62a; 0xa8304613; 0xfd469501;
  0x698098d8; 0x8b44f7af; 0xffff5bb1; 0x895cd7be;
  0x6b901122; 0xfd987193; 0xa679438e; 0x49b40821;
  0xf61e2562; 0xc040b340; 0x265e5a51; 0xe9b6c7aa;
  0xd62f105d; 0x02441453; 0xd8a1e681; 0xe7d3fbc8;
  0x21e1cde6; 0xc33707d6; 0xf4d50d87; 0x455a14ed;
  0xa9e3e905; 0xfcefa3f8; 0x676f02d9; 0x8d2a4c8a;
  0xfffa3942; 0x8771f681; 0x6d9d6122; 0xfde5380c;
  0xa4beea44; 0x4bdecfa9; 0xf6bb4b60; 0xbebfbc70;
  0x289b7ec6; 0xeaa127fa; 0xd4ef3085; 0x04881d05;
  0xd9d4d039; 0xe6db99e5; 0x1fa27cf8; 0xc4ac5665;
  0xf4292244; 0x432aff97; 0xab9423a7; 0xfc93a039;
  0x655b59c3; 0x8f0ccc92; 0xffeff47d; 0x85845dd1;
  0x6fa87e4f; 0xfe2ce6e0; 0xa3014314; 0x4e0811a1;
  0xf7537e82; 0xbd3af235; 0x2ad7d2bb; 0xeb86d391 ].

Definition S : list Z :=
[ 7; 12; 17; 22; 7; 12; 17; 22; 7; 12; 17; 22; 7; 12; 17; 22;
  5; 9; 14; 20; 5; 9; 14; 20; 5; 9; 14; 20; 5; 9; 14; 20;
  4; 11; 16; 23; 4; 11; 16; 23; 4; 11; 16; 23; 4; 11; 16; 23;
  6; 10; 15; 21; 6; 10; 15; 21; 6; 10; 15; 21; 6; 10; 15; 21 ].

(** The chaining value A, B, C, D. *)
Definition state : Type := Z * Z * Z * Z.

Definition init : state := (0x67452301, 0xefcdab89, 0x98badcfe, 0x10325476).

(** Operation [i] (0..63) of the compression of one block of sixteen
    words [M]. *)
Definition step (M : list Z) (st : state) (i : nat) : state :=
  let '(a, b, c, d) := st in
  let iz := Z.of_nat i in
  let '(f, g) :=
    if iz <? 16 then (Z.lor (Z.land b c) (Z.land (not32 b) d), iz)
    else if iz <? 32 then
      (Z.lor (Z.land d b) (Z.land (not32 d) c), (5 * iz + 1) mod 16)
    else if iz <? 48 then (Z.lxor b (Z.lxor c d), (3 * iz + 5) mod 16)
    else (Z.lxor c (Z.lor b (not32 d)), (7 * iz) mod 16) in
  let f' := add32 (add32 (add32 f a) (nth i K 0)) (nth (Z.to_nat g) M 0) in
  (d, add32 b (rotl32 f' (nth i S 0)), b, c).

Definition block (st : state) (M : list Z) : state :=
  let '(a, b, c, d) := st in
  let '(a', b', c', d') := fold_left (step M) (seq 0 64) st in
  (add32 a a', add32 b b', add32 c c', add32 d d').

(** Little-endian words of a byte sequence, and back. *)
Fixpoint words (bs : list Z) : list Z :=
  match bs with
  | b0 :: b1 :: b2 :: b3 :: rest =>
      (b0 + 2 ^ 8 * b1 + 2 ^ 16 * b2 + 2 ^ 24 * b3) :: words rest
  | _ => []
  end.

Definition le_bytes (n : nat) (w : Z) : list Z :=
  map (fun k => Z.shiftr w (8 * Z.of_nat k) mod 2 ^ 8) (seq 0 n).

Fixpoint blocks (fuel : nat) (ws : list Z) : list (list Z) :=
  match fuel with
  | O => []
  | Datatypes.S fuel' =>
      match ws with
      | [] => []
      | _ => firstn 16 ws :: blocks fuel' (skipn 16 ws)
      end
  end.

(** RFC 1321, 3.1 and 3.2: a one bit, zero bits up to 56 modulo 64 bytes,
    then the length in bits as a 64-bit little-endian number. *)
Definition pad (msg : list Z) : list Z :=
  let n := Z.of_nat (length msg) in
  msg ++ 0x80 :: repeat 0 (Z.to_nat ((55 - n) mod 64))
      ++ le_bytes 8 ((8 * n) mod 2 ^ 64).

Definition byte_of_ascii (a : ascii) : Z := Z.of_N (N_of_ascii a).
Definition ascii_of_byte (b : Z) : ascii := ascii_of_N (Z.to_N b).

(** [md5.Sum(data) [16]byte] *)
Definition Sum (data : string) : list ascii :=
  let ws := words (pad (map byte_of_ascii (list_ascii_of_string data))) in
  let '(a, b, c, d) := fold_left block (blocks (length ws) ws) init in
  map ascii_of_byte
      (le_bytes 4 a ++ le_bytes 4 b ++ le_bytes 4 c ++ le_bytes 4 d).
End MD5.

(** [hex.EncodeToString]: two digits of [hextable = "0123456789abcdef"] for
    each byte, high nibble first. *)
Definition hextable : list ascii := list_ascii_of_string "0123456789abcdef".

Definition hex_digit (n : N) : ascii := nth (N.to_nat n) hextable "0"%char.

Definition hex_EncodeToString (src : list ascii) : string :=
  string_of_list_ascii
    (flat_map (fun a => [hex_digit (N_of_ascii a / 16);
                         hex_digit (N_of_ascii a mod 16)]) src).

(** The place of a character in a list of characters. *)
Fixpoint position (a : ascii) (l : list ascii) : nat :=
  match l with
  | [] => 0
  | x :: rest => if Ascii.eqb a x then 0 else Datatypes.S (position a rest)
  end.

(** ** The database handle

    The changelog relation
    [(id VARCHAR(255) PRIMARY KEY, checksum, installedAt, revertscript)] is
    the list of its rows in the order of
    [SELECT id, checksum, revertscript ... ORDER BY installedAt DESC]:
    newest first.  A row is held as the code scans it, in a [Migration]
    whose [Script] is empty.  Everything else a script can touch is the
    [schema]. *)
Record DB (Schema : Type) := mkDB {
  changelog : list Migration;
  schema : Schema
}.
Arguments mkDB {Schema} _ _.
Arguments changelog {Schema} _.
Arguments schema {Schema} _.

(** The statements the program sends, in the order it sends them. *)
Inductive stmt :=
| SCreateTable                 (* CREATE TABLE IF NOT EXISTS changelog (...) *)
| SSelect                      (* SELECT ... ORDER BY installedAt DESC *)
| SBegin                       (* conn.BeginTx *)
| SInsert (m : Migration)      (* INSERT INTO changelog (id, checksum, ...) *)
| SDelete (id : string)        (* DELETE FROM changelog WHERE id = $1 *)
| SScript (s : string)         (* tx.ExecContext(ctx, script) *)
| SCommit
| SRollback.

#[global] Instance stmt_eq_dec : EqDecision stmt.
Proof. solve_decision. Defined.

(** A connection: the committed database and the statements sent so far,
    oldest first. *)
Record Conn (Schema : Type) := mkConn {
  committed : DB Schema;
  log : list stmt
}.
Arguments mkConn {Schema} _ _.
Arguments committed {Schema} _.
Arguments log {Schema} _.

(** Go error values: [errors.New(msg)] and [fmt.Errorf] without [%w],
    [fmt.Errorf(msg + ": %w", err)], and the error database/sql returns for
    a statement. *)
Inductive error :=
| New (msg : string)
| Wrap (msg : string) (e : error)
| Driver (s : stmt)
| FsError (path : string)
| JsonError.

Definition row_of (m : Migration) : Migration :=
  mkMigration (Id m) EmptyString (RevertScript m) (Checksum m).

Definition has_id (id : string) (rows : list Migration) : bool :=
  existsb (fun r => String.eqb (Id r) id) rows.

Section Database.
Context {Schema : Type}.

(** What the engine does with a script on the target schema: the schema
    after it, or [None] when the script fails.  Scripts act on the target
    schema only, the changelog relation is written by the program's own
    INSERT and DELETE. *)
Variable exec : string -> Schema -> option Schema.

(** Whether the database answers the statement sent after [n] earlier
    ones.  A statement that is not answered returns an error and has no
    effect: a lost connection, a cancelled context, a constraint of the
    relation other than its primary key. *)
Variable link : nat -> bool.

Definition send (s : stmt) (c : Conn Schema) : Conn Schema :=
  mkConn (committed c) (log c ++ [s]).

Definition up (c : Conn Schema) : bool := link (length (log c)).

(** [conn.ExecContext(ctx, "CREATE TABLE IF NOT EXISTS changelog ...")] *)
Definition create_table (c : Conn Schema) : Conn Schema * option error :=
  (send SCreateTable c, if up c then None else Some (Driver SCreateTable)).

(** [conn.QueryContext(ctx, "SELECT ... ORDER BY installedAt DESC")]
    followed by the [rows.Next()] / [rows.Scan] loop: the rows committed
    when the query is sent.  The rows are those the program inserted, whose
    three columns scan into strings. *)
Definition select_changelog (c : Conn Schema)
  : Conn Schema * (list Migration + error) :=
  (send SSelect c,
   if up c then inl (changelog (committed c)) else inr (Driver SSelect)).

(** [conn.BeginTx]: the transaction works on its own copy of the
    database, which replaces the committed one when it commits.  The
    program runs its transactions one after the other. *)
Definition BeginTx (c : Conn Schema) : Conn Schema * (DB Schema + error) :=
  (send SBegin c, if up c then inl (committed c) else inr (Driver SBegin)).

(** The effect of a statement inside a transaction, on its copy. *)
Definition run (s : stmt) (w : DB Schema) : option (DB Schema) :=
  match s with
  | SScript q =>
      match exec q (schema w) with
      | Some sc => Some (mkDB (changelog w) sc)
      | None => None
      end
  | SInsert m =>
      if has_id (Id m) (changelog w) then None   (* PRIMARY KEY *)
      else Some (mkDB (row_of m :: changelog w) (schema w))
  | SDelete id =>
      Some (mkDB (filter (fun r => Id r ≠ id) (changelog w)) (schema w))
  | _ => Some w
  end.

(** [tx.ExecContext] *)
Definition tx_exec (s : stmt) (c : Conn Schema) (w : DB Schema)
  : Conn Schema * (DB Schema + error) :=
  (send s c,
   if up c then
     match run s w with Some w' => inl w' | None => inr (Driver s) end
   else inr (Driver s)).

(** [tx.Commit] *)
Definition Commit (c : Conn Schema) (w : DB Schema)
  : Conn Schema * option error :=
  if up c then (mkConn w (log c ++ [SCommit]), None)
  else (send SCommit c, Some (Driver SCommit)).

(** [tx.Rollback] *)
Definition Rollback (c : Conn Schema) : Conn Schema := send SRollback c.

End Database.

(** ** Files and configuration

    The file system the loaders read ([os.ReadFile], [fs.FS]): a path has
    no file, a file that cannot be read to its end, or contents. *)
Inductive file :=
| Missing
| Unreadable
| Contents (s : string).

Definition FS : Type := string -> file.

(** The order in which [for _, migration := range m] visits a Go map is
    not specified by the language: it is an argument of the model, any
    enumeration of the map's values. *)
Definition map_order : Type := gmap string Migration -> list Migration.

Definition valid_order (order : map_order) : Prop :=
  forall m, order m ≡ₚ (map_to_list m).*2.

(** ** migrate.go *)
Module Legacy.

(** How a call ends: [err == nil], [err != nil], or a run-time panic. *)
Inductive outcome :=
| Done
| Failed (e : error)
| Panicked.

Definition convertMigrationToMap (migrations : list Migration)
  : gmap string Migration :=
  fold_left (fun m migration => <[Id migration := migration]> m)
            migrations ∅.

(** [generateHash]: the sixteen bytes of the digest, converted to a
    string as they are. *)
Definition generateHash (s : string) : string :=
  string_of_list_ascii (MD5.Sum s).

Section Loader.
(** [json.Unmarshal(buffer, &migrationIds)], from encoding/json. *)
Variable json_decode : string -> option (list string).
Variable fs : FS.

(** [os.ReadFile] *)
Definition ReadFile (name : string) : string + error :=
  match fs name with
  | Contents s => inl s
  | _ => inr (FsError name)
  end.

Fixpoint read_migrations (migrationIds : list string)
    (migrations : list Migration) : list Migration * option error :=
  match migrationIds with
  | [] => (migrations, None)
  | id :: rest =>
      match ReadFile (id +:+ ".sql") with
      | inr e => (migrations, Some e)
      | inl script =>
          match ReadFile (id +:+ ".revert.sql") with
          | inr e => (migrations, Some e)
          | inl revertScript =>
              let checksum := MD5.Sum script in
              read_migrations rest
                (migrations ++
                 [mkMigration id script revertScript
                              (string_of_list_ascii checksum)])
          end
      end
  end.

Definition ReadChangeLogFile (fileName : string)
  : list Migration * option error :=
  match ReadFile fileName with
  | inr e => ([], Some e)
  | inl buffer =>
      match json_decode buffer with
      | None => ([], Some JsonError)
      | Some migrationIds => read_migrations migrationIds []
      end
  end.
End Loader.

Section Engine.
Context {Schema : Type}.
Variable exec : string -> Schema -> option Schema.
Variable link : nat -> bool.

(** [executeChangeLog].  The error of [BeginTx] is overwritten by the
    next assignment and the transaction it returns with an error is
    nil: the call on it panics.  On the other error paths the function
    returns with the transaction neither committed nor rolled back, so
    nothing it did reaches the committed database. *)
Definition executeChangeLog (c : Conn Schema) (migration : Migration)
  : Conn Schema * outcome :=
  match BeginTx link c with
  | (c1, inr _) => (c1, Panicked)
  | (c1, inl w) =>
      match tx_exec exec link (SInsert migration) c1 w with
      | (c2, inr e) => (c2, Failed e)
      | (c2, inl w2) =>
          match tx_exec exec link (SScript (Script migration)) c2 w2 with
          | (c3, inr e) => (c3, Failed e)
          | (c3, inl w3) =>
              match Commit link c3 w3 with
              | (c4, Some e) => (c4, Failed e)
              | (c4, None) => (c4, Done)
              end
          end
      end
  end.

(** [revertScript] *)
Definition revertScript (c : Conn Schema) (migration : Migration)
  : Conn Schema * outcome :=
  match BeginTx link c with
  | (c1, inr _) => (c1, Panicked)
  | (c1, inl w) =>
      match tx_exec exec link (SDelete (Id migration)) c1 w with
      | (c2, inr e) => (c2, Failed e)
      | (c2, inl w2) =>
          match tx_exec exec link (SScript (RevertScript migration)) c2 w2 with
          | (c3, inr e) => (c3, Failed e)
          | (c3, inl w3) =>
              match Commit link c3 w3 with
              | (c4, Some e) => (c4, Failed e)
              | (c4, None) => (c4, Done)
              end
          end
      end
  end.

(** The [for rows.Next()] loop of [ExecuteMigration], over the rows the
    query returned.  The result of [revertScript] is not looked at. *)
Fixpoint walk (c : Conn Schema) (fileMigrations : gmap string Migration)
    (notReverted : bool) (rows : list Migration)
  : Conn Schema * gmap string Migration * outcome :=
  match rows with
  | [] => (c, fileMigrations, Done)
  | dbMigration :: rest =>
      match fileMigrations !! Id dbMigration with
      | None =>
          if notReverted then
            (c, fileMigrations,
             Failed (New "not revertedable migration found"))
          else
            match revertScript c dbMigration with
            | (c', Panicked) => (c', fileMigrations, Panicked)
            | (c', _) => walk c' fileMigrations notReverted rest
            end
      | Some fileMigration =>
          if String.eqb (Checksum dbMigration) (Checksum fileMigration)
          then walk c (delete (Id dbMigration) fileMigrations) true rest
          else (c, fileMigrations, Failed (New "checksum mismatch"))
      end
  end.

(** The [for _, migration := range fileMigrations] loop, over the
    migrations in the order the map yields them. *)
Fixpoint apply_pending (c : Conn Schema) (pending : list Migration)
  : Conn Schema * outcome :=
  match pending with
  | [] => (c, Done)
  | migration :: rest =>
      match executeChangeLog c migration with
      | (c', Done) => apply_pending c' rest
      | r => r
      end
  end.

Definition ExecuteMigration (order : map_order) (c : Conn Schema)
    (migrations : list Migration) : Conn Schema * outcome :=
  let fileMigrations := convertMigrationToMap migrations in
  match create_table link c with
  | (c1, Some e) => (c1, Failed e)
  | (c1, None) =>
      match select_changelog link c1 with
      | (c2, inr e) => (c2, Failed e)
      | (c2, inl rows) =>
          match walk c2 fileMigrations false rows with
          | (c3, pending, Done) => apply_pending c3 (order pending)
          | (c3, _, o) => (c3, o)
          end
      end
  end.
End Engine.
End Legacy.

(** ** The MigrationService *)
Module Service.

(** [type MigrationService struct { configFile, scriptPath, fs, conn }];
    the connection is passed along as the state of the calls. *)
Record MigrationService := mkService {
  configFile : string;
  scriptPath : string;
  fs : FS
}.

Definition NewMigrationService (configFile scriptPath : string) (fs : FS)
  : MigrationService :=
  mkService configFile scriptPath fs.

Section Loader.
(** [json.NewDecoder(f).Decode(&migrationIds)] and [filepath.Join],
    from Go's standard library. *)
Variable json_decode : string -> option (list string).
Variable Join : string -> string -> string.

Definition readConfigFile (m : MigrationService) : list string + error :=
  match fs m (configFile m) with
  | Missing =>
      inr (Wrap "failed to open config file" (FsError (configFile m)))
  | Unreadable =>
      inr (Wrap "failed to decode config file" (FsError (configFile m)))
  | Contents s =>
      match json_decode s with
      | Some migrationIds => inl migrationIds
      | None => inr (Wrap "failed to decode config file" JsonError)
      end
  end.

Definition readFileContent (fs : FS) (path : string) : string + error :=
  match fs path with
  | Missing => inr (Wrap ("failed to open file " +:+ path) (FsError path))
  | Unreadable => inr (Wrap "failed to read file content" (FsError path))
  | Contents fileContent => inl fileContent
  end.

Definition extractMigration (m : MigrationService) (migrationId : string)
  : Migration + error :=
  match readFileContent (fs m)
          (Join (scriptPath m) (migrationId +:+ ".sql")) with
  | inr err => inr err
  | inl script =>
      match readFileContent (fs m)
              (Join (scriptPath m) (migrationId +:+ ".revert.sql")) with
      | inr err => inr err
      | inl revertScript =>
          let checksum := MD5.Sum script in
          inl (mkMigration migrationId script revertScript
                           (hex_EncodeToString checksum))
      end
  end.

(** [Migration{}] *)
Definition zero : Migration :=
  mkMigration EmptyString EmptyString EmptyString EmptyString.

(** The loop of [getMigrations]; on an error the zero [Migration] has
    been stored under the id before the function returns. *)
Fixpoint extract_all (m : MigrationService) (migrationIds : list string)
    (migrations : gmap string Migration)
  : gmap string Migration * option error :=
  match migrationIds with
  | [] => (migrations, None)
  | v :: rest =>
      match extractMigration m v with
      | inr err => (<[v := zero]> migrations, Some err)
      | inl mig => extract_all m rest (<[v := mig]> migrations)
      end
  end.

Definition getMigrations (m : MigrationService)
  : gmap string Migration * option error :=
  match readConfigFile m with
  | inr err => (∅, Some err)
  | inl migrationIds => extract_all m migrationIds ∅
  end.
End Loader.

Section Engine.
Context {Schema : Type}.
Variable exec : string -> Schema -> option Schema.
Variable link : nat -> bool.

Definition prepareDatabase (c : Conn Schema) : Conn Schema * option error :=
  create_table link c.

Definition executeSingleMigration (c : Conn Schema) (migration : Migration)
  : Conn Schema * option error :=
  match BeginTx link c with
  | (c1, inr err) => (c1, Some err)
  | (c1, inl tx) =>
      match tx_exec exec link (SScript (Script migration)) c1 tx with
      | (c2, inr err) =>
          (Rollback c2, Some (Wrap "failed to execute migration script" err))
      | (c2, inl tx2) =>
          match tx_exec exec link (SInsert migration) c2 tx2 with
          | (c3, inr err) =>
              (Rollback c3, Some (Wrap "failed to insert into changelog" err))
          | (c3, inl tx3) => Commit link c3 tx3
          end
      end
  end.

Definition revertSingleMigration (c : Conn Schema) (migration : Migration)
  : Conn Schema * option error :=
  match BeginTx link c with
  | (c1, inr err) => (c1, Some err)
  | (c1, inl tx) =>
      match tx_exec exec link (SScript (RevertScript migration)) c1 tx with
      | (c2, inr err) =>
          (Rollback c2, Some (Wrap "failed to execute revert script" err))
      | (c2, inl tx2) =>
          match tx_exec exec link (SDelete (Id migration)) c2 tx2 with
          | (c3, inr err) =>
              (Rollback c3, Some (Wrap "failed to delete from changelog" err))
          | (c3, inl tx3) => Commit link c3 tx3
          end
      end
  end.

Definition checksum_mismatch (dbMigration migration : Migration) : error :=
  New ("checksum mismatch for migration " +:+ Id dbMigration
       +:+ ": file: " +:+ Checksum migration
       +:+ ", database: " +:+ Checksum dbMigration).

(** The loop of [checkExistingChangelogs] over the copy of
    [existingMigrations]. *)
Fixpoint check_loop (c : Conn Schema) (migrations : gmap string Migration)
    (notReverted : bool) (existing : list Migration)
  : Conn Schema * option error :=
  match existing with
  | [] => (c, None)
  | dbMigration :: rest =>
      match migrations !! Id dbMigration with
      | Some migration =>
          if String.eqb (Checksum dbMigration) (Checksum migration)
          then check_loop c migrations true rest
          else (c, Some (checksum_mismatch dbMigration migration))
      | None =>
          if notReverted then
            (c, Some (New "not revertable migration found"))
          else
            match revertSingleMigration c dbMigration with
            | (c', Some err) => (c', Some err)
            | (c', None) => check_loop c' migrations notReverted rest
            end
      end
  end.

Definition checkExistingChangelogs (c : Conn Schema)
    (existingMigrations : list Migration)
    (migrations : gmap string Migration) : Conn Schema * option error :=
  check_loop c migrations false existingMigrations.

Definition getExistingMigrations (c : Conn Schema)
  : Conn Schema * (list Migration + error) :=
  select_changelog link c.

(** Step 5 of [ExecuteMigration]: the [range migrations] loop with its
    [slices.ContainsFunc] test. *)
Fixpoint execute_pending (c : Conn Schema)
    (existingMigrations : list Migration) (ranged : list Migration)
  : Conn Schema * option error :=
  match ranged with
  | [] => (c, None)
  | migration :: rest =>
      if has_id (Id migration) existingMigrations
      then execute_pending c existingMigrations rest
      else
        match executeSingleMigration c migration with
        | (c', Some err) => (c', Some err)
        | (c', None) => execute_pending c' existingMigrations rest
        end
  end.

Section Run.
Variable json_decode : string -> option (list string).
Variable Join : string -> string -> string.

Definition ExecuteMigration (order : map_order) (m : MigrationService)
    (c : Conn Schema) : Conn Schema * option error :=
  match prepareDatabase c with
  | (c1, Some err) => (c1, Some err)
  | (c1, None) =>
      match getMigrations json_decode Join m with
      | (_, Some err) => (c1, Some err)
      | (migrations, None) =>
          match getExistingMigrations c1 with
          | (c2, inr err) => (c2, Some err)
          | (c2, inl existingMigrations) =>
              match checkExistingChangelogs c2 existingMigrations
                      migrations with
              | (c3, Some err) => (c3, Some err)
              | (c3, None) =>
                  execute_pending c3 existingMigrations (order migrations)
              end
          end
      end
  end.
End Run.
End Engine.
End Service.

(** ** Vocabulary of the specification *)

(** An applied entry is kept when its id is a key of the desired set,
    undesired otherwise; a kept entry is verified when its recorded checksum
    is the desired one and drifted when it is not. *)
Definition kept (desired : gmap string Migration) (r : Migration) : Prop :=
  is_Some (desired !! Id r).

Definition undesired (desired : gmap string Migration) (r : Migration) : Prop :=
  desired !! Id r = None.

Definition verified (desired : gmap string Migration) (r : Migration) : Prop :=
  exists m, desired !! Id r = Some m /\ Checksum r = Checksum m.

Definition drifted (desired : gmap string Migration) (r : Migration) : Prop :=
  exists m, desired !! Id r = Some m /\ Checksum r <> Checksum m.

(** The desired set as the loaders build it: a migration is stored under
    its own id. *)
Definition keyed (desired : gmap string Migration) : Prop :=
  forall id m, desired !! id = Some m -> Id m = id.

(** What a sequence of statements inserts into, deletes from and runs
    against the database. *)
Definition inserts (l : list stmt) : list Migration :=
  omap (fun s => match s with SInsert m => Some m | _ => None end) l.

Definition deletes (l : list stmt) : list string :=
  omap (fun s => match s with SDelete id => Some id | _ => None end) l.

Definition scripts (l : list stmt) : list string :=
  omap (fun s => match s with SScript q => Some q | _ => None end) l.

(** The statements [l] apply migrations of [P] only, in the order of [P]
    and each at most once, and delete nothing. *)
Definition applies_of (P : list Migration) (l : list stmt) : Prop :=
  deletes l = [] /\
  inserts l `prefix_of` P /\
  scripts l `prefix_of` (Script <$> P).

(** The statements [l] revert entries of [rows] only, in the order of
    [rows] and each at most once, and insert nothing. *)
Definition reverts_of (rows : list Migration) (l : list stmt) : Prop :=
  inserts l = [] /\
  deletes l `sublist_of` (Id <$> rows) /\
  scripts l `sublist_of` (RevertScript <$> rows).

(** The statements of the four transactions when nothing fails. *)
Definition service_apply_tx (m : Migration) : list stmt :=
  [SBegin; SScript (Script m); SInsert m; SCommit].

Definition service_revert_tx (r : Migration) : list stmt :=
  [SBegin; SScript (RevertScript r); SDelete (Id r); SCommit].

Definition legacy_apply_tx (m : Migration) : list stmt :=
  [SBegin; SInsert m; SScript (Script m); SCommit].

Definition legacy_revert_tx (r : Migration) : list stmt :=
  [SBegin; SDelete (Id r); SScript (RevertScript r); SCommit].

(** The walk splits the applied stack in two: the undesired entries newer
    than every kept one, and the entries from the newest kept one down. *)
Fixpoint lead (desired : gmap string Migration) (rows : list Migration)
  : list Migration :=
  match rows with
  | [] => []
  | r :: rest =>
      match desired !! Id r with
      | None => r :: lead desired rest
      | Some _ => []
      end
  end.

Fixpoint below (desired : gmap string Migration) (rows : list Migration)
  : list Migration :=
  match rows with
  | [] => []
  | r :: rest =>
      match desired !! Id r with
      | None => below desired rest
      | Some _ => rows
      end
  end.

(** The desired set without the ids of the given rows: what the legacy
    walk leaves in [fileMigrations]. *)
Definition residual (desired : gmap string Migration) (rows : list Migration)
  : gmap string Migration :=
  foldl (fun m r => delete (Id r) m) desired rows.

Section Phases.
Context {Schema : Type}.
Variable exec : string -> Schema -> option Schema.
Variable link : nat -> bool.

(** Reverting a run of entries newest first, as [checkExistingChangelogs]
    does while it has met no kept entry: the first failure ends it. *)
Fixpoint service_reverts (c : Conn Schema) (rows : list Migration)
  : Conn Schema * option error :=
  match rows with
  | [] => (c, None)
  | r :: rest =>
      match Service.revertSingleMigration exec link c r with
      | (c', Some err) => (c', Some err)
      | (c', None) => service_reverts c' rest
      end
  end.

(** The same for the loop of migrate.go, which goes on after a failed
    revert and stops for a panic only. *)
Fixpoint legacy_reverts (c : Conn Schema) (rows : list Migration)
  : Conn Schema * Legacy.outcome :=
  match rows with
  | [] => (c, Legacy.Done)
  | r :: rest =>
      match Legacy.revertScript exec link c r with
      | (c', Legacy.Panicked) => (c', Legacy.Panicked)
      | (c', _) => legacy_reverts c' rest
      end
  end.
End Phases.

(** What the walk answers once it has met a kept entry: it sends nothing
    any more and only compares. *)
Fixpoint service_verdict (desired : gmap string Migration)
    (rows : list Migration) : option error :=
  match rows with
  | [] => None
  | r :: rest =>
      match desired !! Id r with
      | Some m =>
          if String.eqb (Checksum r) (Checksum m)
          then service_verdict desired rest
          else Some (Service.checksum_mismatch r m)
      | None => Some (New "not revertable migration found")
      end
  end.

Fixpoint legacy_verdict (desired : gmap string Migration)
    (rows : list Migration) : Legacy.outcome :=
  match rows with
  | [] => Legacy.Done
  | r :: rest =>
      match desired !! Id r with
      | Some m =>
          if String.eqb (Checksum r) (Checksum m)
          then legacy_verdict desired rest
          else Legacy.Failed (New "checksum mismatch")
      | None => Legacy.Failed (New "not revertedable migration found")
      end
  end.

(** A run from [c] to [c'] has applied nothing and has left every entry
    from the newest kept one down in place: only entries of the lead may be
    gone from the changelog. *)
Definition reverted_lead_only {Schema : Type}
    (desired : gmap string Migration) (c c' : Conn Schema) : Prop :=
  exists pre' l,
    pre' `sublist_of` lead desired (changelog (committed c)) /\
    changelog (committed c')
      = pre' ++ below desired (changelog (committed c)) /\
    log c' = log c ++ l /\
    reverts_of (lead desired (changelog (committed c))) l.

(** Running the scripts of a list one after the other. *)
Fixpoint exec_all {Schema : Type} (exec : string -> Schema -> option Schema)
    (qs : list string) (sc : Schema) : option Schema :=
  match qs with
  | [] => Some sc
  | q :: rest =>
      match exec q sc with
      | Some sc' => exec_all exec rest sc'
      | None => None
      end
  end.

(** The connection answers the two statements every run begins with. *)
Definition ready {Schema : Type} (link : nat -> bool) (c : Conn Schema)
  : Prop :=
  link (length (log c)) = true /\
  link (length (log c ++ [SCreateTable])) = true.

(** The connection after them. *)
Definition prelude {Schema : Type} (c : Conn Schema) : Conn Schema :=
  mkConn (committed c) ((log c ++ [SCreateTable]) ++ [SSelect]).

(** The order the specification asks for in a transaction that applies
    [m]: of the two statements, the script is sent first and the INSERT
    follows. *)
Fixpoint script_then_insert (m : Migration) (l : list stmt) : bool :=
  match l with
  | [] => false
  | s :: rest =>
      if decide (s = SScript (Script m)) then bool_decide (SInsert m ∈ rest)
      else if decide (s = SInsert m) then false
      else script_then_insert m rest
  end.

(** The ids of the changelog are distinct: its primary key. *)
Definition distinct_ids {Schema : Type} (c : Conn Schema) : Prop :=
  NoDup (Id <$> changelog (committed c)).

(** How often a statement occurs in a sequence of statements. *)
Definition times (s : stmt) (l : list stmt) : nat :=
  count_occ stmt_eq_dec l s.

(** Whether a path of the file system can be read to its end. *)
Definition readable (fs : FS) (path : string) : bool :=
  match fs path with
  | Contents _ => true
  | _ => false
  end.

(** A migration as [ReadChangeLogFile] builds it from the two files of an
    id, which it looks for under the names [id.sql] and [id.revert.sql]. *)
Definition legacy_loaded (fs : FS) (id : string) (mig : Migration) : Prop :=
  Id mig = id /\
  fs (id +:+ ".sql") = Contents (Script mig) /\
  fs (id +:+ ".revert.sql") = Contents (RevertScript mig) /\
  Checksum mig = Legacy.generateHash (Script mig).

(** A migration as [extractMigration] builds it from the two files of an
    id, which it looks for under the script path of the service. *)
Definition service_loaded (Join : string -> string -> string)
    (m : Service.MigrationService) (id : string) (mig : Migration) : Prop :=
  Id mig = id /\
  Service.fs m (Join (Service.scriptPath m) (id +:+ ".sql"))
    = Contents (Script mig) /\
  Service.fs m (Join (Service.scriptPath m) (id +:+ ".revert.sql"))
    = Contents (RevertScript mig) /\
  Checksum mig = hex_EncodeToString (MD5.Sum (Script mig)).

(** A database is in step with a run that has committed the reverts of
    [reverted] and then the applies of [applied], starting from the rows
    [rows] and the schema [sc]: the rows with the id of a reverted entry
    are gone, the rows of the applied migrations are on top, the last
    applied first, and the schema is what the revert scripts and then the
    scripts, run one after the other, have made of [sc]. *)
Definition in_step {Schema : Type} (exec : string -> Schema -> option Schema)
    (rows : list Migration) (sc : Schema)
    (reverted applied : list Migration) (db : DB Schema) : Prop :=
  changelog db =
    rev (row_of <$> applied)
      ++ filter (fun x => Id x ∉ Id <$> reverted) rows /\
  exec_all exec ((RevertScript <$> reverted) ++ (Script <$> applied)) sc
    = Some (schema db).

(** Every transaction begun in a sequence of statements has been ended
    in it, by a COMMIT or by a ROLLBACK. *)
Definition closed (l : list stmt) : Prop :=
  times SBegin l = times SCommit l + times SRollback l.

(** The statements [l] that a run, or a part of a run, of the service
    has sent after the statements [start], when it ended with [res]:
    every transaction is ended, by a COMMIT when there was no error,
    unless the last statement is a BEGIN that was not answered, which
    opens nothing and whose error is the result. *)
Definition bracketed (link : nat -> bool) (start l : list stmt)
    (res : option error) : Prop :=
  (closed l /\ (res = None -> times SRollback l = 0)) \/
  (exists l0, l = l0 ++ [SBegin] /\ closed l0 /\
              link (length (start ++ l0)) = false /\
              res = Some (Driver SBegin)).


(** Two connections with the same committed database that have been sent
    the same number of statements. *)
Definition alike {Schema : Type} (c c' : Conn Schema) : Prop :=
  committed c = committed c' /\ length (log c) = length (log c').

(** ** A small world for the examples

    A toy engine whose schema is the list of its tables, a connection that
    always answers, the scenarios of the specification (migrations [T] and
    [T2] with checksums [c1] and [c2]) and a file system for the loaders. *)
Module Demo.

Definition after (pre s : string) : option string :=
  if String.prefix pre s
  then Some (String.substring (String.length pre)
                              (String.length s - String.length pre) s)
  else None.

(** [CREATE TABLE x] fails when [x] exists, [DROP TABLE x] when it does
    not; any other text is rejected. *)
Definition exec (q : string) (tables : list string) : option (list string) :=
  match after "CREATE TABLE " q with
  | Some t => if bool_decide (t ∈ tables) then None else Some (t :: tables)
  | None =>
      match after "DROP TABLE " q with
      | Some t =>
          if bool_decide (t ∈ tables)
          then Some (filter (fun x => x ≠ t) tables) else None
      | None => None
      end
  end.

Definition online : nat -> bool := fun _ => true.

(** One order a range over the map may take. *)
Definition range : map_order := fun m => (map_to_list m).*2.

Definition T : Migration :=
  mkMigration "T" "CREATE TABLE t" "DROP TABLE t" "c1".
Definition T2 : Migration :=
  mkMigration "T2" "CREATE TABLE t2" "DROP TABLE t2" "c2".

Definition fresh : Conn (list string) := mkConn (mkDB [] []) [].

Definition quote : ascii := ascii_of_nat 34.

(** The names between the double quotes of a text, as in a JSON array of
    strings. *)
Fixpoint names (inside : bool) (cur : string) (s : string) : list string :=
  match s with
  | EmptyString => []
  | String a rest =>
      if Ascii.eqb a quote then
        if inside then cur :: names false EmptyString rest
        else names true EmptyString rest
      else if inside then names inside (cur +:+ String a EmptyString) rest
      else names inside cur rest
  end.

(** The text of a JSON array of the given names. *)
Definition config (ids : list string) : string :=
  "[" +:+ String.concat ","
            (map (fun id => String quote (id +:+ String quote EmptyString)) ids)
      +:+ "]".

Definition json_decode (s : string) : option (list string) :=
  if String.prefix "[" s then Some (names false EmptyString s) else None.

Definition Join (dir name : string) : string := dir +:+ "/" +:+ name.

(** A disk with the given files. *)
Fixpoint disk (entries : list (string * string)) : FS := fun path =>
  match entries with
  | [] => Missing
  | (name, text) :: rest =>
      if String.eqb path name then Contents text else disk rest path
  end.

(** The layout of the usage example of the README: the configuration
    lists the ids, the scripts are under [scripts]. *)
Definition files (ids : list string) : FS :=
  disk [("config.json", config ids);
        ("scripts/T.sql", "CREATE TABLE t");
        ("scripts/T.revert.sql", "DROP TABLE t");
        ("scripts/T2.sql", "CREATE TABLE t2");
        ("scripts/T2.revert.sql", "DROP TABLE t2")].

Definition service (ids : list string) : Service.MigrationService :=
  Service.mkService "config.json" "scripts" (files ids).

(** The first migration of migrate_test.go, on disk for both loaders. *)
Definition test_script : string :=
  "CREATE TABLE test (id serial PRIMARY KEY, name VARCHAR(50) UNIQUE NOT NULL)".

Definition test_files : FS :=
  disk [("changelog.json", config ["Test"]);
        ("Test.sql", test_script);
        ("Test.revert.sql", "DROP TABLE test");
        ("scripts/Test.sql", test_script);
        ("scripts/Test.revert.sql", "DROP TABLE test")].

(** [T2] then [T] were applied, but table [t2] is gone: the revert
    script of [T2] fails. *)
Definition stale : Conn (list string) :=
  mkConn (mkDB [row_of T2; row_of T] ["t"]) [].

(** Only [T2] was applied and its table is gone. *)
Definition stale_top : Conn (list string) :=
  mkConn (mkDB [row_of T2] []) [].

(** The checksum the service computes for a script. *)
Definition sum (script : string) : string :=
  hex_EncodeToString (MD5.Sum script).

(** [T] and [T2] as the service loads them. *)
Definition ST : Migration :=
  mkMigration "T" "CREATE TABLE t" "DROP TABLE t" (sum "CREATE TABLE t").
Definition ST2 : Migration :=
  mkMigration "T2" "CREATE TABLE t2" "DROP TABLE t2" (sum "CREATE TABLE t2").

(** A migration that is desired in no example. *)
Definition T0 : Migration :=
  mkMigration "T0" "CREATE TABLE t0" "DROP TABLE t0" "c0".

(** [T] then [T2] have been applied, [T] with another script than the one
    on disk: its recorded checksum is not the desired one. *)
Definition drifted_below : Conn (list string) :=
  mkConn (mkDB [row_of ST2;
                mkMigration "T" EmptyString "DROP TABLE t" "old"]
               ["t2"; "t"]) [].

(** [T0], [T] and [T2] have been applied in this order. *)
Definition three_applied : Conn (list string) :=
  mkConn (mkDB [row_of ST2; row_of ST; row_of T0] ["t2"; "t"; "t0"]) [].

(** [T] has been applied. *)
Definition one_applied : Conn (list string) :=
  mkConn (mkDB [row_of ST] ["t"]) [].

(** [T] then [T2] have been applied. *)
Definition both_applied : Conn (list string) :=
  mkConn (mkDB [row_of ST2; row_of ST] ["t2"; "t"]) [].
End Demo.

Ltac tx_unfold :=
  unfold Service.revertSingleMigration, Service.executeSingleMigration,
         Legacy.revertScript, Legacy.executeChangeLog,
         BeginTx, tx_exec, Commit, Rollback, create_table, select_changelog,
         up, send; simpl.

Ltac tx_cases :=
  tx_unfold; repeat (case_match; simplify_eq/=);
  rewrite <- ?app_assoc; simpl.

Section Transactions.
Context {Schema : Type}.
Variable exec : string -> Schema -> option Schema.
Variable link : nat -> bool.

(** *** The four transactions *)

Lemma revertSingleMigration_spec (c : Conn Schema) (m : Migration) :
  match Service.revertSingleMigration exec link c m with
  | (c', None) =>
      exists sc,
        exec (RevertScript m) (schema (committed c)) = Some sc /\
        committed c' =
          mkDB (filter (fun r => Id r ≠ Id m) (changelog (committed c))) sc /\
        log c' = log c ++
          [SBegin; SScript (RevertScript m); SDelete (Id m); SCommit]
  | (c', Some _) =>
      committed c' = committed c /\
      exists l, log c' = log c ++ l /\ reverts_of [m] l
  end.
Proof.
  unfold reverts_of.
  tx_cases; eauto 10;
    (split; [done|]); eexists; (split; [done|]); simpl;
    split_and!; try done; try apply sublist_nil_l.
Qed.

Lemma executeSingleMigration_spec (c : Conn Schema) (m : Migration) :
  match Service.executeSingleMigration exec link c m with
  | (c', None) =>
      exists sc,
        exec (Script m) (schema (committed c)) = Some sc /\
        has_id (Id m) (changelog (committed c)) = false /\
        committed c' = mkDB (row_of m :: changelog (committed c)) sc /\
        log c' = log c ++ [SBegin; SScript (Script m); SInsert m; SCommit]
  | (c', Some _) =>
      committed c' = committed c /\
      exists l, log c' = log c ++ l /\ applies_of [m] l
  end.
Proof.
  unfold applies_of.
  tx_cases; eauto 10;
    (split; [done|]); eexists; (split; [done|]); simpl;
    split_and!; try done; try apply prefix_nil.
Qed.

Lemma revertScript_spec (c : Conn Schema) (m : Migration) :
  match Legacy.revertScript exec link c m with
  | (c', Legacy.Done) =>
      exists sc,
        exec (RevertScript m) (schema (committed c)) = Some sc /\
        committed c' =
          mkDB (filter (fun r => Id r ≠ Id m) (changelog (committed c))) sc /\
        log c' = log c ++
          [SBegin; SDelete (Id m); SScript (RevertScript m); SCommit]
  | (c', _) =>
      committed c' = committed c /\
      exists l, log c' = log c ++ l /\ reverts_of [m] l
  end.
Proof.
  unfold reverts_of.
  tx_cases; eauto 10;
    (split; [done|]); eexists; (split; [done|]); simpl;
    split_and!; try done; try apply sublist_nil_l.
Qed.

Lemma executeChangeLog_spec (c : Conn Schema) (m : Migration) :
  match Legacy.executeChangeLog exec link c m with
  | (c', Legacy.Done) =>
      exists sc,
        exec (Script m) (schema (committed c)) = Some sc /\
        has_id (Id m) (changelog (committed c)) = false /\
        committed c' = mkDB (row_of m :: changelog (committed c)) sc /\
        log c' = log c ++ [SBegin; SInsert m; SScript (Script m); SCommit]
  | (c', _) =>
      committed c' = committed c /\
      exists l, log c' = log c ++ l /\ applies_of [m] l
  end.
Proof.
  unfold applies_of.
  tx_cases; eauto 10;
    (split; [done|]); eexists; (split; [done|]); simpl;
    split_and!; try done; try apply prefix_nil.
Qed.
End Transactions.

(** *** The shape of the walk *)
Section Walk.
Context {Schema : Type}.
Variable exec : string -> Schema -> option Schema.
Variable link : nat -> bool.
Implicit Types (c : Conn Schema) (d : gmap string Migration)
               (rows : list Migration).

Lemma lead_below d rows : lead d rows ++ below d rows = rows.
Proof.
  induction rows as [|r rows IH]; simpl; [done|].
  destruct (d !! Id r); simpl; [done|]. by rewrite IH.
Qed.

Lemma lead_undesired d rows : Forall (undesired d) (lead d rows).
Proof.
  induction rows as [|r rows IH]; simpl; [constructor|].
  destruct (d !! Id r) eqn:E; [constructor|]. by constructor.
Qed.

Lemma below_head d rows r rest : below d rows = r :: rest -> kept d r.
Proof.
  induction rows as [|r' rows IH]; simpl; [done|].
  destruct (d !! Id r') eqn:E; [|done].
  intros [= -> ->]. by eexists.
Qed.

Lemma lead_app d pre tail :
  Forall (undesired d) pre ->
  lead d (pre ++ tail) = pre ++ lead d tail /\
  below d (pre ++ tail) = below d tail.
Proof.
  induction 1 as [|r pre Hr _ [IH1 IH2]]; simpl; [done|].
  unfold undesired in Hr. rewrite Hr. by rewrite IH1.
Qed.

Lemma lead_kept d r rest :
  kept d r -> lead d (r :: rest) = [] /\ below d (r :: rest) = r :: rest.
Proof. intros [m Hm]. simpl. by rewrite Hm. Qed.

(** Once a kept entry has been met the service walk sends nothing. *)
Lemma check_loop_settled d rows c :
  Service.check_loop exec link c d true rows = (c, service_verdict d rows).
Proof.
  induction rows as [|r rows IH]; simpl; [done|].
  destruct (d !! Id r); [|done]. by destruct (String.eqb _ _).
Qed.

Lemma check_loop_from_kept d rows c :
  rows = [] \/ (exists r rest, rows = r :: rest /\ kept d r) ->
  Service.check_loop exec link c d false rows = (c, service_verdict d rows).
Proof.
  intros [->|(r & rest & -> & m & Hm)]; simpl; [done|].
  rewrite Hm. destruct (String.eqb _ _); [|done]. apply check_loop_settled.
Qed.

Lemma below_shape d rows :
  below d rows = [] \/ (exists r rest, below d rows = r :: rest /\ kept d r).
Proof.
  destruct (below d rows) as [|r rest] eqn:E; [by left|right].
  eauto using below_head.
Qed.

(** The service walk: the reverts of the lead, then the verdict on the
    rest. *)
Lemma check_loop_phases d rows c :
  Service.check_loop exec link c d false rows =
  match service_reverts exec link c (lead d rows) with
  | (c', Some err) => (c', Some err)
  | (c', None) => (c', service_verdict d (below d rows))
  end.
Proof.
  revert c. induction rows as [|r rows IH]; intros c; simpl; [done|].
  destruct (d !! Id r) as [m|] eqn:E; simpl; rewrite ?E.
  - destruct (String.eqb _ _); [|done]. apply check_loop_settled.
  - destruct (Service.revertSingleMigration exec link c r) as [c' [err|]];
      [done|]. apply IH.
Qed.

Lemma residual_lookup rows : forall d k,
  residual d rows !! k =
  if decide (k ∈ Id <$> rows) then None else d !! k.
Proof.
  unfold residual.
  induction rows as [|r rows IH]; intros d k; simpl; [done|].
  rewrite IH. destruct (decide (k = Id r)) as [->|Hne].
  - rewrite lookup_delete_eq, (decide_True (P := Id r ∈ _ :: _));
      [by case_decide | apply list_elem_of_here].
  - rewrite lookup_delete_ne by done.
    destruct (decide (k ∈ Id <$> rows)) as [Hin|Hin].
    + rewrite decide_True; [done | by apply list_elem_of_further].
    + rewrite decide_False; [done|].
      intros [?|?]%elem_of_cons; done.
Qed.

(** Once a kept entry has been met the legacy walk sends nothing either;
    it goes on deleting the ids it meets from [fileMigrations]. *)
Lemma walk_settled d rows : forall fm c,
  NoDup (Id <$> rows) ->
  (forall r, r ∈ rows -> fm !! Id r = d !! Id r) ->
  (Legacy.walk exec link c fm true rows).1.1 = c /\
  (Legacy.walk exec link c fm true rows).2 = legacy_verdict d rows /\
  (legacy_verdict d rows = Legacy.Done ->
   (Legacy.walk exec link c fm true rows).1.2 = residual fm rows).
Proof.
  induction rows as [|r rows IH]; intros fm c Hnd Hfm; simpl; [done|].
  rewrite fmap_cons in Hnd. apply NoDup_cons in Hnd as [Hr Hnd].
  rewrite (Hfm r) by apply list_elem_of_here.
  destruct (d !! Id r) as [m|] eqn:E; simpl; [|done].
  destruct (String.eqb _ _); [|done].
  apply IH; [done|]. intros r' Hr'.
  rewrite lookup_delete_ne; [by apply Hfm, list_elem_of_further|].
  intros Heq. apply Hr. rewrite Heq. by apply list_elem_of_fmap_2.
Qed.

(** The legacy walk: the reverts of the lead, whose failures it does not
    look at, then the verdict on the rest. *)
Lemma walk_phases d rows : forall c,
  NoDup (Id <$> rows) ->
  match legacy_reverts exec link c (lead d rows) with
  | (c', Legacy.Panicked) =>
      Legacy.walk exec link c d false rows = (c', d, Legacy.Panicked)
  | (c', _) =>
      (Legacy.walk exec link c d false rows).1.1 = c' /\
      (Legacy.walk exec link c d false rows).2
        = legacy_verdict d (below d rows) /\
      (legacy_verdict d (below d rows) = Legacy.Done ->
       (Legacy.walk exec link c d false rows).1.2
         = residual d (below d rows))
  end.
Proof.
  induction rows as [|r rows IH]; intros c Hnd; simpl; [done|].
  destruct (d !! Id r) as [m|] eqn:E; simpl.
  - pose proof (walk_settled d (r :: rows) d c Hnd (fun _ _ => eq_refl)) as H.
    simpl in H. rewrite E in *. by destruct (String.eqb _ _).
  - rewrite fmap_cons in Hnd. apply NoDup_cons in Hnd as [_ Hnd].
    specialize (IH (Legacy.revertScript exec link c r).1 Hnd).
    destruct (Legacy.revertScript exec link c r) as [c' []]; simpl in *;
      done.
Qed.
End Walk.

Lemma has_id_true (id : string) (rows : list Migration) :
  has_id id rows = true <-> id ∈ Id <$> rows.
Proof.
  unfold has_id. rewrite existsb_exists, list_elem_of_fmap.
  split.
  - intros (r & Hr%list_elem_of_In & Heq%String.eqb_eq). eauto.
  - intros (r & -> & Hr%list_elem_of_In). exists r.
    by rewrite String.eqb_refl.
Qed.

Lemma has_id_false (id : string) (rows : list Migration) :
  has_id id rows = false <-> id ∉ Id <$> rows.
Proof.
  rewrite <- has_id_true. destruct (has_id id rows); naive_solver.
Qed.

(** *** The reverts and the applies of a run *)
Section Loops.
Context {Schema : Type}.
Variable exec : string -> Schema -> option Schema.
Variable link : nat -> bool.
Implicit Types (c : Conn Schema) (d : gmap string Migration)
               (rows : list Migration).

Lemma filter_not_in_cons (r : Migration) (done rows : list Migration) :
  filter (fun x => Id x ∉ Id <$> (r :: done)) rows =
  filter (fun x => Id x ∉ Id <$> done) (filter (fun x => Id x ≠ Id r) rows).
Proof.
  rewrite list_filter_filter. apply list_filter_iff. intros x.
  rewrite fmap_cons, not_elem_of_cons. tauto.
Qed.

Lemma filter_not_in_nil rows :
  filter (fun x : Migration => Id x ∉ Id <$> @nil Migration) rows = rows.
Proof.
  induction rows as [|r rows IH]; [done|].
  rewrite filter_cons_True; [by rewrite IH | apply not_elem_of_nil].
Qed.

(** The entries of a stack with distinct ids that survive the deletion
    of some ids of its upper part: the lower part is untouched. *)
Lemma filter_upper (done pre tail : list Migration) :
  NoDup (Id <$> (pre ++ tail)) ->
  done ⊆ pre ->
  filter (fun x => Id x ∉ Id <$> done) (pre ++ tail) =
  filter (fun x => Id x ∉ Id <$> done) pre ++ tail.
Proof.
  intros Hnd Hsub. rewrite filter_app. f_equal.
  rewrite fmap_app in Hnd. apply NoDup_app in Hnd as (_ & Hdisj & _).
  induction tail as [|t tail IH]; [done|].
  rewrite filter_cons_True.
  - f_equal. apply IH. intros x Hx. apply Hdisj in Hx.
    intros Hin. apply Hx. rewrite fmap_cons. by apply list_elem_of_further.
  - intros (x & Heq & Hx)%list_elem_of_fmap.
    apply (Hdisj (Id t)).
    + rewrite Heq. apply list_elem_of_fmap_2. by apply Hsub.
    + rewrite fmap_cons. apply list_elem_of_here.
Qed.

Lemma inserts_app l1 l2 : inserts (l1 ++ l2) = inserts l1 ++ inserts l2.
Proof. apply omap_app. Qed.

Lemma deletes_app l1 l2 : deletes (l1 ++ l2) = deletes l1 ++ deletes l2.
Proof. apply omap_app. Qed.

Lemma scripts_app l1 l2 : scripts (l1 ++ l2) = scripts l1 ++ scripts l2.
Proof. apply omap_app. Qed.

Lemma reverts_of_nil rows : reverts_of rows [].
Proof. split_and!; [done|apply sublist_nil_l..]. Qed.

Lemma reverts_of_cons r rows l1 l2 :
  reverts_of [r] l1 -> reverts_of rows l2 ->
  reverts_of (r :: rows) (l1 ++ l2).
Proof.
  intros (Hi1 & Hd1 & Hs1) (Hi2 & Hd2 & Hs2). split_and!.
  - by rewrite inserts_app, Hi1, Hi2.
  - rewrite deletes_app. by apply (sublist_app _ [Id r]).
  - rewrite scripts_app. by apply (sublist_app _ [RevertScript r]).
Qed.

Lemma reverts_of_skip r rows l : reverts_of rows l -> reverts_of (r :: rows) l.
Proof. intros H. by apply (reverts_of_cons r rows []), H; apply reverts_of_nil. Qed.

Lemma reverts_of_service_tx r : reverts_of [r] (service_revert_tx r).
Proof. by split_and!. Qed.

Lemma reverts_of_legacy_tx r : reverts_of [r] (legacy_revert_tx r).
Proof. by split_and!. Qed.

Lemma reverts_of_prelude rows l :
  reverts_of rows l -> reverts_of rows ([SCreateTable; SSelect] ++ l).
Proof. by intros (? & ? & ?). Qed.

Lemma reverts_of_quiet rows l :
  inserts l = [] -> deletes l = [] -> scripts l = [] -> reverts_of rows l.
Proof.
  intros Hi Hd Hs. unfold reverts_of. rewrite Hi, Hd, Hs.
  split_and!; [done|apply sublist_nil_l..].
Qed.

Lemma reverts_of_inserts rows l : reverts_of rows l -> inserts l = [].
Proof. by intros (? & _). Qed.

(** The service reverts: a prefix of the entries is gone from the
    changelog, all of them when no revert failed; nothing is inserted. *)
Lemma service_reverts_spec rows : forall c,
  match service_reverts exec link c rows with
  | (c', res) =>
      exists done rest l,
        rows = done ++ rest /\
        (res = None -> rest = []) /\
        changelog (committed c') =
          filter (fun r => Id r ∉ Id <$> done) (changelog (committed c)) /\
        log c' = log c ++ l /\ reverts_of rows l /\
        (res = None ->
         l = flat_map service_revert_tx rows)
  end.
Proof.
  induction rows as [|r rows IH]; intros c; simpl.
  - exists [], [], []. rewrite filter_not_in_nil.
    split_and!; rewrite ?app_nil_r; try done; apply reverts_of_nil.
  - pose proof (revertSingleMigration_spec exec link c r) as Hr.
    destruct (Service.revertSingleMigration exec link c r) as [c1 [e|]].
    + destruct Hr as (Hc & l & Hl & Hi).
      exists [], (r :: rows), l. rewrite filter_not_in_nil, Hc.
      split_and!; try done.
      rewrite <- (app_nil_r l).
      apply reverts_of_cons; [done | apply reverts_of_nil].
    + destruct Hr as (sc & _ & Hc & Hl).
      specialize (IH c1).
      destruct (service_reverts exec link c1 rows) as [c' res].
      destruct IH as (done & rest & l & -> & Hrest & Hch & Hlog & Hi & Hall).
      exists (r :: done), rest, (service_revert_tx r ++ l).
      split_and!; [done|done| | | |].
      * by rewrite Hch, Hc, filter_not_in_cons.
      * rewrite Hlog, Hl. by rewrite <- app_assoc.
      * apply reverts_of_cons; [apply reverts_of_service_tx | done].
      * intros Hres. by rewrite (Hall Hres).
Qed.

(** The legacy reverts: some of the entries are gone from the changelog,
    nothing is inserted. *)
Lemma legacy_reverts_spec rows : forall c,
  match legacy_reverts exec link c rows with
  | (c', res) =>
      exists done l,
        done `sublist_of` rows /\
        changelog (committed c') =
          filter (fun r => Id r ∉ Id <$> done) (changelog (committed c)) /\
        log c' = log c ++ l /\ reverts_of rows l
  end.
Proof.
  induction rows as [|r rows IH]; intros c; simpl.
  - exists [], []. rewrite filter_not_in_nil.
    split_and!; rewrite ?app_nil_r; try done; apply reverts_of_nil.
  - pose proof (revertScript_spec exec link c r) as Hr.
    destruct (Legacy.revertScript exec link c r) as [c1 o].
    assert (Hskip : committed c1 = committed c ->
              (exists l, log c1 = log c ++ l /\ reverts_of [r] l) ->
              match legacy_reverts exec link c1 rows with
              | (c', res) =>
                exists done l,
                  done `sublist_of` r :: rows /\
                  changelog (committed c') =
                    filter (fun r => Id r ∉ Id <$> done)
                           (changelog (committed c)) /\
                  log c' = log c ++ l /\ reverts_of (r :: rows) l
              end).
    { intros Hc (l1 & Hl1 & Hi1). specialize (IH c1).
      destruct (legacy_reverts exec link c1 rows) as [c' res].
      destruct IH as (done & l & Hsub & Hch & Hlog & Hi).
      exists done, (l1 ++ l). split_and!; [|by rewrite Hch, Hc| |].
      - by apply sublist_cons.
      - rewrite Hlog, Hl1. by rewrite <- app_assoc.
      - by apply reverts_of_cons. }
    destruct o as [|e|].
    + destruct Hr as (sc & _ & Hc & Hl). specialize (IH c1).
      destruct (legacy_reverts exec link c1 rows) as [c' res].
      destruct IH as (done & l & Hsub & Hch & Hlog & Hi).
      exists (r :: done), (legacy_revert_tx r ++ l).
      split_and!; [by apply sublist_skip| | |].
      * by rewrite Hch, Hc, filter_not_in_cons.
      * rewrite Hlog, Hl. by rewrite <- app_assoc.
      * apply reverts_of_cons; [apply reverts_of_legacy_tx | done].
    + destruct Hr as (Hc & Hl). by apply Hskip.
    + destruct Hr as (Hc & l & Hl & Hi).
      exists [], l. rewrite filter_not_in_nil, Hc.
      split_and!; [apply sublist_nil_l|done|done|].
      rewrite <- (app_nil_r l).
      apply reverts_of_cons; [done | apply reverts_of_nil].
Qed.

Lemma inserts_service_applies (P : list Migration) :
  inserts (flat_map service_apply_tx P) = P.
Proof. induction P as [|m P IH]; simpl; [done|]. by f_equal. Qed.

Lemma inserts_legacy_applies (P : list Migration) :
  inserts (flat_map legacy_apply_tx P) = P.
Proof. induction P as [|m P IH]; simpl; [done|]. by f_equal. Qed.

Lemma deletes_service_reverts (rows : list Migration) :
  deletes (flat_map service_revert_tx rows) = Id <$> rows.
Proof. induction rows as [|m P IH]; simpl; [done|]. by f_equal. Qed.

Lemma deletes_legacy_reverts (rows : list Migration) :
  deletes (flat_map legacy_revert_tx rows) = Id <$> rows.
Proof. induction rows as [|m P IH]; simpl; [done|]. by f_equal. Qed.

Lemma scripts_service_applies (P : list Migration) :
  scripts (flat_map service_apply_tx P) = Script <$> P.
Proof. induction P as [|m P IH]; simpl; [done|]. by f_equal. Qed.

Lemma scripts_legacy_applies (P : list Migration) :
  scripts (flat_map legacy_apply_tx P) = Script <$> P.
Proof. induction P as [|m P IH]; simpl; [done|]. by f_equal. Qed.

Lemma applies_of_nil P : applies_of P [].
Proof. split_and!; [done|apply prefix_nil..]. Qed.

Lemma applies_of_head m P l : applies_of [m] l -> applies_of (m :: P) l.
Proof.
  intros (Hd & Hi & Hs). split_and!; [done|..].
  - etrans; [done|]. by apply prefix_cons, prefix_nil.
  - etrans; [done|]. by apply prefix_cons, prefix_nil.
Qed.

Lemma applies_of_service_cons m P l :
  applies_of P l -> applies_of (m :: P) (service_apply_tx m ++ l).
Proof.
  intros (Hd & Hi & Hs). split_and!.
  - by rewrite deletes_app, Hd.
  - rewrite inserts_app. simpl. by apply prefix_cons.
  - rewrite scripts_app. simpl. by apply prefix_cons.
Qed.

Lemma applies_of_legacy_cons m P l :
  applies_of P l -> applies_of (m :: P) (legacy_apply_tx m ++ l).
Proof.
  intros (Hd & Hi & Hs). split_and!.
  - by rewrite deletes_app, Hd.
  - rewrite inserts_app. simpl. by apply prefix_cons.
  - rewrite scripts_app. simpl. by apply prefix_cons.
Qed.

(** Step 5 of the service: the migrations whose transaction committed
    are a prefix of the ranged ones whose id is not among the existing
    ones, all of them when nothing failed; their rows are on top of the
    changelog, the last applied first. *)
Lemma execute_pending_spec existing ranged : forall c,
  match Service.execute_pending exec link c existing ranged with
  | (c', res) =>
      exists done l,
        done `prefix_of` filter (fun m => Id m ∉ Id <$> existing) ranged /\
        (res = None ->
         done = filter (fun m => Id m ∉ Id <$> existing) ranged /\
         l = flat_map service_apply_tx done) /\
        changelog (committed c') =
          rev (row_of <$> done) ++ changelog (committed c) /\
        log c' = log c ++ l /\
        applies_of (filter (fun m => Id m ∉ Id <$> existing) ranged) l
  end.
Proof.
  induction ranged as [|m ranged IH]; intros c; simpl.
  - exists [], []. split_and!; rewrite ?app_nil_r; try done;
      apply applies_of_nil.
  - destruct (has_id (Id m) existing) eqn:Hid.
    + apply has_id_true in Hid. rewrite filter_cons_False by naive_solver.
      apply IH.
    + apply has_id_false in Hid. rewrite filter_cons_True by done.
      pose proof (executeSingleMigration_spec exec link c m) as Hm.
      destruct (Service.executeSingleMigration exec link c m) as [c1 [e|]].
      * destruct Hm as (Hc & l & Hl & Ha).
        exists [], l. rewrite Hc.
        split_and!; [apply prefix_nil|done|done|done|].
        by apply applies_of_head.
      * destruct Hm as (sc & _ & _ & Hc & Hl). specialize (IH c1).
        destruct (Service.execute_pending exec link c1 existing ranged)
          as [c' res].
        destruct IH as (done & l & Hpre & Hall & Hch & Hlog & Ha).
        exists (m :: done), (service_apply_tx m ++ l).
        split_and!.
        -- by apply prefix_cons.
        -- intros Hres. destruct (Hall Hres) as [-> ->]. done.
        -- rewrite Hch, Hc. simpl. by rewrite <- app_assoc.
        -- rewrite Hlog, Hl. by rewrite <- app_assoc.
        -- by apply applies_of_service_cons.
Qed.

(** The apply loop of migrate.go, the same way. *)
Lemma apply_pending_spec pending : forall c,
  match Legacy.apply_pending exec link c pending with
  | (c', res) =>
      exists done l,
        done `prefix_of` pending /\
        (res = Legacy.Done ->
         done = pending /\ l = flat_map legacy_apply_tx done) /\
        changelog (committed c') =
          rev (row_of <$> done) ++ changelog (committed c) /\
        log c' = log c ++ l /\ applies_of pending l
  end.
Proof.
  induction pending as [|m pending IH]; intros c; simpl.
  - exists [], []. split_and!; rewrite ?app_nil_r; try done;
      apply applies_of_nil.
  - pose proof (executeChangeLog_spec exec link c m) as Hm.
    destruct (Legacy.executeChangeLog exec link c m) as [c1 o].
    assert (Hfail : o <> Legacy.Done ->
              committed c1 = committed c ->
              (exists l, log c1 = log c ++ l /\ applies_of [m] l) ->
              exists done l,
                done `prefix_of` m :: pending /\
                (o = Legacy.Done ->
                 done = m :: pending /\ l = flat_map legacy_apply_tx done) /\
                changelog (committed c1) =
                  rev (row_of <$> done) ++ changelog (committed c) /\
                log c1 = log c ++ l /\ applies_of (m :: pending) l).
    { intros Ho Hc (l & Hl & Ha). exists [], l. rewrite Hc.
      split_and!; [apply prefix_nil|done|done|done|].
      by apply applies_of_head. }
    destruct o as [|e|]; [|by apply Hfail; destruct Hm..].
    destruct Hm as (sc & _ & _ & Hc & Hl). specialize (IH c1).
    destruct (Legacy.apply_pending exec link c1 pending) as [c' res].
    destruct IH as (done & l & Hpre & Hall & Hch & Hlog & Ha).
    exists (m :: done), (legacy_apply_tx m ++ l).
    split_and!.
    + by apply prefix_cons.
    + intros Hres. destruct (Hall Hres) as [-> ->]. done.
    + rewrite Hch, Hc. simpl. by rewrite <- app_assoc.
    + rewrite Hlog, Hl. by rewrite <- app_assoc.
    + by apply applies_of_legacy_cons.
Qed.
End Loops.



(** ** The checksum of the loaders *)
Section Checksums.

Lemma le_bytes_length n w : length (MD5.le_bytes n w) = n.
Proof. unfold MD5.le_bytes. by rewrite length_map, length_seq. Qed.

(** [md5.Sum] returns a [[16]byte]. *)
Lemma MD5_Sum_length data : length (MD5.Sum data) = 16.
Proof.
  unfold MD5.Sum.
  destruct (fold_left MD5.block _ MD5.init) as [[[a b] c] d].
  rewrite length_map, !length_app, !le_bytes_length. done.
Qed.

Lemma string_of_list_length (l : list ascii) :
  String.length (string_of_list_ascii l) = length l.
Proof. induction l as [|a l IH]; simpl; [done|]. by rewrite IH. Qed.

Lemma hex_EncodeToString_length src :
  String.length (hex_EncodeToString src) = 2 * length src.
Proof.
  unfold hex_EncodeToString. rewrite string_of_list_length.
  induction src as [|a src IH]; simpl; [done|]. rewrite IH. lia.
Qed.

Lemma hex_digit_lower n : (n < 16)%N -> hex_digit n ∈ hextable.
Proof.
  intros Hn. unfold hex_digit. apply list_elem_of_In, nth_In.
  change (length hextable) with 16. lia.
Qed.

(** The encoding uses the sixteen digits [0-9a-f] only. *)
Lemma hex_EncodeToString_digits src :
  Forall (fun a => a ∈ hextable)
         (list_ascii_of_string (hex_EncodeToString src)).
Proof.
  unfold hex_EncodeToString. rewrite list_ascii_of_string_of_list_ascii.
  induction src as [|a src IH]; simpl; [constructor|].
  assert (N_of_ascii a < 256)%N by apply N_ascii_bounded.
  apply Forall_cons. split.
  { apply hex_digit_lower, N.Div0.div_lt_upper_bound. lia. }
  apply Forall_cons. split; [|done].
  apply hex_digit_lower, N.mod_lt. lia.
Qed.

(** The legacy digest is the sixteen bytes themselves. *)
Lemma generateHash_length s : String.length (Legacy.generateHash s) = 16.
Proof.
  unfold Legacy.generateHash.
  by rewrite string_of_list_length, MD5_Sum_length.
Qed.

Variable json_decode : string -> option (list string).
Variable Join : string -> string -> string.

(** The service records the hexadecimal digest of the script it read:
    thirty-two digits. *)
Lemma extractMigration_checksum m id mig :
  Service.extractMigration Join m id = inl mig ->
  Id mig = id /\
  Checksum mig = hex_EncodeToString (MD5.Sum (Script mig)) /\
  String.length (Checksum mig) = 32.
Proof.
  unfold Service.extractMigration. intros H.
  repeat case_match; simplify_eq/=.
  by rewrite hex_EncodeToString_length, MD5_Sum_length.
Qed.

(** The loop of [ReadChangeLogFile] records the bytes of the digest of
    the script it read: sixteen bytes. *)
Lemma read_migrations_checksum fs ids : forall acc,
  Forall (fun mig => Checksum mig = Legacy.generateHash (Script mig)) acc ->
  Forall (fun mig => Checksum mig = Legacy.generateHash (Script mig))
         (Legacy.read_migrations fs ids acc).1.
Proof.
  induction ids as [|id ids IH]; intros acc Hacc; simpl; [done|].
  repeat case_match; simpl; try done.
  apply IH, Forall_app. split; [done|]. by repeat constructor.
Qed.

(** For no script do the two loaders record the same checksum. *)
Lemma loaders_disagree script :
  Legacy.generateHash script <> hex_EncodeToString (MD5.Sum script).
Proof.
  intros Heq. apply (f_equal String.length) in Heq.
  rewrite generateHash_length, hex_EncodeToString_length, MD5_Sum_length in Heq.
  done.
Qed.
End Checksums.

(** *** The desired set and the phases of a run *)
Section Runs.
Context {Schema : Type}.
Variable exec : string -> Schema -> option Schema.
Variable link : nat -> bool.
Variable json_decode : string -> option (list string).
Variable Join : string -> string -> string.
Implicit Types (c : Conn Schema) (d : gmap string Migration)
               (rows : list Migration) (order : map_order).

Lemma convert_fold migrations : forall (acc : gmap string Migration) id,
  fold_left (fun m mig => <[Id mig := mig]> m) migrations acc !! id =
  match last (filter (fun mig => Id mig = id) migrations) with
  | Some mig => Some mig
  | None => acc !! id
  end.
Proof.
  induction migrations as [|mig migrations IH]; intros acc id; simpl; [done|].
  rewrite IH. destruct (decide (Id mig = id)) as [Heq|Hne].
  - rewrite filter_cons_True by done. rewrite last_cons.
    destruct (last _); [done|]. rewrite <- Heq. apply lookup_insert_eq.
  - rewrite filter_cons_False by done.
    destruct (last _); [done|]. by apply lookup_insert_ne.
Qed.

(** [convertMigrationToMap]: under an id, the last migration of the
    slice that carries it. *)
Lemma convertMigrationToMap_lookup migrations id :
  Legacy.convertMigrationToMap migrations !! id =
  last (filter (fun mig => Id mig = id) migrations).
Proof.
  unfold Legacy.convertMigrationToMap. rewrite convert_fold.
  by destruct (last _).
Qed.

Lemma convertMigrationToMap_keyed migrations :
  keyed (Legacy.convertMigrationToMap migrations).
Proof.
  intros id mig. rewrite convertMigrationToMap_lookup.
  intros H%last_Some_elem_of. by apply list_elem_of_filter in H as [? _].
Qed.

Lemma extract_all_lookup m ids : forall acc d,
  Service.extract_all Join m ids acc = (d, None) ->
  forall id,
    d !! id =
    if decide (id ∈ ids) then
      match Service.extractMigration Join m id with
      | inl mig => Some mig
      | inr _ => None
      end
    else acc !! id.
Proof.
  induction ids as [|v ids IH]; intros acc d H id; simpl in H.
  - simplify_eq. by rewrite decide_False by apply not_elem_of_nil.
  - destruct (Service.extractMigration Join m v) as [mig|e] eqn:Hv; [|done].
    rewrite (IH _ _ H id).
    destruct (decide (id ∈ ids)) as [Hin|Hin].
    + rewrite decide_True; [done | by apply list_elem_of_further].
    + destruct (decide (id = v)) as [->|Hne].
      * rewrite decide_True by apply list_elem_of_here.
        by rewrite lookup_insert_eq, Hv.
      * rewrite decide_False; [by apply lookup_insert_ne|].
        intros [?|?]%elem_of_cons; done.
Qed.

Lemma getMigrations_keyed m d :
  Service.getMigrations json_decode Join m = (d, None) -> keyed d.
Proof.
  unfold Service.getMigrations. destruct (Service.readConfigFile _ m); [|done].
  intros H id mig. rewrite (extract_all_lookup _ _ _ _ H).
  case_decide; [|by rewrite lookup_empty].
  destruct (Service.extractMigration Join m id) as [mig'|] eqn:E; [|done].
  intros [= ->]. by apply extractMigration_checksum in E as [? _].
Qed.

(** What a range over a keyed map yields: its values, one for each id. *)
Lemma order_elem order d mig :
  valid_order order -> keyed d ->
  mig ∈ order d <-> d !! Id mig = Some mig.
Proof.
  intros Hv Hk. rewrite (Hv d), list_elem_of_fmap. split.
  - intros ([k x] & -> & Hx%elem_of_map_to_list). simpl.
    by rewrite (Hk _ _ Hx).
  - intros H. exists (Id mig, mig). split; [done|].
    by apply elem_of_map_to_list.
Qed.

Lemma order_NoDup order d :
  valid_order order -> keyed d -> NoDup (Id <$> order d).
Proof.
  intros Hv Hk. rewrite (Hv d).
  replace (Id <$> (map_to_list d).*2) with ((map_to_list d).*1);
    [apply NoDup_fst_map_to_list|].
  rewrite <- list_fmap_compose. apply list_fmap_ext.
  intros i [k x] Hx%list_elem_of_lookup_2%elem_of_map_to_list. simpl.
  by rewrite (Hk _ _ Hx).
Qed.

Lemma order_empty order : valid_order order -> order ∅ = [].
Proof.
  intros Hv. apply Permutation_nil_r. rewrite (Hv ∅).
  by rewrite map_to_list_empty.
Qed.

(** A run of migrate.go whose first two statements are answered: the
    walk over the changelog, then the applies. *)
Lemma Legacy_run order c migrations :
  ready link c ->
  Legacy.ExecuteMigration exec link order c migrations =
  match Legacy.walk exec link (prelude c)
          (Legacy.convertMigrationToMap migrations) false
          (changelog (committed c)) with
  | (c3, pending, Legacy.Done) =>
      Legacy.apply_pending exec link c3 (order pending)
  | (c3, _, o) => (c3, o)
  end.
Proof.
  intros [H1 H2]. unfold Legacy.ExecuteMigration, create_table,
    select_changelog, up, send. simpl. by rewrite H1, H2.
Qed.

(** A run whose first statements are not answered ends there. *)
Lemma Legacy_not_ready order c migrations :
  ~ ready link c ->
  exists e l,
    Legacy.ExecuteMigration exec link order c migrations
      = (mkConn (committed c) (log c ++ l), Legacy.Failed (Driver e)) /\
    inserts l = [] /\ deletes l = [] /\ scripts l = [].
Proof.
  intros Hn. unfold Legacy.ExecuteMigration, create_table,
    select_changelog, up, send. simpl.
  destruct (link (length (log c))) eqn:H1.
  - destruct (link (length (log c ++ [SCreateTable]))) eqn:H2.
    + destruct Hn. by split.
    + exists SSelect, [SCreateTable; SSelect]. by rewrite <- app_assoc.
  - by exists SCreateTable, [SCreateTable].
Qed.

Lemma Service_run order m c d :
  ready link c ->
  Service.getMigrations json_decode Join m = (d, None) ->
  Service.ExecuteMigration exec link json_decode Join order m c =
  match Service.check_loop exec link (prelude c) d false
          (changelog (committed c)) with
  | (c3, Some err) => (c3, Some err)
  | (c3, None) =>
      Service.execute_pending exec link c3 (changelog (committed c)) (order d)
  end.
Proof.
  intros [H1 H2] Hd. unfold Service.ExecuteMigration, Service.prepareDatabase,
    Service.getExistingMigrations, Service.checkExistingChangelogs,
    create_table, select_changelog, up, send. simpl.
  by rewrite H1, H2, Hd.
Qed.

Lemma Service_not_ready order m c d :
  ~ ready link c ->
  Service.getMigrations json_decode Join m = (d, None) ->
  exists e l,
    Service.ExecuteMigration exec link json_decode Join order m c
      = (mkConn (committed c) (log c ++ l), Some (Driver e)) /\
    inserts l = [] /\ deletes l = [] /\ scripts l = [].
Proof.
  intros Hn Hd. unfold Service.ExecuteMigration, Service.prepareDatabase,
    Service.getExistingMigrations, create_table, select_changelog, up, send.
  simpl. rewrite Hd.
  destruct (link (length (log c))) eqn:H1.
  - destruct (link (length (log c ++ [SCreateTable]))) eqn:H2.
    + destruct Hn. by split.
    + exists SSelect, [SCreateTable; SSelect]. by rewrite <- app_assoc.
  - by exists SCreateTable, [SCreateTable].
Qed.
End Runs.

(** *** What a run inserts *)
Section Inserted.
Context {Schema : Type}.
Variable exec : string -> Schema -> option Schema.
Variable link : nat -> bool.
Variable json_decode : string -> option (list string).
Variable Join : string -> string -> string.
Implicit Types (c : Conn Schema) (d : gmap string Migration)
               (rows : list Migration) (order : map_order).

Lemma residual_keyed d rows : keyed d -> keyed (residual d rows).
Proof.
  intros Hk id mig. rewrite residual_lookup. case_decide; [done|]. apply Hk.
Qed.

Lemma undesired_not_in d (pre : list Migration) k :
  Forall (undesired d) pre -> k ∈ Id <$> pre -> d !! k = None.
Proof.
  intros Hpre (r & -> & Hr)%list_elem_of_fmap.
  by apply (proj1 (Forall_forall _ _) Hpre).
Qed.

(** The ids of the lead are no keys: only the rows from the newest kept
    one down take part in the residual. *)
Lemma residual_below d rows : residual d (below d rows) = residual d rows.
Proof.
  apply map_eq. intros k. rewrite !residual_lookup.
  assert (Hsplit : Id <$> rows = (Id <$> lead d rows) ++ (Id <$> below d rows))
    by (by rewrite <- fmap_app, lead_below).
  destruct (decide (k ∈ Id <$> below d rows)) as [Hin|Hin].
  - rewrite decide_True; [done|]. rewrite Hsplit. apply elem_of_app. by right.
  - destruct (decide (k ∈ Id <$> rows)) as [Hin'|Hin']; [|done].
    rewrite Hsplit in Hin'. apply elem_of_app in Hin' as [Hin'|Hin']; [|done].
    apply undesired_not_in with (pre := lead d rows);
      [apply lead_undesired | done].
Qed.

(** A run of migrate.go is a walk that reverts entries of the lead only,
    followed by the applies of what the range over the residual map
    yields: a prefix of them in this order, all of them when the run
    returns nil. *)
Lemma Legacy_inserted order c migrations :
  NoDup (Id <$> changelog (committed c)) ->
  let d := Legacy.convertMigrationToMap migrations in
  let r := Legacy.ExecuteMigration exec link order c migrations in
  let P := order (residual d (changelog (committed c))) in
  exists lw la,
    log r.1 = log c ++ lw ++ la /\
    reverts_of (lead d (changelog (committed c))) lw /\
    applies_of P la /\
    (r.2 = Legacy.Done -> la = flat_map legacy_apply_tx P).
Proof.
  intros Hnd d r P. subst r.
  destruct (decide (ready link c)) as [Hr|Hr].
  2:{ destruct (Legacy_not_ready exec link order c migrations Hr)
        as (e & l & -> & Hi & Hdl & Hs).
      exists l, []. simpl. rewrite app_nil_r.
      split_and!; [done|by apply reverts_of_quiet|apply applies_of_nil|done]. }
  rewrite Legacy_run by done. fold d.
  pose proof (walk_phases exec link d _ (prelude c) Hnd) as Hw.
  pose proof (legacy_reverts_spec exec link
                (lead d (changelog (committed c))) (prelude c)) as Hl.
  destruct (legacy_reverts exec link (prelude c) _) as [c' o].
  destruct Hl as (done & l0 & _ & _ & Hlog & Hi0).
  assert (Hfail : exists l, log c' = log c ++ l /\
                    reverts_of (lead d (changelog (committed c))) l).
  { exists ([SCreateTable; SSelect] ++ l0). split.
    - rewrite Hlog. simpl. by rewrite <- !app_assoc.
    - by apply reverts_of_prelude. }
  destruct (Legacy.walk exec link (prelude c) d false _) as [[c3 pend] o3].
  assert (o3 <> Legacy.Done ->
          c3 = c' ->
          exists lw la, log c3 = log c ++ lw ++ la /\
            reverts_of (lead d (changelog (committed c))) lw /\
            applies_of P la /\
            (o3 = Legacy.Done -> la = flat_map legacy_apply_tx P)) as Hbad.
  { intros Ho ->. destruct Hfail as (l & Hl & Hi). exists l, [].
    rewrite app_nil_r. split_and!; [done|done|apply applies_of_nil|done]. }
  destruct o as [|e|]; simpl in Hw;
    [| |simplify_eq; simpl; by apply Hbad].
  all: destruct Hw as (-> & -> & Hres);
    destruct (legacy_verdict d _) eqn:Hv; simpl; try (by apply Hbad);
    rewrite (Hres eq_refl), residual_below; fold P;
    destruct Hfail as (l & Hl & Hi);
    pose proof (apply_pending_spec exec link P c') as Ha;
    destruct (Legacy.apply_pending exec link c' P) as [c4 o4];
    destruct Ha as (done' & l1 & _ & Hall & _ & Hlog1 & Ha);
    exists l, l1; simpl; rewrite Hlog1, Hl, app_assoc;
    (split_and!; [done|done|done|]);
    intros ->; by destruct (Hall eq_refl) as [-> ->].
Qed.

(** A run of the service is a walk that reverts entries of the lead only,
    followed by the applies of the ranged migrations whose id is not in
    the changelog: a prefix of them in this order, all of them when the
    run returns nil. *)
Lemma Service_inserted order m c d :
  Service.getMigrations json_decode Join m = (d, None) ->
  let r := Service.ExecuteMigration exec link json_decode Join order m c in
  let P := filter (fun mig => Id mig ∉ Id <$> changelog (committed c))
                  (order d) in
  exists lw la,
    log r.1 = log c ++ lw ++ la /\
    reverts_of (lead d (changelog (committed c))) lw /\
    applies_of P la /\
    (r.2 = None -> la = flat_map service_apply_tx P).
Proof.
  intros Hd r P. subst r.
  destruct (decide (ready link c)) as [Hr|Hr].
  2:{ destruct (Service_not_ready exec link json_decode Join order m c d Hr Hd)
        as (e & l & -> & Hi & Hdl & Hs).
      exists l, []. simpl. rewrite app_nil_r.
      split_and!; [done|by apply reverts_of_quiet|apply applies_of_nil|done]. }
  rewrite (Service_run _ _ _ _ _ _ _ d) by done.
  rewrite check_loop_phases.
  pose proof (service_reverts_spec exec link
                (lead d (changelog (committed c))) (prelude c)) as Hl.
  destruct (service_reverts exec link (prelude c) _) as [c' res].
  destruct Hl as (done & rest & l0 & _ & _ & _ & Hlog & Hi0 & _).
  assert (Hfail : exists l, log c' = log c ++ l /\
                    reverts_of (lead d (changelog (committed c))) l).
  { exists ([SCreateTable; SSelect] ++ l0). split.
    - rewrite Hlog. simpl. by rewrite <- !app_assoc.
    - by apply reverts_of_prelude. }
  destruct Hfail as (l & Hl & Hi).
  destruct res as [e|]; simpl.
  { exists l, []. rewrite app_nil_r.
    split_and!; [done|done|apply applies_of_nil|done]. }
  destruct (service_verdict d _) as [e|]; simpl.
  { exists l, []. rewrite app_nil_r.
    split_and!; [done|done|apply applies_of_nil|done]. }
  pose proof (execute_pending_spec exec link (changelog (committed c))
                (order d) c') as Ha.
  destruct (Service.execute_pending exec link c' _ _) as [c4 o4].
  destruct Ha as (done' & l1 & _ & Hall & _ & Hlog1 & Ha).
  exists l, l1; simpl. rewrite Hlog1, Hl, app_assoc.
  split_and!; [done|done|done|].
  intros ->. by destruct (Hall eq_refl) as [-> ->].
Qed.
End Inserted.

(** C8 (the code departs from the claim).  On the first migration of
    migrate_test.go, [ReadChangeLogFile] records as checksum the sixteen raw
    bytes of the MD5 digest of the script, not their lower-case hexadecimal
    encoding: the string it records is not the checksum the test file gives
    for this script, which is the hexadecimal encoding of those bytes and is
    what [MigrationService.extractMigration] records for the same script. *)
Theorem ReadChangeLogFile_records_raw_digest :
  exists raw,
    Legacy.ReadChangeLogFile Demo.json_decode Demo.test_files "changelog.json"
      = ([mkMigration "Test" Demo.test_script "DROP TABLE test" raw], None) /\
    String.length raw = 16 /\
    raw <> "9c23564a026f0826f2a05b8423aa21f9" /\
    hex_EncodeToString (list_ascii_of_string raw)
      = "9c23564a026f0826f2a05b8423aa21f9" /\
    Service.extractMigration Demo.Join
        (Service.mkService "changelog.json" "scripts" Demo.test_files) "Test"
      = inl (mkMigration "Test" Demo.test_script "DROP TABLE test"
                         "9c23564a026f0826f2a05b8423aa21f9").
Proof.
  exists (Legacy.generateHash Demo.test_script).
  split_and!; [by vm_compute|by vm_compute| |by vm_compute|by vm_compute].
  intros Heq. apply (f_equal String.length) in Heq.
  rewrite generateHash_length in Heq. done.
Qed.

(** ** Applying one migration *)

(** C5 (as stated, refuted).  [executeChangeLog] of migrate.go sends the
    INSERT first and the script after it. *)
Lemma executeChangeLog_inserts_first :
  let r := Legacy.executeChangeLog Demo.exec Demo.online Demo.fresh Demo.T in
  r.2 = Legacy.Done /\
  log r.1 = [SBegin; SInsert Demo.T; SScript (Script Demo.T); SCommit] /\
  script_then_insert Demo.T (log r.1) = false.
Proof. by vm_compute. Qed.

Lemma script_then_insert_service m :
  script_then_insert m (service_apply_tx m) = true.
Proof.
  simpl. rewrite decide_True by done. apply bool_decide_eq_true.
  apply list_elem_of_here.
Qed.

Lemma script_then_insert_legacy m :
  script_then_insert m (legacy_apply_tx m) = false.
Proof. simpl. by rewrite decide_True. Qed.

(** C5 (amended).  Applying one migration is atomic in both versions: in
    one transaction the forward script and the INSERT of the changelog
    entry are sent, the script first in [executeSingleMigration], the
    INSERT first in [executeChangeLog], and both take effect or neither
    does: when the call returns nil the schema is the one the script
    produced and the entry is on top of the changelog, and after any
    failure the committed database is the one before the call. *)
Theorem apply_is_atomic {Schema : Type}
    (exec : string -> Schema -> option Schema) (link : nat -> bool)
    (c : Conn Schema) (m : Migration) :
  match Service.executeSingleMigration exec link c m with
  | (c', None) =>
      (exists sc,
         exec (Script m) (schema (committed c)) = Some sc /\
         committed c' = mkDB (row_of m :: changelog (committed c)) sc) /\
      log c' = log c ++ service_apply_tx m /\
      script_then_insert m (service_apply_tx m) = true
  | (c', Some _) => committed c' = committed c
  end /\
  match Legacy.executeChangeLog exec link c m with
  | (c', Legacy.Done) =>
      (exists sc,
         exec (Script m) (schema (committed c)) = Some sc /\
         committed c' = mkDB (row_of m :: changelog (committed c)) sc) /\
      log c' = log c ++ legacy_apply_tx m /\
      script_then_insert m (legacy_apply_tx m) = false
  | (c', _) => committed c' = committed c
  end.
Proof.
  split.
  - pose proof (executeSingleMigration_spec exec link c m) as H.
    destruct (Service.executeSingleMigration exec link c m) as [c' [e|]].
    + by destruct H.
    + destruct H as (sc & ? & ? & ? & ?).
      eauto using script_then_insert_service.
  - pose proof (executeChangeLog_spec exec link c m) as H.
    destruct (Legacy.executeChangeLog exec link c m) as [c' [|e|]];
      [|by destruct H..].
    destruct H as (sc & ? & ? & ? & ?).
    eauto using script_then_insert_legacy.
Qed.

(** ** The pending set and the order of the applies *)
Section Pending.
Context {Schema : Type}.
Variable exec : string -> Schema -> option Schema.
Variable link : nat -> bool.
Implicit Types (c : Conn Schema) (d : gmap string Migration)
               (rows : list Migration) (order : map_order).

Lemma prefix_NoDup_ids (l k : list Migration) :
  l `prefix_of` k -> NoDup (Id <$> k) -> NoDup (Id <$> l).
Proof.
  intros [k' ->]. rewrite fmap_app. by intros [? _]%NoDup_app.
Qed.

Lemma filter_NoDup_ids (P : Migration -> Prop) `{!forall x, Decision (P x)}
    (l : list Migration) :
  NoDup (Id <$> l) -> NoDup (Id <$> filter P l).
Proof.
  induction l as [|x l IH]; [done|]. rewrite fmap_cons, NoDup_cons.
  intros [Hx Hl]. rewrite filter_cons. case_decide; [|by apply IH].
  rewrite fmap_cons, NoDup_cons. split; [|by apply IH].
  intros (y & Heq & Hy%list_elem_of_filter)%list_elem_of_fmap.
  apply Hx. rewrite Heq. apply list_elem_of_fmap_2. tauto.
Qed.

Lemma prefix_elem (l k : list Migration) x :
  l `prefix_of` k -> x ∈ l -> x ∈ k.
Proof. intros [k' ->] ?. apply elem_of_app. by left. Qed.

Lemma residual_elem order d rows mig :
  valid_order order -> keyed d ->
  mig ∈ order (residual d rows) <->
  d !! Id mig = Some mig /\ Id mig ∉ Id <$> rows.
Proof.
  intros Hv Hk. rewrite order_elem by auto using residual_keyed.
  rewrite residual_lookup. case_decide; [|tauto].
  split; [done | by intros [_ ?]].
Qed.

Lemma filtered_elem order d rows mig :
  valid_order order -> keyed d ->
  mig ∈ filter (fun x => Id x ∉ Id <$> rows) (order d) <->
  d !! Id mig = Some mig /\ Id mig ∉ Id <$> rows.
Proof.
  intros Hv Hk. rewrite list_elem_of_filter, order_elem by done. tauto.
Qed.

Lemma values_valid : valid_order (fun m => (map_to_list m).*2).
Proof. by intros m. Qed.

Lemma NoDup_ids (l : list Migration) : NoDup (Id <$> l) -> NoDup l.
Proof. apply NoDup_fmap_1. Qed.

(** Whatever the range order, the residual map and the filtered range
    hold the same migrations: the desired ones whose id is not
    recorded. *)
Lemma residual_pending order d rows :
  valid_order order -> keyed d ->
  order (residual d rows) ≡ₚ
  filter (fun x => Id x ∉ Id <$> rows) (map_to_list d).*2.
Proof.
  intros Hv Hk. apply NoDup_Permutation.
  - apply NoDup_ids, order_NoDup; auto using residual_keyed.
  - apply NoDup_filter, NoDup_ids, (order_NoDup _ d values_valid Hk).
  - intros mig. rewrite residual_elem by done.
    by rewrite (filtered_elem _ d rows mig values_valid Hk).
Qed.

Lemma filtered_pending order d rows :
  valid_order order ->
  filter (fun x => Id x ∉ Id <$> rows) (order d) ≡ₚ
  filter (fun x => Id x ∉ Id <$> rows) (map_to_list d).*2.
Proof. intros Hv. by rewrite (Hv d). Qed.
End Pending.

(** C7.  A run of either version is a walk that inserts nothing and
    reverts entries of the lead only, followed by an apply phase that
    deletes nothing and runs the scripts and sends the INSERTs of a prefix
    of the pending migrations, in their order and once each; of all of them
    when the run returns nil.  The pending migrations have distinct ids and
    are the desired migrations whose id is absent from the changelog: a
    desired migration whose id is recorded is never executed again, one
    whose id is absent is executed exactly once by a run that returns
    nil. *)
Theorem pending_applied_exactly_once {Schema : Type}
    (exec : string -> Schema -> option Schema) (link : nat -> bool)
    (json_decode : string -> option (list string))
    (Join : string -> string -> string)
    (order : map_order) (c : Conn Schema) :
  valid_order order ->
  let rows := changelog (committed c) in
  (NoDup (Id <$> rows) ->
   forall migrations,
     let d := Legacy.convertMigrationToMap migrations in
     let r := Legacy.ExecuteMigration exec link order c migrations in
     exists pending lw la,
       NoDup (Id <$> pending) /\
       (forall mig, mig ∈ pending <->
                    d !! Id mig = Some mig /\ Id mig ∉ Id <$> rows) /\
       log r.1 = log c ++ lw ++ la /\
       reverts_of (lead d rows) lw /\ applies_of pending la /\
       (r.2 = Legacy.Done ->
        inserts la = pending /\ scripts la = Script <$> pending)) /\
  (forall m d,
     Service.getMigrations json_decode Join m = (d, None) ->
     let r := Service.ExecuteMigration exec link json_decode Join order m c in
     exists pending lw la,
       NoDup (Id <$> pending) /\
       (forall mig, mig ∈ pending <->
                    d !! Id mig = Some mig /\ Id mig ∉ Id <$> rows) /\
       log r.1 = log c ++ lw ++ la /\
       reverts_of (lead d rows) lw /\ applies_of pending la /\
       (r.2 = None ->
        inserts la = pending /\ scripts la = Script <$> pending)).
Proof.
  intros Hv rows. split.
  - intros Hnd migrations d r.
    pose proof (convertMigrationToMap_keyed migrations) as Hk. fold d in Hk.
    destruct (Legacy_inserted exec link order c migrations Hnd)
      as (lw & la & Hlog & Hi & Ha & Hall).
    exists (order (residual d rows)), lw, la.
    split_and!; [|intros mig; by apply residual_elem|done..|].
    + apply order_NoDup; auto using residual_keyed.
    + intros Hr. fold r in Hall. rewrite (Hall Hr).
      by rewrite inserts_legacy_applies, scripts_legacy_applies.
  - intros m d Hd r.
    pose proof (getMigrations_keyed _ _ _ _ Hd) as Hk.
    destruct (Service_inserted exec link json_decode Join order m c d Hd)
      as (lw & la & Hlog & Hi & Ha & Hall).
    exists (filter (fun mig => Id mig ∉ Id <$> rows) (order d)), lw, la.
    split_and!; [|intros mig; by apply filtered_elem|done..|].
    + by apply filter_NoDup_ids, order_NoDup.
    + intros Hr. fold r in Hall. rewrite (Hall Hr).
      by rewrite inserts_service_applies, scripts_service_applies.
Qed.

Lemma Demo_range_valid : valid_order Demo.range.
Proof. by intros m. Qed.

Lemma pending_applied_exactly_once_witness :
  (let d := Legacy.convertMigrationToMap [Demo.ST; Demo.ST2] in
   let r := Legacy.ExecuteMigration Demo.exec Demo.online Demo.range
              Demo.one_applied [Demo.ST; Demo.ST2] in
   exists pending lw la,
     NoDup (Id <$> pending) /\
     (forall mig, mig ∈ pending <->
                  d !! Id mig = Some mig /\ Id mig ∉ ["T"]) /\
     log r.1 = log Demo.one_applied ++ lw ++ la /\
     reverts_of (lead d [row_of Demo.ST]) lw /\ applies_of pending la /\
     (r.2 = Legacy.Done ->
      inserts la = pending /\ scripts la = Script <$> pending)) /\
  (let m := Demo.service ["T"; "T2"] in
   let d := (Service.getMigrations Demo.json_decode Demo.Join m).1 in
   let r := Service.ExecuteMigration Demo.exec Demo.online Demo.json_decode
              Demo.Join Demo.range m Demo.one_applied in
   exists pending lw la,
     NoDup (Id <$> pending) /\
     (forall mig, mig ∈ pending <->
                  d !! Id mig = Some mig /\ Id mig ∉ ["T"]) /\
     log r.1 = log Demo.one_applied ++ lw ++ la /\
     reverts_of (lead d [row_of Demo.ST]) lw /\ applies_of pending la /\
     (r.2 = None ->
      inserts la = pending /\ scripts la = Script <$> pending)).
Proof.
  destruct (pending_applied_exactly_once Demo.exec Demo.online
              Demo.json_decode Demo.Join Demo.range Demo.one_applied
              Demo_range_valid) as [HL HS].
  split.
  - apply (HL (NoDup_singleton "T") [Demo.ST; Demo.ST2]).
  - apply (HS (Demo.service ["T"; "T2"])). by vm_compute.
Defined.

(** C4 (as stated, refuted).  With nothing recorded and [T] declared
    before [T2], a range over the map may yield [T2] first: it is then
    applied first, in both versions. *)
Lemma declared_order_not_followed :
  valid_order Demo.range /\
  (let r := Legacy.ExecuteMigration Demo.exec Demo.online Demo.range
              Demo.fresh [Demo.T; Demo.T2] in
   r.2 = Legacy.Done /\ inserts (log r.1) = [Demo.T2; Demo.T]) /\
  (let r := Service.ExecuteMigration Demo.exec Demo.online Demo.json_decode
              Demo.Join Demo.range (Demo.service ["T"; "T2"]) Demo.fresh in
   r.2 = None /\ inserts (log r.1) = [Demo.ST2; Demo.ST]).
Proof. split; [apply Demo_range_valid | by vm_compute]. Qed.

(** C4 (amended).  When several pending migrations are applied in one
    run, they are applied in the order in which the range over the map of
    the desired set yields them, which Go does not specify: in a run that
    returns nil the migrations inserted are, in this order, the result of
    the range over the residual map (migrate.go) or the ranged migrations
    whose id is not recorded (the service); in both cases a permutation of
    the desired migrations whose id is not recorded, whatever the order in
    which they were declared. *)
Theorem applies_follow_range_order {Schema : Type}
    (exec : string -> Schema -> option Schema) (link : nat -> bool)
    (json_decode : string -> option (list string))
    (Join : string -> string -> string)
    (order : map_order) (c : Conn Schema) :
  valid_order order ->
  let rows := changelog (committed c) in
  (NoDup (Id <$> rows) ->
   forall migrations,
     let d := Legacy.convertMigrationToMap migrations in
     let r := Legacy.ExecuteMigration exec link order c migrations in
     r.2 = Legacy.Done ->
     exists l,
       log r.1 = log c ++ l /\
       inserts l = order (residual d rows) /\
       inserts l ≡ₚ filter (fun x => Id x ∉ Id <$> rows) (map_to_list d).*2) /\
  (forall m d,
     Service.getMigrations json_decode Join m = (d, None) ->
     let r := Service.ExecuteMigration exec link json_decode Join order m c in
     r.2 = None ->
     exists l,
       log r.1 = log c ++ l /\
       inserts l = filter (fun x => Id x ∉ Id <$> rows) (order d) /\
       inserts l ≡ₚ filter (fun x => Id x ∉ Id <$> rows) (map_to_list d).*2).
Proof.
  intros Hv rows. split.
  - intros Hnd migrations d r Hr.
    destruct (Legacy_inserted exec link order c migrations Hnd)
      as (lw & la & Hlog & Hi & _ & Hall).
    exists (lw ++ la). fold r in Hall. split; [done|].
    rewrite inserts_app, (reverts_of_inserts _ _ Hi), (Hall Hr),
      inserts_legacy_applies.
    split; [done|].
    apply residual_pending; [done|]. apply convertMigrationToMap_keyed.
  - intros m d Hd r Hr.
    destruct (Service_inserted exec link json_decode Join order m c d Hd)
      as (lw & la & Hlog & Hi & _ & Hall).
    exists (lw ++ la). fold r in Hall. split; [done|].
    rewrite inserts_app, (reverts_of_inserts _ _ Hi), (Hall Hr),
      inserts_service_applies.
    split; [done|].
    by apply filtered_pending.
Qed.

Lemma applies_follow_range_order_witness :
  (exists l,
     log (Legacy.ExecuteMigration Demo.exec Demo.online Demo.range
            Demo.fresh [Demo.T; Demo.T2]).1 = log Demo.fresh ++ l /\
     inserts l =
       Demo.range (residual (Legacy.convertMigrationToMap [Demo.T; Demo.T2]) []) /\
     inserts l ≡ₚ
       filter (fun x => Id x ∉ Id <$> @nil Migration)
         (map_to_list (Legacy.convertMigrationToMap [Demo.T; Demo.T2])).*2) /\
  (let m := Demo.service ["T"; "T2"] in
   let d := (Service.getMigrations Demo.json_decode Demo.Join m).1 in
   exists l,
     log (Service.ExecuteMigration Demo.exec Demo.online Demo.json_decode
            Demo.Join Demo.range m Demo.fresh).1 = log Demo.fresh ++ l /\
     inserts l = filter (fun x => Id x ∉ Id <$> @nil Migration) (Demo.range d) /\
     inserts l ≡ₚ
       filter (fun x => Id x ∉ Id <$> @nil Migration) (map_to_list d).*2).
Proof.
  destruct (applies_follow_range_order Demo.exec Demo.online
              Demo.json_decode Demo.Join Demo.range Demo.fresh
              Demo_range_valid) as [HL HS].
  split.
  - apply (HL (NoDup_nil_2 : NoDup (Id <$> [])) [Demo.T; Demo.T2]).
    by vm_compute.
  - apply (HS (Demo.service ["T"; "T2"])); by vm_compute.
Defined.

(** ** Nothing desired *)
Section Teardown.
Context {Schema : Type}.
Variable exec : string -> Schema -> option Schema.
Variable link : nat -> bool.
Implicit Types (c : Conn Schema) (rows : list Migration).

Ltac link_up H :=
  rewrite ?H by (rewrite ?length_app; simpl; lia).

Lemma revertSingleMigration_ok c r sc :
  (forall n, length (log c) <= n -> link n = true) ->
  exec (RevertScript r) (schema (committed c)) = Some sc ->
  Service.revertSingleMigration exec link c r =
    (mkConn (mkDB (filter (fun x => Id x ≠ Id r) (changelog (committed c))) sc)
            (log c ++ service_revert_tx r), None).
Proof.
  intros Hl He. tx_unfold. link_up Hl. rewrite He. simpl. link_up Hl.
  by rewrite <- !app_assoc.
Qed.

Lemma revertScript_ok c r sc :
  (forall n, length (log c) <= n -> link n = true) ->
  exec (RevertScript r) (schema (committed c)) = Some sc ->
  Legacy.revertScript exec link c r =
    (mkConn (mkDB (filter (fun x => Id x ≠ Id r) (changelog (committed c))) sc)
            (log c ++ legacy_revert_tx r), Legacy.Done).
Proof.
  intros Hl He. tx_unfold. link_up Hl. simpl. link_up Hl. rewrite He.
  simpl. link_up Hl. by rewrite <- !app_assoc.
Qed.

Lemma service_reverts_all rows : forall c sc,
  (forall n, length (log c) <= n -> link n = true) ->
  exec_all exec (RevertScript <$> rows) (schema (committed c)) = Some sc ->
  service_reverts exec link c rows =
    (mkConn (mkDB (filter (fun x => Id x ∉ Id <$> rows)
                          (changelog (committed c))) sc)
            (log c ++ flat_map service_revert_tx rows), None).
Proof.
  induction rows as [|r rows IH]; intros c sc Hl He; simpl in *.
  - simplify_eq. rewrite filter_not_in_nil, app_nil_r.
    by destruct c as [[] ?].
  - destruct (exec (RevertScript r) (schema (committed c))) as [sc1|] eqn:E;
      [|done].
    rewrite (revertSingleMigration_ok c r sc1) by done.
    rewrite (IH _ sc); simpl; [|intros n Hn; apply Hl|done].
    + rewrite <- filter_not_in_cons. by rewrite <- !app_assoc.
    + rewrite length_app in Hn. lia.
Qed.

Lemma legacy_reverts_all rows : forall c sc,
  (forall n, length (log c) <= n -> link n = true) ->
  exec_all exec (RevertScript <$> rows) (schema (committed c)) = Some sc ->
  legacy_reverts exec link c rows =
    (mkConn (mkDB (filter (fun x => Id x ∉ Id <$> rows)
                          (changelog (committed c))) sc)
            (log c ++ flat_map legacy_revert_tx rows), Legacy.Done).
Proof.
  induction rows as [|r rows IH]; intros c sc Hl He; simpl in *.
  - simplify_eq. rewrite filter_not_in_nil, app_nil_r.
    by destruct c as [[] ?].
  - destruct (exec (RevertScript r) (schema (committed c))) as [sc1|] eqn:E;
      [|done].
    rewrite (revertScript_ok c r sc1) by done.
    rewrite (IH _ sc); simpl; [|intros n Hn; apply Hl|done].
    + rewrite <- filter_not_in_cons. by rewrite <- !app_assoc.
    + rewrite length_app in Hn. lia.
Qed.

Lemma filter_all_gone rows :
  filter (fun x => Id x ∉ Id <$> rows) rows = [].
Proof.
  apply elem_of_nil_inv. intros x [Hx Hin]%list_elem_of_filter.
  apply Hx. by apply list_elem_of_fmap_2.
Qed.

Lemma lead_empty rows :
  lead ∅ rows = rows /\ below ∅ rows = [].
Proof.
  induction rows as [|r rows [IH1 IH2]]; simpl; [done|].
  rewrite lookup_empty. by rewrite IH1.
Qed.

(** With nothing desired the walk of migrate.go is the reverts of all
    the rows. *)
Lemma walk_empty rows : forall c,
  Legacy.walk exec link c ∅ false rows =
  match legacy_reverts exec link c rows with
  | (c', Legacy.Panicked) => (c', ∅, Legacy.Panicked)
  | (c', _) => (c', ∅, Legacy.Done)
  end.
Proof.
  induction rows as [|r rows IH]; intros c; simpl; [done|].
  rewrite lookup_empty.
  destruct (Legacy.revertScript exec link c r) as [c' []]; by rewrite ?IH.
Qed.

Lemma ready_up c :
  (forall n, length (log c) <= n -> link n = true) -> ready link c.
Proof.
  intros Hl. split; apply Hl; rewrite ?length_app; simpl; lia.
Qed.
End Teardown.

(** C10.  With an empty desired set, a connection that answers and revert
    scripts that succeed one after the other, newest first, a run of either
    version reverts every recorded entry in this order and returns nil; the
    changelog is empty after it. *)
Theorem empty_desired_set_tears_down {Schema : Type}
    (exec : string -> Schema -> option Schema) (link : nat -> bool)
    (json_decode : string -> option (list string))
    (Join : string -> string -> string)
    (order : map_order) (c : Conn Schema) (sc : Schema) :
  valid_order order ->
  (forall n, length (log c) <= n -> link n = true) ->
  exec_all exec (RevertScript <$> changelog (committed c))
           (schema (committed c)) = Some sc ->
  Legacy.ExecuteMigration exec link order c [] =
    (mkConn (mkDB [] sc)
            (log c ++ [SCreateTable; SSelect]
                   ++ flat_map legacy_revert_tx (changelog (committed c))),
     Legacy.Done) /\
  (forall m,
     Service.getMigrations json_decode Join m = (∅, None) ->
     Service.ExecuteMigration exec link json_decode Join order m c =
       (mkConn (mkDB [] sc)
               (log c ++ [SCreateTable; SSelect]
                      ++ flat_map service_revert_tx (changelog (committed c))),
        None)).
Proof.
  intros Hv Hl He.
  assert (Hl' : forall n, length (log (prelude c)) <= n -> link n = true).
  { intros n Hn. apply Hl. simpl in Hn. rewrite !length_app in Hn. lia. }
  split.
  - rewrite Legacy_run by by apply ready_up.
    change (Legacy.convertMigrationToMap []) with (∅ : gmap string Migration).
    rewrite walk_empty, (legacy_reverts_all _ _ _ (prelude c) sc) by done.
    rewrite (order_empty _ Hv). simpl.
    by rewrite filter_all_gone, <- !app_assoc.
  - intros m Hd.
    rewrite (Service_run _ _ _ _ _ _ _ ∅) by (by try apply ready_up).
    rewrite check_loop_phases.
    destruct (lead_empty (changelog (committed c))) as [-> ->].
    rewrite (service_reverts_all _ _ _ (prelude c) sc) by done.
    rewrite (order_empty _ Hv). simpl.
    by rewrite filter_all_gone, <- !app_assoc.
Qed.

Lemma empty_desired_set_tears_down_witness :
  Legacy.ExecuteMigration Demo.exec Demo.online Demo.range Demo.both_applied [] =
    (mkConn (mkDB [] [])
            (log Demo.both_applied ++ [SCreateTable; SSelect]
               ++ flat_map legacy_revert_tx
                    (changelog (committed Demo.both_applied))),
     Legacy.Done) /\
  Service.ExecuteMigration Demo.exec Demo.online Demo.json_decode Demo.Join
      Demo.range (Demo.service []) Demo.both_applied =
    (mkConn (mkDB [] [])
            (log Demo.both_applied ++ [SCreateTable; SSelect]
               ++ flat_map service_revert_tx
                    (changelog (committed Demo.both_applied))),
     None).
Proof.
  destruct (empty_desired_set_tears_down Demo.exec Demo.online
              Demo.json_decode Demo.Join Demo.range Demo.both_applied []
              Demo_range_valid (fun _ _ => eq_refl) eq_refl) as [HL HS].
  split; [exact HL | apply HS; by vm_compute].
Defined.

(** ** A walk that fails *)
Section Failure.
Context {Schema : Type}.
Variable exec : string -> Schema -> option Schema.
Variable link : nat -> bool.
Variable json_decode : string -> option (list string).
Variable Join : string -> string -> string.
Implicit Types (c : Conn Schema) (d : gmap string Migration)
               (rows : list Migration) (order : map_order).

Lemma kept_in_below d rows e : e ∈ rows -> kept d e -> e ∈ below d rows.
Proof.
  intros Hin [m Hm]. rewrite <- (lead_below d rows) in Hin.
  apply elem_of_app in Hin as [Hin|Hin]; [|done].
  pose proof (lead_undesired d rows) as Hl.
  apply (proj1 (Forall_forall _ _) Hl) in Hin. unfold undesired in Hin.
  congruence.
Qed.

Lemma below_suffix d l1 k l2 :
  kept d k -> exists l1', below d (l1 ++ k :: l2) = l1' ++ k :: l2.
Proof.
  intros [m Hm]. induction l1 as [|r l1 [l1' IH]]; simpl.
  - rewrite Hm. by exists [].
  - destruct (d !! Id r); [by exists (r :: l1) | by exists l1'].
Qed.

Lemma lead_split d pre tail :
  Forall (undesired d) pre ->
  tail = [] \/ (exists r rest, tail = r :: rest /\ kept d r) ->
  lead d (pre ++ tail) = pre /\ below d (pre ++ tail) = tail.
Proof.
  intros Hpre Htail. destruct (lead_app d pre tail Hpre) as [-> ->].
  destruct Htail as [->|(r & rest & -> & Hr)].
  - by rewrite app_nil_r.
  - destruct (lead_kept d r rest Hr) as [-> ->]. by rewrite app_nil_r.
Qed.

Lemma verified_kept d r : verified d r -> kept d r.
Proof. intros (m & Hm & _). by exists m. Qed.

Lemma drifted_kept d r : drifted d r -> kept d r.
Proof. intros (m & Hm & _). by exists m. Qed.

Lemma service_verdict_drifted d rows e :
  e ∈ rows -> drifted d e -> service_verdict d rows <> None.
Proof.
  intros Hin (m & Hm & Hne).
  induction rows as [|r rows IH]; [by apply elem_of_nil in Hin|]. simpl.
  destruct (d !! Id r) as [m'|] eqn:E; [|done].
  destruct (String.eqb _ _) eqn:Heq; [|done].
  apply IH. apply elem_of_cons in Hin as [->|Hin]; [|done].
  apply String.eqb_eq in Heq. congruence.
Qed.

Lemma legacy_verdict_drifted d rows e :
  e ∈ rows -> drifted d e -> legacy_verdict d rows <> Legacy.Done.
Proof.
  intros Hin (m & Hm & Hne).
  induction rows as [|r rows IH]; [by apply elem_of_nil in Hin|]. simpl.
  destruct (d !! Id r) as [m'|] eqn:E; [|done].
  destruct (String.eqb _ _) eqn:Heq; [|done].
  apply IH. apply elem_of_cons in Hin as [->|Hin]; [|done].
  apply String.eqb_eq in Heq. congruence.
Qed.

Lemma service_verdict_undesired d rows u :
  u ∈ rows -> undesired d u -> service_verdict d rows <> None.
Proof.
  unfold undesired. intros Hin Hu.
  induction rows as [|r rows IH]; [by apply elem_of_nil in Hin|]. simpl.
  destruct (d !! Id r) as [m'|] eqn:E; [|done].
  destruct (String.eqb _ _) eqn:Heq; [|done].
  apply IH. apply elem_of_cons in Hin as [->|Hin]; [congruence|done].
Qed.

Lemma legacy_verdict_undesired d rows u :
  u ∈ rows -> undesired d u -> legacy_verdict d rows <> Legacy.Done.
Proof.
  unfold undesired. intros Hin Hu.
  induction rows as [|r rows IH]; [by apply elem_of_nil in Hin|]. simpl.
  destruct (d !! Id r) as [m'|] eqn:E; [|done].
  destruct (String.eqb _ _) eqn:Heq; [|done].
  apply IH. apply elem_of_cons in Hin as [->|Hin]; [congruence|done].
Qed.

Lemma service_verdict_verified d mid tail :
  Forall (verified d) mid ->
  service_verdict d (mid ++ tail) = service_verdict d tail.
Proof.
  induction 1 as [|r mid (m & Hm & Hc) _ IH]; simpl; [done|].
  rewrite Hm, Hc, String.eqb_refl. apply IH.
Qed.

Lemma legacy_verdict_verified d mid tail :
  Forall (verified d) mid ->
  legacy_verdict d (mid ++ tail) = legacy_verdict d tail.
Proof.
  induction 1 as [|r mid (m & Hm & Hc) _ IH]; simpl; [done|].
  rewrite Hm, Hc, String.eqb_refl. apply IH.
Qed.

Lemma service_verdict_mismatch d mid e rest m :
  Forall (verified d) mid ->
  d !! Id e = Some m -> Checksum e <> Checksum m ->
  service_verdict d (mid ++ e :: rest) = Some (Service.checksum_mismatch e m).
Proof.
  intros Hmid Hm Hne. rewrite service_verdict_verified by done. simpl.
  rewrite Hm. by apply String.eqb_neq in Hne as ->.
Qed.

Lemma legacy_verdict_mismatch d mid e rest :
  Forall (verified d) mid -> drifted d e ->
  legacy_verdict d (mid ++ e :: rest) = Legacy.Failed (New "checksum mismatch").
Proof.
  intros Hmid (m & Hm & Hne). rewrite legacy_verdict_verified by done. simpl.
  rewrite Hm. by apply String.eqb_neq in Hne as ->.
Qed.

Lemma service_verdict_stranded d mid u rest :
  Forall (verified d) mid -> undesired d u ->
  service_verdict d (mid ++ u :: rest)
    = Some (New "not revertable migration found").
Proof.
  intros Hmid Hu. rewrite service_verdict_verified by done. simpl.
  by rewrite Hu.
Qed.

Lemma legacy_verdict_stranded d mid u rest :
  Forall (verified d) mid -> undesired d u ->
  legacy_verdict d (mid ++ u :: rest)
    = Legacy.Failed (New "not revertedable migration found").
Proof.
  intros Hmid Hu. rewrite legacy_verdict_verified by done. simpl.
  by rewrite Hu.
Qed.

(** A run of the service whose verdict is a failure: the reverts of the
    lead, then the failure; the apply phase is not reached. *)
Lemma Service_failed_run order m c d :
  ready link c ->
  Service.getMigrations json_decode Join m = (d, None) ->
  service_verdict d (below d (changelog (committed c))) <> None ->
  Service.ExecuteMigration exec link json_decode Join order m c =
  match service_reverts exec link (prelude c)
          (lead d (changelog (committed c))) with
  | (c', Some err) => (c', Some err)
  | (c', None) => (c', service_verdict d (below d (changelog (committed c))))
  end.
Proof.
  intros Hr Hd Hv. rewrite (Service_run _ _ _ _ _ _ _ d) by done.
  rewrite check_loop_phases.
  destruct (service_reverts exec link (prelude c) _) as [c' [err|]]; [done|].
  by destruct (service_verdict d _).
Qed.

Lemma Legacy_failed_run order c migrations :
  ready link c ->
  NoDup (Id <$> changelog (committed c)) ->
  let d := Legacy.convertMigrationToMap migrations in
  legacy_verdict d (below d (changelog (committed c))) <> Legacy.Done ->
  Legacy.ExecuteMigration exec link order c migrations =
  match legacy_reverts exec link (prelude c)
          (lead d (changelog (committed c))) with
  | (c', Legacy.Panicked) => (c', Legacy.Panicked)
  | (c', _) => (c', legacy_verdict d (below d (changelog (committed c))))
  end.
Proof.
  intros Hr Hnd d Hv. rewrite Legacy_run by done. fold d.
  pose proof (walk_phases exec link d _ (prelude c) Hnd) as Hw.
  destruct (legacy_reverts exec link (prelude c) _) as [c' o].
  destruct (Legacy.walk exec link (prelude c) d false _) as [[c3 pend] o3].
  destruct o; simpl in Hw; [| |by simplify_eq].
  all: destruct Hw as (-> & -> & _);
    by destruct (legacy_verdict d _).
Qed.

Lemma service_reverts_upper c d :
  NoDup (Id <$> changelog (committed c)) ->
  reverted_lead_only d c
    (service_reverts exec link (prelude c)
       (lead d (changelog (committed c)))).1.
Proof.
  intros Hnd.
  pose proof (service_reverts_spec exec link
                (lead d (changelog (committed c))) (prelude c)) as H.
  destruct (service_reverts exec link (prelude c) _) as [c' res].
  destruct H as (done & rest & l & Hsplit & _ & Hch & Hlog & Hi & _).
  exists (filter (fun x => Id x ∉ Id <$> done)
            (lead d (changelog (committed c)))),
    ([SCreateTable; SSelect] ++ l).
  split_and!.
  - apply sublist_filter.
  - simpl in *. rewrite Hch.
    rewrite <- (lead_below d (changelog (committed c))) at 1.
    apply filter_upper; [by rewrite lead_below|].
    rewrite Hsplit. intros x Hx. apply elem_of_app. by left.
  - simpl in *. rewrite Hlog. by rewrite <- !app_assoc.
  - by apply reverts_of_prelude.
Qed.

Lemma legacy_reverts_upper c d :
  NoDup (Id <$> changelog (committed c)) ->
  reverted_lead_only d c
    (legacy_reverts exec link (prelude c)
       (lead d (changelog (committed c)))).1.
Proof.
  intros Hnd.
  pose proof (legacy_reverts_spec exec link
                (lead d (changelog (committed c))) (prelude c)) as H.
  destruct (legacy_reverts exec link (prelude c) _) as [c' res].
  destruct H as (done & l & Hsub & Hch & Hlog & Hi).
  exists (filter (fun x => Id x ∉ Id <$> done)
            (lead d (changelog (committed c)))),
    ([SCreateTable; SSelect] ++ l).
  split_and!.
  - apply sublist_filter.
  - simpl in *. rewrite Hch.
    rewrite <- (lead_below d (changelog (committed c))) at 1.
    apply filter_upper; [by rewrite lead_below|].
    by apply sublist_subseteq.
  - simpl in *. rewrite Hlog. by rewrite <- !app_assoc.
  - by apply reverts_of_prelude.
Qed.

Lemma untouched_lead_only c d l :
  inserts l = [] -> deletes l = [] -> scripts l = [] ->
  reverted_lead_only d c (mkConn (committed c) (log c ++ l)).
Proof.
  intros Hi Hd Hs. exists (lead d (changelog (committed c))), l.
  split_and!; [done| |done|by apply reverts_of_quiet].
  simpl. by rewrite lead_below.
Qed.

Lemma service_reverts_stops pre u rest : forall c c1 c2 err,
  service_reverts exec link c pre = (c1, None) ->
  Service.revertSingleMigration exec link c1 u = (c2, Some err) ->
  service_reverts exec link c (pre ++ u :: rest) = (c2, Some err).
Proof.
  induction pre as [|x pre IH]; intros c c1 c2 err Hpre Hu; simpl in *.
  - simplify_eq. by rewrite Hu.
  - destruct (Service.revertSingleMigration exec link c x) as [c' [e|]];
      [done|]. by eapply IH.
Qed.

(** In the service a revert that fails ends the run: the error of the
    failed revert is returned, nothing is sent after its rollback, the
    older entries and the pending migrations are not looked at. *)
Lemma Service_failed_revert_aborts order m c d pre u rest c1 c2 err :
  ready link c ->
  Service.getMigrations json_decode Join m = (d, None) ->
  changelog (committed c) = pre ++ u :: rest ->
  Forall (undesired d) pre -> undesired d u ->
  service_reverts exec link (prelude c) pre = (c1, None) ->
  Service.revertSingleMigration exec link c1 u = (c2, Some err) ->
  Service.ExecuteMigration exec link json_decode Join order m c = (c2, Some err)
  /\ committed c2 = committed c1.
Proof.
  intros Hr Hd Hrows Hpre Hu Hrev Hfail. split.
  - rewrite (Service_run _ _ _ _ _ _ _ d), check_loop_phases by done.
    rewrite Hrows. destruct (lead_app d pre (u :: rest) Hpre) as [-> _].
    simpl. rewrite Hu.
    by rewrite (service_reverts_stops pre u (lead d rest) _ c1 c2 err).
  - pose proof (revertSingleMigration_spec exec link c1 u) as H.
    rewrite Hfail in H. by destruct H.
Qed.
End Failure.

(** ** A revert that fails *)

(** C3 (the code departs from the claim).  With nothing desired and a
    changelog whose newest entry [T2] cannot be reverted,
    [ExecuteMigration] of migrate.go drops the error of [revertScript],
    goes on to the older entry [T], reverts it and returns nil: [T2] is
    still recorded, under it [T] is gone.  [checkExistingChangelogs] of the
    service returns the error of the failed revert at once and sends
    nothing after the rollback, as it does on every input
    ([Service_failed_revert_aborts]). *)
Theorem legacy_walk_ignores_failed_revert :
  Legacy.ExecuteMigration Demo.exec Demo.online Demo.range Demo.stale []
    = (mkConn (mkDB [row_of Demo.T2] [])
              [SCreateTable; SSelect;
               SBegin; SDelete "T2"; SScript "DROP TABLE t2";
               SBegin; SDelete "T"; SScript "DROP TABLE t"; SCommit],
       Legacy.Done) /\
  Service.ExecuteMigration Demo.exec Demo.online Demo.json_decode Demo.Join
      Demo.range (Demo.service []) Demo.stale
    = (mkConn (committed Demo.stale)
              [SCreateTable; SSelect;
               SBegin; SScript "DROP TABLE t2"; SRollback],
       Some (Wrap "failed to execute revert script"
                  (Driver (SScript "DROP TABLE t2")))).
Proof. by vm_compute. Qed.

(** C1 (as stated, refuted).  [T] then [T2] are recorded, only [T] is
    desired and its recorded checksum is not the desired one: both versions
    revert [T2], the undesired entry above the drifted one, before they
    fail with the checksum mismatch. *)
Lemma drift_reverts_newer_entries :
  let e := mkMigration "T" EmptyString "DROP TABLE t" "old" in
  e ∈ changelog (committed Demo.drifted_below) /\
  drifted (Legacy.convertMigrationToMap [Demo.ST]) e /\
  (let r := Legacy.ExecuteMigration Demo.exec Demo.online Demo.range
              Demo.drifted_below [Demo.ST] in
   r.2 = Legacy.Failed (New "checksum mismatch") /\
   deletes (log r.1) = ["T2"] /\ committed r.1 = mkDB [e] ["t"]) /\
  (let r := Service.ExecuteMigration Demo.exec Demo.online Demo.json_decode
              Demo.Join Demo.range (Demo.service ["T"]) Demo.drifted_below in
   r.2 = Some (Service.checksum_mismatch e Demo.ST) /\
   deletes (log r.1) = ["T2"] /\ committed r.1 = mkDB [e] ["t"]).
Proof.
  split_and!; [by apply list_elem_of_further, list_elem_of_here| |by vm_compute..].
  exists Demo.ST. split; [by vm_compute|]. by vm_compute.
Qed.

(** C1 (amended).  On a changelog with distinct ids: if any kept entry
    has a recorded checksum differing from the desired one, the run fails,
    applies no migration and reverts no entry from the newest kept one
    down; only undesired entries newer than every kept entry may have been
    reverted before the failure.  When the first two statements of the run
    are answered, every kept entry above the drifted one is verified and no
    undesired entry lies between them, the run is the reverts of those
    newer undesired entries followed by the checksum mismatch (in
    migrate.go unless a [BeginTx] failed, which panics; in the service
    unless one of these reverts failed, whose error is returned). *)
Theorem drift_fails_the_run {Schema : Type}
    (exec : string -> Schema -> option Schema) (link : nat -> bool)
    (json_decode : string -> option (list string))
    (Join : string -> string -> string)
    (order : map_order) (c : Conn Schema) :
  NoDup (Id <$> changelog (committed c)) ->
  let rows := changelog (committed c) in
  (forall migrations,
     let d := Legacy.convertMigrationToMap migrations in
     let r := Legacy.ExecuteMigration exec link order c migrations in
     (forall e, e ∈ rows -> drifted d e ->
        r.2 <> Legacy.Done /\ reverted_lead_only d c r.1) /\
     (forall pre mid e rest,
        ready link c ->
        rows = pre ++ mid ++ e :: rest ->
        Forall (undesired d) pre -> Forall (verified d) mid -> drifted d e ->
        r = match legacy_reverts exec link (prelude c) pre with
            | (c', Legacy.Panicked) => (c', Legacy.Panicked)
            | (c', _) => (c', Legacy.Failed (New "checksum mismatch"))
            end)) /\
  (forall m d,
     Service.getMigrations json_decode Join m = (d, None) ->
     let r := Service.ExecuteMigration exec link json_decode Join order m c in
     (forall e, e ∈ rows -> drifted d e ->
        r.2 <> None /\ reverted_lead_only d c r.1) /\
     (forall pre mid e rest fm,
        ready link c ->
        rows = pre ++ mid ++ e :: rest ->
        Forall (undesired d) pre -> Forall (verified d) mid ->
        d !! Id e = Some fm -> Checksum e <> Checksum fm ->
        r = match service_reverts exec link (prelude c) pre with
            | (c', Some err) => (c', Some err)
            | (c', None) => (c', Some (Service.checksum_mismatch e fm))
            end)).
Proof.
  intros Hnd rows. split.
  - intros migrations d r. split.
    + intros e Hin He. subst r.
      destruct (decide (ready link c)) as [Hr|Hr].
      2:{ destruct (Legacy_not_ready exec link order c migrations Hr)
            as (err & l & -> & Hi & Hdl & Hs).
          split; [done | by apply untouched_lead_only]. }
      assert (legacy_verdict d (below d rows) <> Legacy.Done) as Hv.
      { apply legacy_verdict_drifted with e; [|done].
        apply kept_in_below; eauto using drifted_kept. }
      rewrite Legacy_failed_run by done. fold d rows.
      pose proof (legacy_reverts_upper exec link c d Hnd) as Hup. fold rows in Hup.
      destruct (legacy_reverts exec link (prelude c) (lead d rows)) as [c' []];
        simpl in *; done.
    + intros pre mid e rest Hr Hrows Hpre Hmid He.
      destruct (lead_split d pre (mid ++ e :: rest) Hpre) as [Hlead Hbelow].
      { right. destruct Hmid as [|k mid Hk _]; simpl; eauto 6 using
          drifted_kept, verified_kept. }
      assert (legacy_verdict d (below d rows)
              = Legacy.Failed (New "checksum mismatch")) as Hv.
      { rewrite Hrows, Hbelow. by apply legacy_verdict_mismatch. }
      subst r. rewrite Legacy_failed_run by (fold d rows; by rewrite ?Hv).
      fold d rows. rewrite Hv. rewrite Hrows at 1. rewrite Hlead.
      by destruct (legacy_reverts exec link (prelude c) pre) as [c' []].
  - intros m d Hd r. split.
    + intros e Hin He. subst r.
      destruct (decide (ready link c)) as [Hr|Hr].
      2:{ destruct (Service_not_ready exec link json_decode Join order m c d
                      Hr Hd) as (err & l & -> & Hi & Hdl & Hs).
          split; [done | by apply untouched_lead_only]. }
      assert (service_verdict d (below d rows) <> None) as Hv.
      { apply service_verdict_drifted with e; [|done].
        apply kept_in_below; eauto using drifted_kept. }
      rewrite (Service_failed_run _ _ _ _ _ _ _ d) by done. fold rows.
      pose proof (service_reverts_upper exec link c d Hnd) as Hup. fold rows in Hup.
      destruct (service_reverts exec link (prelude c) (lead d rows)) as [c' []];
        simpl in *; done.
    + intros pre mid e rest fm Hr Hrows Hpre Hmid Hfm Hne.
      destruct (lead_split d pre (mid ++ e :: rest) Hpre) as [Hlead Hbelow].
      { right. destruct Hmid as [|k mid Hk _]; simpl; eauto 6 using
          verified_kept. exists e, rest. split; [done|]. by exists fm. }
      assert (service_verdict d (below d rows)
              = Some (Service.checksum_mismatch e fm)) as Hv.
      { rewrite Hrows, Hbelow. by apply service_verdict_mismatch. }
      subst r. rewrite (Service_failed_run _ _ _ _ _ _ _ d)
        by (fold rows; by rewrite ?Hv).
      fold rows. rewrite Hv. rewrite Hrows at 1. by rewrite Hlead.
Qed.

Lemma drift_fails_the_run_witness :
  let e := mkMigration "T" EmptyString "DROP TABLE t" "old" in
  (let d := Legacy.convertMigrationToMap [Demo.ST] in
   let r := Legacy.ExecuteMigration Demo.exec Demo.online Demo.range
              Demo.drifted_below [Demo.ST] in
   (r.2 <> Legacy.Done /\ reverted_lead_only d Demo.drifted_below r.1) /\
   r = match legacy_reverts Demo.exec Demo.online (prelude Demo.drifted_below)
               [row_of Demo.ST2] with
       | (c', Legacy.Panicked) => (c', Legacy.Panicked)
       | (c', _) => (c', Legacy.Failed (New "checksum mismatch"))
       end) /\
  (let m := Demo.service ["T"] in
   let d := (Service.getMigrations Demo.json_decode Demo.Join m).1 in
   let r := Service.ExecuteMigration Demo.exec Demo.online Demo.json_decode
              Demo.Join Demo.range m Demo.drifted_below in
   (r.2 <> None /\ reverted_lead_only d Demo.drifted_below r.1) /\
   r = match service_reverts Demo.exec Demo.online (prelude Demo.drifted_below)
               [row_of Demo.ST2] with
       | (c', Some err) => (c', Some err)
       | (c', None) => (c', Some (Service.checksum_mismatch e Demo.ST))
       end).
Proof.
  intros e.
  assert (Hnd : NoDup (Id <$> changelog (committed Demo.drifted_below))).
  { apply (bool_decide_unpack _). vm_compute. exact I. }
  destruct (drift_fails_the_run Demo.exec Demo.online Demo.json_decode
              Demo.Join Demo.range Demo.drifted_below Hnd) as [HL HS].
  split.
  - destruct (HL [Demo.ST]) as [HG HE]. split.
    + apply (HG e); [by apply list_elem_of_further, list_elem_of_here|].
      exists Demo.ST. split; by vm_compute.
    + apply (HE [row_of Demo.ST2] [] e []); [done|done| |constructor|].
      * repeat constructor; by vm_compute.
      * exists Demo.ST. split; by vm_compute.
  - destruct (HS (Demo.service ["T"])
                 (Service.getMigrations Demo.json_decode Demo.Join
                    (Demo.service ["T"])).1) as [HG HE]; [by vm_compute|].
    split.
    + apply (HG e); [by apply list_elem_of_further, list_elem_of_here|].
      exists Demo.ST. split; by vm_compute.
    + apply (HE [row_of Demo.ST2] [] e [] Demo.ST);
        [done|done| |constructor| |].
      * repeat constructor; by vm_compute.
      * by vm_compute.
      * by vm_compute.
Defined.

(** C2 (as stated, refuted).  [T0], [T] and [T2] are recorded in this
    order and only [T] is desired: the undesired [T0] lies under the kept
    [T].  Both versions revert [T2], the undesired entry above [T], before
    they fail; the changelog is not left as it was. *)
Lemma stranded_entry_reverts_newer_entries :
  (let r := Legacy.ExecuteMigration Demo.exec Demo.online Demo.range
              Demo.three_applied [Demo.ST] in
   r.2 = Legacy.Failed (New "not revertedable migration found") /\
   deletes (log r.1) = ["T2"] /\
   committed r.1 = mkDB [row_of Demo.ST; row_of Demo.T0] ["t"; "t0"]) /\
  (let r := Service.ExecuteMigration Demo.exec Demo.online Demo.json_decode
              Demo.Join Demo.range (Demo.service ["T"]) Demo.three_applied in
   r.2 = Some (New "not revertable migration found") /\
   deletes (log r.1) = ["T2"] /\
   committed r.1 = mkDB [row_of Demo.ST; row_of Demo.T0] ["t"; "t0"]).
Proof. by vm_compute. Qed.

(** C2 (amended).  On a changelog with distinct ids: if an undesired
    entry is older than a kept one, the run fails, applies no migration and
    reverts no entry from the newest kept one down; only undesired entries
    newer than every kept entry may have been reverted before the failure.
    When the first two statements of the run are answered and every kept
    entry above the first such undesired entry is verified, the run is the
    reverts of those newer undesired entries followed by the
    non-revertible-order error (in migrate.go unless a [BeginTx] failed,
    which panics; in the service unless one of these reverts failed, whose
    error is returned). *)
Theorem stranded_entry_fails_the_run {Schema : Type}
    (exec : string -> Schema -> option Schema) (link : nat -> bool)
    (json_decode : string -> option (list string))
    (Join : string -> string -> string)
    (order : map_order) (c : Conn Schema) :
  NoDup (Id <$> changelog (committed c)) ->
  let rows := changelog (committed c) in
  (forall migrations,
     let d := Legacy.convertMigrationToMap migrations in
     let r := Legacy.ExecuteMigration exec link order c migrations in
     (forall l1 k l2 u l3,
        rows = l1 ++ k :: l2 ++ u :: l3 -> kept d k -> undesired d u ->
        r.2 <> Legacy.Done /\ reverted_lead_only d c r.1) /\
     (forall pre k mid u rest,
        ready link c ->
        rows = pre ++ k :: mid ++ u :: rest ->
        Forall (undesired d) pre -> Forall (verified d) (k :: mid) ->
        undesired d u ->
        r = match legacy_reverts exec link (prelude c) pre with
            | (c', Legacy.Panicked) => (c', Legacy.Panicked)
            | (c', _) =>
                (c', Legacy.Failed (New "not revertedable migration found"))
            end)) /\
  (forall m d,
     Service.getMigrations json_decode Join m = (d, None) ->
     let r := Service.ExecuteMigration exec link json_decode Join order m c in
     (forall l1 k l2 u l3,
        rows = l1 ++ k :: l2 ++ u :: l3 -> kept d k -> undesired d u ->
        r.2 <> None /\ reverted_lead_only d c r.1) /\
     (forall pre k mid u rest,
        ready link c ->
        rows = pre ++ k :: mid ++ u :: rest ->
        Forall (undesired d) pre -> Forall (verified d) (k :: mid) ->
        undesired d u ->
        r = match service_reverts exec link (prelude c) pre with
            | (c', Some err) => (c', Some err)
            | (c', None) => (c', Some (New "not revertable migration found"))
            end)).
Proof.
  intros Hnd rows.
  assert (Hbelow : forall d l1 k l2 u l3,
            rows = l1 ++ k :: l2 ++ u :: l3 -> kept d k -> u ∈ below d rows).
  { intros d l1 k l2 u l3 -> Hk.
    destruct (below_suffix d l1 k (l2 ++ u :: l3) Hk) as [l1' ->].
    rewrite !elem_of_app, !elem_of_cons, elem_of_app, elem_of_cons. tauto. }
  split.
  - intros migrations d r. split.
    + intros l1 k l2 u l3 Hrows Hk Hu. subst r.
      destruct (decide (ready link c)) as [Hr|Hr].
      2:{ destruct (Legacy_not_ready exec link order c migrations Hr)
            as (err & l & -> & Hi & Hdl & Hs).
          split; [done | by apply untouched_lead_only]. }
      assert (legacy_verdict d (below d rows) <> Legacy.Done) as Hv.
      { apply legacy_verdict_undesired with u; eauto. }
      rewrite Legacy_failed_run by done. fold d rows.
      pose proof (legacy_reverts_upper exec link c d Hnd) as Hup. fold rows in Hup.
      destruct (legacy_reverts exec link (prelude c) (lead d rows)) as [c' []];
        simpl in *; done.
    + intros pre k mid u rest Hr Hrows Hpre Hmid Hu.
      destruct (lead_split d pre (k :: mid ++ u :: rest) Hpre) as [Hlead Hb].
      { right. apply Forall_cons in Hmid as [Hk _].
        eauto using verified_kept. }
      assert (legacy_verdict d (below d rows)
              = Legacy.Failed (New "not revertedable migration found")) as Hv.
      { rewrite Hrows, Hb.
        by apply (legacy_verdict_stranded d (k :: mid)). }
      subst r. rewrite Legacy_failed_run by (fold d rows; by rewrite ?Hv).
      fold d rows. rewrite Hv. rewrite Hrows at 1. rewrite Hlead.
      by destruct (legacy_reverts exec link (prelude c) pre) as [c' []].
  - intros m d Hd r. split.
    + intros l1 k l2 u l3 Hrows Hk Hu. subst r.
      destruct (decide (ready link c)) as [Hr|Hr].
      2:{ destruct (Service_not_ready exec link json_decode Join order m c d
                      Hr Hd) as (err & l & -> & Hi & Hdl & Hs).
          split; [done | by apply untouched_lead_only]. }
      assert (service_verdict d (below d rows) <> None) as Hv.
      { apply service_verdict_undesired with u; eauto. }
      rewrite (Service_failed_run _ _ _ _ _ _ _ d) by done. fold rows.
      pose proof (service_reverts_upper exec link c d Hnd) as Hup. fold rows in Hup.
      destruct (service_reverts exec link (prelude c) (lead d rows)) as [c' []];
        simpl in *; done.
    + intros pre k mid u rest Hr Hrows Hpre Hmid Hu.
      destruct (lead_split d pre (k :: mid ++ u :: rest) Hpre) as [Hlead Hb].
      { right. apply Forall_cons in Hmid as [Hk _].
        eauto using verified_kept. }
      assert (service_verdict d (below d rows)
              = Some (New "not revertable migration found")) as Hv.
      { rewrite Hrows, Hb.
        by apply (service_verdict_stranded d (k :: mid)). }
      subst r. rewrite (Service_failed_run _ _ _ _ _ _ _ d)
        by (fold rows; by rewrite ?Hv).
      fold rows. rewrite Hv. rewrite Hrows at 1. by rewrite Hlead.
Qed.

Lemma stranded_entry_fails_the_run_witness :
  (let d := Legacy.convertMigrationToMap [Demo.ST] in
   let r := Legacy.ExecuteMigration Demo.exec Demo.online Demo.range
              Demo.three_applied [Demo.ST] in
   (r.2 <> Legacy.Done /\ reverted_lead_only d Demo.three_applied r.1) /\
   r = match legacy_reverts Demo.exec Demo.online (prelude Demo.three_applied)
               [row_of Demo.ST2] with
       | (c', Legacy.Panicked) => (c', Legacy.Panicked)
       | (c', _) =>
           (c', Legacy.Failed (New "not revertedable migration found"))
       end) /\
  (let m := Demo.service ["T"] in
   let d := (Service.getMigrations Demo.json_decode Demo.Join m).1 in
   let r := Service.ExecuteMigration Demo.exec Demo.online Demo.json_decode
              Demo.Join Demo.range m Demo.three_applied in
   (r.2 <> None /\ reverted_lead_only d Demo.three_applied r.1) /\
   r = match service_reverts Demo.exec Demo.online (prelude Demo.three_applied)
               [row_of Demo.ST2] with
       | (c', Some err) => (c', Some err)
       | (c', None) => (c', Some (New "not revertable migration found"))
       end).
Proof.
  assert (Hnd : NoDup (Id <$> changelog (committed Demo.three_applied))).
  { apply (bool_decide_unpack _). vm_compute. exact I. }
  destruct (stranded_entry_fails_the_run Demo.exec Demo.online
              Demo.json_decode Demo.Join Demo.range Demo.three_applied Hnd)
    as [HL HS].
  split.
  - destruct (HL [Demo.ST]) as [HG HE]. split.
    + apply (HG [row_of Demo.ST2] (row_of Demo.ST) [] (row_of Demo.T0) []);
        [done| |by vm_compute].
      exists Demo.ST. by vm_compute.
    + apply (HE [row_of Demo.ST2] (row_of Demo.ST) [] (row_of Demo.T0) []);
        [done|done| | |by vm_compute].
      * repeat constructor; by vm_compute.
      * repeat constructor; exists Demo.ST; split; by vm_compute.
  - destruct (HS (Demo.service ["T"])
                 (Service.getMigrations Demo.json_decode Demo.Join
                    (Demo.service ["T"])).1) as [HG HE]; [by vm_compute|].
    split.
    + apply (HG [row_of Demo.ST2] (row_of Demo.ST) [] (row_of Demo.T0) []);
        [done| |by vm_compute].
      exists Demo.ST. by vm_compute.
    + apply (HE [row_of Demo.ST2] (row_of Demo.ST) [] (row_of Demo.T0) []);
        [done|done| | |by vm_compute].
      * repeat constructor; by vm_compute.
      * repeat constructor; exists Demo.ST; split; by vm_compute.
Defined.

(** ** Duplicate ids in the desired set *)
Section Duplicates.
Context {Schema : Type}.
Variable exec : string -> Schema -> option Schema.
Variable link : nat -> bool.
Variable json_decode : string -> option (list string).
Variable Join : string -> string -> string.

(** An earlier migration with the id of a later one leaves no trace in
    the map. *)
Lemma convert_drops_earlier l1 m1 l2 m2 l3 :
  Id m1 = Id m2 ->
  Legacy.convertMigrationToMap (l1 ++ m1 :: l2 ++ m2 :: l3) =
  Legacy.convertMigrationToMap (l1 ++ l2 ++ m2 :: l3).
Proof.
  intros Heq. apply map_eq. intros id.
  rewrite !convertMigrationToMap_lookup.
  rewrite !filter_app, !filter_cons, !filter_app, !filter_cons.
  destruct (decide (Id m1 = id)) as [H1|H1]; [|done].
  rewrite decide_True by congruence.
  rewrite !last_app, last_cons, last_app, !last_cons.
  by destruct (last (filter _ l3)).
Qed.

(** A second occurrence of an id in the configuration stores again what
    the first one stored. *)
Lemma extract_all_absorbs m v l2 : forall l1 (acc : gmap string Migration),
  v ∈ l1 \/
  (exists mig, Service.extractMigration Join m v = inl mig /\
               acc !! v = Some mig) ->
  Service.extract_all Join m (l1 ++ v :: l2) acc =
  Service.extract_all Join m (l1 ++ l2) acc.
Proof.
  induction l1 as [|x l1 IH]; intros acc H; simpl.
  - destruct H as [H|(mig & Hv & Hacc)]; [by apply elem_of_nil in H|].
    rewrite Hv. by rewrite insert_id.
  - destruct (Service.extractMigration Join m x) as [mx|e] eqn:Hx; [|done].
    apply IH. destruct (decide (x = v)) as [->|Hne].
    + right. exists mx. by rewrite lookup_insert_eq.
    + destruct H as [H|(mig & Hv & Hacc)].
      * left. apply elem_of_cons in H as [?|?]; [congruence|done].
      * right. exists mig. by rewrite lookup_insert_ne.
Qed.
End Duplicates.

(** C9.  In migrate.go the map holds, under an id, the last migration of
    the slice that carries it; an earlier migration with the same id is
    replaced without an error, the run being the run on the slice without
    it.  In the service a repeated id of the configuration stores again
    the migration extracted for it, the result of the loop being that of
    the configuration without the repetition.  In both versions the
    migrations a range over the map yields have distinct ids: at most one
    per id is considered or executed. *)
Theorem duplicate_ids_collapse {Schema : Type}
    (exec : string -> Schema -> option Schema) (link : nat -> bool)
    (json_decode : string -> option (list string))
    (Join : string -> string -> string)
    (order : map_order) (c : Conn Schema) :
  valid_order order ->
  (forall migrations id,
     Legacy.convertMigrationToMap migrations !! id =
     last (filter (fun mig => Id mig = id) migrations)) /\
  (forall l1 m1 l2 m2 l3,
     Id m1 = Id m2 ->
     Legacy.convertMigrationToMap (l1 ++ m1 :: l2 ++ m2 :: l3) =
       Legacy.convertMigrationToMap (l1 ++ l2 ++ m2 :: l3) /\
     Legacy.ExecuteMigration exec link order c (l1 ++ m1 :: l2 ++ m2 :: l3) =
       Legacy.ExecuteMigration exec link order c (l1 ++ l2 ++ m2 :: l3)) /\
  (forall migrations,
     NoDup (Id <$> order (Legacy.convertMigrationToMap migrations))) /\
  (forall m l1 v l2,
     v ∈ l1 ->
     Service.extract_all Join m (l1 ++ v :: l2) ∅ =
       Service.extract_all Join m (l1 ++ l2) ∅) /\
  (forall m d,
     Service.getMigrations json_decode Join m = (d, None) ->
     NoDup (Id <$> order d)).
Proof.
  intros Hv. split_and!.
  - apply convertMigrationToMap_lookup.
  - intros l1 m1 l2 m2 l3 Heq.
    pose proof (convert_drops_earlier l1 m1 l2 m2 l3 Heq) as Hmap.
    split; [done|]. unfold Legacy.ExecuteMigration. by rewrite Hmap.
  - intros migrations. apply order_NoDup; [done|].
    apply convertMigrationToMap_keyed.
  - intros m l1 v l2 Hin. apply extract_all_absorbs. by left.
  - intros m d Hd. apply order_NoDup; [done|].
    by eapply getMigrations_keyed.
Qed.

Lemma duplicate_ids_collapse_witness :
  let T' := mkMigration "T" "CREATE TABLE t1" "DROP TABLE t1" "c3" in
  (Legacy.convertMigrationToMap [Demo.T; Demo.T2; T'] =
     Legacy.convertMigrationToMap [Demo.T2; T'] /\
   Legacy.ExecuteMigration Demo.exec Demo.online Demo.range Demo.fresh
       [Demo.T; Demo.T2; T'] =
     Legacy.ExecuteMigration Demo.exec Demo.online Demo.range Demo.fresh
       [Demo.T2; T']) /\
  Service.extract_all Demo.Join (Demo.service []) ["T"; "T2"; "T"] ∅ =
    Service.extract_all Demo.Join (Demo.service []) ["T"; "T2"] ∅.
Proof.
  intros T'.
  destruct (duplicate_ids_collapse Demo.exec Demo.online Demo.json_decode
              Demo.Join Demo.range Demo.fresh Demo_range_valid)
    as (_ & HL & _ & HS & _).
  split.
  - apply (HL [] Demo.T [Demo.T2] T' []). done.
  - apply (HS (Demo.service []) ["T"; "T2"] "T" []).
    apply list_elem_of_here.
Defined.

(** ** A second run *)
Section Idempotence.
Context {Schema : Type}.
Variable exec : string -> Schema -> option Schema.
Variable link : nat -> bool.
Variable json_decode : string -> option (list string).
Variable Join : string -> string -> string.
Implicit Types (c : Conn Schema) (d : gmap string Migration)
               (rows : list Migration) (order : map_order).

Lemma service_verdict_None d rows :
  service_verdict d rows = None -> Forall (verified d) rows.
Proof.
  induction rows as [|r rows IH]; simpl; [constructor|].
  destruct (d !! Id r) as [m|] eqn:E; [|done].
  destruct (String.eqb _ _) eqn:Heq; [|done].
  intros H. constructor; [|by apply IH].
  exists m. split; [done|]. by apply String.eqb_eq.
Qed.

Lemma check_loop_verified d rows nr c :
  Forall (verified d) rows ->
  Service.check_loop exec link c d nr rows = (c, None).
Proof.
  intros H. revert nr. induction H as [|r rows (m & Hm & Hc) _ IH];
    intros nr; simpl; [done|].
  by rewrite Hm, Hc, String.eqb_refl.
Qed.

Lemma execute_pending_skipped existing ranged c :
  (forall mig, mig ∈ ranged -> Id mig ∈ Id <$> existing) ->
  Service.execute_pending exec link c existing ranged = (c, None).
Proof.
  induction ranged as [|mig ranged IH]; intros H; simpl; [done|].
  rewrite (proj2 (has_id_true _ _)) by (apply H, list_elem_of_here).
  apply IH. intros mig' Hin. by apply H, list_elem_of_further.
Qed.

(** After a run of the service that returned nil, every recorded entry is
    verified and every desired id is recorded. *)
Lemma Service_converged order m c d c1 :
  valid_order order ->
  Service.getMigrations json_decode Join m = (d, None) ->
  Service.ExecuteMigration exec link json_decode Join order m c = (c1, None) ->
  Forall (verified d) (changelog (committed c1)) /\
  (forall id, is_Some (d !! id) -> id ∈ Id <$> changelog (committed c1)).
Proof.
  intros Hv Hd Hrun.
  pose proof (getMigrations_keyed _ _ _ _ Hd) as Hk.
  destruct (decide (ready link c)) as [Hrdy|Hn].
  2:{ destruct (Service_not_ready exec link json_decode Join order m c d Hn Hd)
        as (e & l & Heq & _). congruence. }
  rewrite (Service_run _ _ _ _ _ _ _ d), check_loop_phases in Hrun by done.
  set (rows := changelog (committed c)) in *.
  pose proof (service_reverts_spec exec link (lead d rows) (prelude c)) as Hs.
  destruct (service_reverts exec link (prelude c) (lead d rows)) as [c' [e|]];
    [done|].
  destruct Hs as (done & rest & l & Hsplit & Hrest & Hch & _).
  rewrite (Hrest eq_refl), app_nil_r in Hsplit. subst done. clear Hrest.
  destruct (service_verdict d (below d rows)) as [e|] eqn:Hver; [done|].
  apply service_verdict_None in Hver.
  pose proof (execute_pending_spec exec link rows (order d) c') as Ha.
  rewrite Hrun in Ha.
  destruct Ha as (done & l1 & _ & Hall & Hch1 & _).
  destruct (Hall eq_refl) as [-> _]. clear Hall.
  rewrite Hch1, Hch. simpl. fold rows.
  assert (Hkept : forall x, x ∈ rows -> kept d x ->
            x ∈ filter (fun r => Id r ∉ Id <$> lead d rows) rows).
  { intros x Hx [mx Hmx]. apply list_elem_of_filter. split; [|done].
    intros Hin. apply (undesired_not_in d (lead d rows)) in Hin;
      [congruence | apply lead_undesired]. }
  split.
  - apply Forall_app. split.
    + apply Forall_forall. intros x Hx%list_elem_of_In%in_rev%list_elem_of_In.
      apply list_elem_of_fmap in Hx as (mig & -> & Hmig).
      apply list_elem_of_filter in Hmig as [_ Hmig].
      apply (order_elem order d mig Hv Hk) in Hmig. by exists mig.
    + apply Forall_forall. intros x [Hx Hin]%list_elem_of_filter.
      rewrite <- (lead_below d rows) in Hin.
      apply elem_of_app in Hin as [Hin|Hin].
      * exfalso. apply Hx. by apply list_elem_of_fmap_2.
      * by apply (proj1 (Forall_forall _ _) Hver).
  - intros id [mig Hmig]. rewrite fmap_app. apply elem_of_app.
    destruct (decide (id ∈ Id <$> rows)) as [Hin|Hin].
    + right. apply list_elem_of_fmap in Hin as (x & -> & Hx).
      apply list_elem_of_fmap_2, Hkept; [done|]. by exists mig.
    + left. pose proof (Hk _ _ Hmig) as Hid. subst id.
      apply list_elem_of_fmap. exists (row_of mig). split; [done|].
      apply list_elem_of_In, in_rev. rewrite rev_involutive.
      apply list_elem_of_In, list_elem_of_fmap_2, list_elem_of_filter.
      split; [done|]. by apply order_elem.
Qed.

(** The service is idempotent: after a run that returned nil, a run with
    the same desired set, whatever the order of its range, changes nothing
    and sends no script, no INSERT and no DELETE; when the connection
    answers, it sends its first two statements and returns nil. *)
Lemma Service_idempotent order order' m c d :
  valid_order order -> valid_order order' ->
  Service.getMigrations json_decode Join m = (d, None) ->
  let r1 := Service.ExecuteMigration exec link json_decode Join order m c in
  let r2 := Service.ExecuteMigration exec link json_decode Join order' m r1.1 in
  r1.2 = None ->
  committed r2.1 = committed r1.1 /\
  (exists l, log r2.1 = log r1.1 ++ l /\
             scripts l = [] /\ inserts l = [] /\ deletes l = []) /\
  (ready link r1.1 -> r2 = (prelude r1.1, None)).
Proof.
  intros Hv Hv' Hd r1 r2 Hr1. subst r2.
  destruct r1 as [c1 res1] eqn:Hrun. simpl in *. subst res1.
  pose proof (getMigrations_keyed _ _ _ _ Hd) as Hk.
  destruct (Service_converged order m c d c1 Hv Hd Hrun) as [Hver Hall].
  assert (Hready : ready link c1 ->
            Service.ExecuteMigration exec link json_decode Join order' m c1
            = (prelude c1, None)).
  { intros Hrdy. rewrite (Service_run _ _ _ _ _ _ _ d) by done.
    rewrite check_loop_verified by done.
    apply execute_pending_skipped. intros mig Hmig.
    apply Hall. exists mig. by apply (order_elem order' d mig Hv' Hk). }
  split_and!; [| |done].
  - destruct (decide (ready link c1)) as [Hrdy|Hn]; [by rewrite Hready|].
    by destruct (Service_not_ready exec link json_decode Join order' m c1 d Hn Hd)
      as (e & l & -> & _).
  - destruct (decide (ready link c1)) as [Hrdy|Hn].
    + rewrite Hready by done. exists [SCreateTable; SSelect].
      simpl. by rewrite <- app_assoc.
    + destruct (Service_not_ready exec link json_decode Join order' m c1 d Hn Hd)
        as (e & l & -> & Hi & Hdl & Hs). by exists l.
Qed.

Lemma ids_of_rows (P : list Migration) :
  Id <$> rev (row_of <$> P) = rev (Id <$> P).
Proof.
  induction P as [|mig P IH]; [done|]. rewrite !fmap_cons.
  change (rev (row_of mig :: (row_of <$> P)))
    with (rev (row_of <$> P) ++ [row_of mig]).
  by rewrite fmap_app, IH.
Qed.

Lemma legacy_verdict_Done d rows :
  legacy_verdict d rows = Legacy.Done -> Forall (verified d) rows.
Proof.
  induction rows as [|r rows IH]; simpl; [constructor|].
  destruct (d !! Id r) as [m|] eqn:E; [|done].
  destruct (String.eqb _ _) eqn:Heq; [|done].
  intros H. constructor; [|by apply IH].
  exists m. split; [done|]. by apply String.eqb_eq.
Qed.

Lemma lead_all_kept d rows :
  Forall (verified d) rows -> lead d rows = [] /\ below d rows = rows.
Proof.
  intros [|r rows' (mr & Hr & _) _]; simpl; [done|]. by rewrite Hr.
Qed.

(** After a run of migrate.go that returned nil, the changelog is the rows
    of the migrations applied, the entries of the lead whose revert did not
    go through, and the verified entries from the newest kept one down. *)
Lemma Legacy_converged order c migrations c1 :
  NoDup (Id <$> changelog (committed c)) ->
  let d := Legacy.convertMigrationToMap migrations in
  let rows := changelog (committed c) in
  Legacy.ExecuteMigration exec link order c migrations = (c1, Legacy.Done) ->
  Forall (verified d) (below d rows) /\
  exists pre',
    pre' `sublist_of` lead d rows /\
    changelog (committed c1) =
      rev (row_of <$> order (residual d rows)) ++ pre' ++ below d rows.
Proof.
  intros Hnd d rows Hrun.
  destruct (decide (ready link c)) as [Hrdy|Hn].
  2:{ destruct (Legacy_not_ready exec link order c migrations Hn)
        as (e & l & Heq & _). congruence. }
  rewrite Legacy_run in Hrun by done. fold d rows in Hrun.
  pose proof (walk_phases exec link d rows (prelude c) Hnd) as Hw.
  pose proof (legacy_reverts_upper exec link c d Hnd) as Hup. fold rows in Hup.
  destruct (legacy_reverts exec link (prelude c) (lead d rows)) as [c' o].
  destruct Hup as (pre' & l & Hsub & Hch & _). simpl in Hch.
  destruct (Legacy.walk exec link (prelude c) d false rows) as [[c3 pend] o3].
  assert (c3 = c' /\ o3 = legacy_verdict d (below d rows) /\
          (legacy_verdict d (below d rows) = Legacy.Done ->
           pend = residual d (below d rows))) as (-> & -> & Hres).
  { destruct o; simpl in Hw; [done| done |simplify_eq]. }
  destruct (legacy_verdict d (below d rows)) eqn:Hver; [|done..].
  rewrite (Hres eq_refl), residual_below in Hrun.
  split; [by apply legacy_verdict_Done|].
  pose proof (apply_pending_spec exec link (order (residual d rows)) c') as Ha.
  rewrite Hrun in Ha. destruct Ha as (done & l1 & _ & Hall & Hch1 & _).
  destruct (Hall eq_refl) as [-> _].
  exists pre'. split; [done|]. by rewrite Hch1, Hch.
Qed.

(** migrate.go is idempotent when the first run left no undesired entry in
    the changelog, that is when every revert of its walk went through. *)
Lemma Legacy_idempotent_when_reverted order order' c migrations :
  valid_order order -> valid_order order' ->
  NoDup (Id <$> changelog (committed c)) ->
  let d := Legacy.convertMigrationToMap migrations in
  let r1 := Legacy.ExecuteMigration exec link order c migrations in
  let r2 := Legacy.ExecuteMigration exec link order' r1.1 migrations in
  r1.2 = Legacy.Done ->
  Forall (kept d) (changelog (committed r1.1)) ->
  ready link r1.1 ->
  r2 = (prelude r1.1, Legacy.Done).
Proof.
  intros Hv Hv' Hnd d r1 r2 Hr1 Hkept Hrdy. subst r2.
  destruct r1 as [c1 res1] eqn:Hrun. simpl in *. subst res1.
  pose proof (convertMigrationToMap_keyed migrations) as Hk. fold d in Hk.
  set (rows := changelog (committed c)) in *.
  destruct (Legacy_converged order c migrations c1 Hnd Hrun)
    as (Hver & pre' & Hsub & Hch). fold d rows in Hver, Hsub, Hch.
  assert (pre' = []) as ->.
  { destruct pre' as [|x pre']; [done|]. exfalso.
    assert (x ∈ lead d rows) as Hx
      by (apply (sublist_subseteq _ _ Hsub), list_elem_of_here).
    apply (proj1 (Forall_forall _ _) (lead_undesired d rows)) in Hx.
    rewrite Hch in Hkept.
    apply Forall_app in Hkept as [_ [[mx Hmx] _]%Forall_cons].
    unfold undesired in Hx. congruence. }
  simpl in Hch.
  set (P := order (residual d rows)) in *.
  assert (HP : forall mig, mig ∈ P <->
                 d !! Id mig = Some mig /\ Id mig ∉ Id <$> rows)
    by (intros mig; by apply residual_elem).
  assert (Hbelow_in : forall k, k ∈ Id <$> below d rows -> k ∈ Id <$> rows).
  { intros k Hin. rewrite <- (lead_below d rows), fmap_app.
    apply elem_of_app. by right. }
  assert (Hver1 : Forall (verified d) (changelog (committed c1))).
  { rewrite Hch. apply Forall_app. split; [|done].
    apply Forall_forall.
    intros x Hx%list_elem_of_In%in_rev%list_elem_of_In.
    apply list_elem_of_fmap in Hx as (mig & -> & Hmig).
    apply HP in Hmig as [Hmig _]. by exists mig. }
  assert (Hnd1 : NoDup (Id <$> changelog (committed c1))).
  { rewrite Hch, fmap_app. apply NoDup_app. split_and!.
    - rewrite ids_of_rows. apply NoDup_ListNoDup, List.NoDup_rev, NoDup_ListNoDup.
      apply order_NoDup; auto using residual_keyed.
    - intros k Hk1 Hk2.
      apply list_elem_of_fmap in Hk1 as (x & -> & Hx).
      apply list_elem_of_In, in_rev, list_elem_of_In in Hx.
      apply list_elem_of_fmap in Hx as (mig & -> & Hmig).
      apply HP in Hmig as [_ Hmig]. by apply Hmig, Hbelow_in.
    - rewrite <- (lead_below d rows), fmap_app in Hnd.
      by apply NoDup_app in Hnd as (_ & _ & ?). }
  assert (Hall : residual d (changelog (committed c1)) = ∅).
  { apply map_eq. intros k. rewrite residual_lookup, lookup_empty.
    case_decide as Hin; [done|].
    destruct (d !! k) as [mig|] eqn:Hmig; [exfalso|done].
    pose proof (Hk _ _ Hmig) as Hid. subst k.
    apply Hin. rewrite Hch, fmap_app. apply elem_of_app.
    destruct (decide (Id mig ∈ Id <$> rows)) as [Hr|Hr].
    - right. apply list_elem_of_fmap in Hr as (x & Heq & Hx).
      rewrite Heq. apply list_elem_of_fmap_2, kept_in_below; [done|].
      exists mig. by rewrite <- Heq.
    - left. apply list_elem_of_fmap. exists (row_of mig). split; [done|].
      apply list_elem_of_In, in_rev. rewrite rev_involutive.
      by apply list_elem_of_In, list_elem_of_fmap_2, HP. }
  rewrite Legacy_run by done. fold d.
  pose proof (walk_phases exec link d _ (prelude c1) Hnd1) as Hw.
  destruct (lead_all_kept d _ Hver1) as [Hlead Hbelow].
  rewrite Hlead, Hbelow in Hw. simpl in Hw.
  destruct (Legacy.walk exec link (prelude c1) d false _) as [[c3 pend] o3].
  simpl in Hw. destruct Hw as (-> & -> & Hres).
  assert (legacy_verdict d (changelog (committed c1)) = Legacy.Done) as Hd.
  { rewrite <- (app_nil_r (changelog (committed c1))).
    by rewrite legacy_verdict_verified. }
  rewrite Hd, (Hres Hd), Hall, (order_empty _ Hv'). done.
Qed.
End Idempotence.

(** C6 (the code departs from the claim).  With nothing desired and the
    one recorded entry [T2] not revertible, a run of [ExecuteMigration] of
    migrate.go returns nil and leaves the database as it was; the next run
    with the same desired set sends the revert script again.  The service
    is idempotent ([Service_idempotent]), and so is migrate.go when no
    revert of the first run failed ([Legacy_idempotent_when_reverted]). *)
Theorem legacy_second_run_executes_script :
  let r1 := Legacy.ExecuteMigration Demo.exec Demo.online Demo.range
              Demo.stale_top [] in
  let r2 := Legacy.ExecuteMigration Demo.exec Demo.online Demo.range r1.1 [] in
  r1.2 = Legacy.Done /\ committed r1.1 = committed Demo.stale_top /\
  r2.2 = Legacy.Done /\
  scripts (drop (length (log r1.1)) (log r2.1)) = ["DROP TABLE t2"].
Proof. by vm_compute. Qed.

(** ** The primary key

    The ids of the changelog are distinct and stay so: INSERT refuses an id
    that is recorded, DELETE removes rows. *)
Section PrimaryKey.
Context {Schema : Type}.
Variable exec : string -> Schema -> option Schema.
Variable link : nat -> bool.
Variable json_decode : string -> option (list string).
Variable Join : string -> string -> string.
Implicit Types (c : Conn Schema) (d : gmap string Migration)
               (rows : list Migration) (order : map_order).

Lemma executeSingleMigration_distinct c m :
  distinct_ids c ->
  distinct_ids (Service.executeSingleMigration exec link c m).1.
Proof.
  unfold distinct_ids. intros Hc.
  pose proof (executeSingleMigration_spec exec link c m) as H.
  destruct (Service.executeSingleMigration exec link c m) as [c' [e|]]; simpl.
  - destruct H as [-> _]. done.
  - destruct H as (sc & _ & Hid & -> & _). simpl.
    apply has_id_false in Hid. by apply NoDup_cons.
Qed.

Lemma executeChangeLog_distinct c m :
  distinct_ids c ->
  distinct_ids (Legacy.executeChangeLog exec link c m).1.
Proof.
  unfold distinct_ids. intros Hc.
  pose proof (executeChangeLog_spec exec link c m) as H.
  destruct (Legacy.executeChangeLog exec link c m) as [c' [|e|]]; simpl;
    [|by destruct H as [-> _]..].
  destruct H as (sc & _ & Hid & -> & _). simpl.
  apply has_id_false in Hid. by apply NoDup_cons.
Qed.

Lemma revertSingleMigration_distinct c m :
  distinct_ids c ->
  distinct_ids (Service.revertSingleMigration exec link c m).1.
Proof.
  unfold distinct_ids. intros Hc.
  pose proof (revertSingleMigration_spec exec link c m) as H.
  destruct (Service.revertSingleMigration exec link c m) as [c' [e|]]; simpl.
  - destruct H as [-> _]. done.
  - destruct H as (sc & _ & -> & _). simpl. by apply filter_NoDup_ids.
Qed.

Lemma revertScript_distinct c m :
  distinct_ids c ->
  distinct_ids (Legacy.revertScript exec link c m).1.
Proof.
  unfold distinct_ids. intros Hc.
  pose proof (revertScript_spec exec link c m) as H.
  destruct (Legacy.revertScript exec link c m) as [c' [|e|]]; simpl;
    [|by destruct H as [-> _]..].
  destruct H as (sc & _ & -> & _). simpl. by apply filter_NoDup_ids.
Qed.

Lemma check_loop_distinct d rows : forall nr c,
  distinct_ids c ->
  distinct_ids (Service.check_loop exec link c d nr rows).1.
Proof.
  induction rows as [|r rows IH]; intros nr c Hc; simpl; [done|].
  destruct (d !! Id r).
  - destruct (String.eqb _ _); [by apply IH | done].
  - destruct nr; [done|].
    pose proof (revertSingleMigration_distinct c r Hc) as H.
    destruct (Service.revertSingleMigration exec link c r) as [c' [e|]];
      [done | by apply IH].
Qed.

Lemma execute_pending_distinct existing ranged : forall c,
  distinct_ids c ->
  distinct_ids (Service.execute_pending exec link c existing ranged).1.
Proof.
  induction ranged as [|m ranged IH]; intros c Hc; simpl; [done|].
  destruct (has_id _ _); [by apply IH|].
  pose proof (executeSingleMigration_distinct c m Hc) as H.
  destruct (Service.executeSingleMigration exec link c m) as [c' [e|]];
    [done | by apply IH].
Qed.

Lemma walk_distinct rows : forall fm nr c,
  distinct_ids c ->
  distinct_ids (Legacy.walk exec link c fm nr rows).1.1.
Proof.
  induction rows as [|r rows IH]; intros fm nr c Hc; simpl; [done|].
  destruct (fm !! Id r).
  - destruct (String.eqb _ _); [by apply IH | done].
  - destruct nr; [done|].
    pose proof (revertScript_distinct c r Hc) as H.
    destruct (Legacy.revertScript exec link c r) as [c' [|e|]];
      [by apply IH | by apply IH | done].
Qed.

Lemma apply_pending_distinct pending : forall c,
  distinct_ids c ->
  distinct_ids (Legacy.apply_pending exec link c pending).1.
Proof.
  induction pending as [|m pending IH]; intros c Hc; simpl; [done|].
  pose proof (executeChangeLog_distinct c m Hc) as H.
  destruct (Legacy.executeChangeLog exec link c m) as [c' [|e|]];
    [by apply IH | done | done].
Qed.

(** A run of either version keeps the ids of the changelog distinct. *)
Lemma Legacy_distinct order c migrations :
  distinct_ids c ->
  distinct_ids (Legacy.ExecuteMigration exec link order c migrations).1.
Proof.
  intros Hc. unfold Legacy.ExecuteMigration, create_table, select_changelog.
  destruct (up link c); [|done].
  destruct (up link (send SCreateTable c)); [|done].
  pose proof (walk_distinct (changelog (committed (send SCreateTable c)))
                (Legacy.convertMigrationToMap migrations) false
                (send SSelect (send SCreateTable c)) Hc) as H.
  destruct (Legacy.walk exec link _ _ _ _) as [[c3 pend] [|e|]]; simpl in *;
    [by apply apply_pending_distinct | done | done].
Qed.

Lemma Service_distinct order m c :
  distinct_ids c ->
  distinct_ids
    (Service.ExecuteMigration exec link json_decode Join order m c).1.
Proof.
  intros Hc. unfold Service.ExecuteMigration, Service.prepareDatabase,
    Service.getExistingMigrations, Service.checkExistingChangelogs,
    create_table, select_changelog.
  destruct (up link c); [|done].
  destruct (Service.getMigrations json_decode Join m) as [d [e|]]; [done|].
  destruct (up link (send SCreateTable c)); [|done].
  pose proof (check_loop_distinct d
                (changelog (committed (send SCreateTable c))) false
                (send SSelect (send SCreateTable c)) Hc) as H.
  destruct (Service.check_loop exec link _ _ _ _) as [c3 [e|]]; simpl in *;
    [done | by apply execute_pending_distinct].
Qed.
End PrimaryKey.

(** ** The scenarios of the specification, on both versions *)

(** A: nothing desired, nothing applied. *)
Example scenario_A :
  Legacy.ExecuteMigration Demo.exec Demo.online Demo.range Demo.fresh []
    = (prelude Demo.fresh, Legacy.Done) /\
  Service.ExecuteMigration Demo.exec Demo.online Demo.json_decode Demo.Join
      Demo.range (Demo.service []) Demo.fresh
    = (prelude Demo.fresh, None).
Proof. by vm_compute. Qed.

(** B: [T] desired, nothing applied: [T] is applied and recorded. *)
Example scenario_B :
  (let r := Legacy.ExecuteMigration Demo.exec Demo.online Demo.range
              Demo.fresh [Demo.T] in
   r.2 = Legacy.Done /\ committed r.1 = mkDB [row_of Demo.T] ["t"]) /\
  (let r := Service.ExecuteMigration Demo.exec Demo.online Demo.json_decode
              Demo.Join Demo.range (Demo.service ["T"]) Demo.fresh in
   r.2 = None /\ committed r.1 = mkDB [row_of Demo.ST] ["t"]).
Proof. by vm_compute. Qed.

(** C: [T] then [T2] applied, [T] desired: [T2] is reverted, [T] stays. *)
Example scenario_C :
  (let r := Legacy.ExecuteMigration Demo.exec Demo.online Demo.range
              Demo.both_applied [Demo.ST] in
   r.2 = Legacy.Done /\ committed r.1 = mkDB [row_of Demo.ST] ["t"]) /\
  (let r := Service.ExecuteMigration Demo.exec Demo.online Demo.json_decode
              Demo.Join Demo.range (Demo.service ["T"]) Demo.both_applied in
   r.2 = None /\ committed r.1 = mkDB [row_of Demo.ST] ["t"]).
Proof. by vm_compute. Qed.

(** D: the one applied entry has drifted: checksum mismatch, the changelog
    is as it was. *)
Example scenario_D :
  let old := mkMigration "T2" EmptyString "DROP TABLE t2" "old" in
  let c := mkConn (mkDB [old] ["t2"]) [] in
  (let r := Legacy.ExecuteMigration Demo.exec Demo.online Demo.range
              c [Demo.ST2] in
   r.2 = Legacy.Failed (New "checksum mismatch") /\
   committed r.1 = committed c) /\
  (let r := Service.ExecuteMigration Demo.exec Demo.online Demo.json_decode
              Demo.Join Demo.range (Demo.service ["T2"]) c in
   r.2 = Some (Service.checksum_mismatch old Demo.ST2) /\
   committed r.1 = committed c).
Proof. by vm_compute. Qed.

(** E: [T] then [T2] applied, only [T2] desired: the undesired [T] lies
    under the kept [T2], the run fails and the changelog is as it was. *)
Example scenario_E :
  (let r := Legacy.ExecuteMigration Demo.exec Demo.online Demo.range
              Demo.both_applied [Demo.ST2] in
   r.2 = Legacy.Failed (New "not revertedable migration found") /\
   committed r.1 = committed Demo.both_applied) /\
  (let r := Service.ExecuteMigration Demo.exec Demo.online Demo.json_decode
              Demo.Join Demo.range (Demo.service ["T2"]) Demo.both_applied in
   r.2 = Some (New "not revertable migration found") /\
   committed r.1 = committed Demo.both_applied).
Proof. by vm_compute. Qed.

(** * Further properties of the code *)

(** ** The loader of migrate.go *)
Section LegacyLoader.
Variable json_decode : string -> option (list string).
Variable fs : FS.

Lemma ReadFile_inl name s :
  Legacy.ReadFile fs name = inl s <-> fs name = Contents s.
Proof.
  unfold Legacy.ReadFile. destruct (fs name); split; intros H; by simplify_eq.
Qed.

Lemma ReadFile_inr name :
  readable fs name = false -> Legacy.ReadFile fs name = inr (FsError name).
Proof. unfold readable, Legacy.ReadFile. by destruct (fs name). Qed.

Lemma legacy_loaded_eq id mig :
  legacy_loaded fs id mig ->
  mig = mkMigration id (Script mig) (RevertScript mig)
                    (string_of_list_ascii (MD5.Sum (Script mig))).
Proof. destruct mig. intros (? & _ & _ & ?). simpl in *. by subst. Qed.

(** The loop of [ReadChangeLogFile] ends without an error exactly when it
    has appended one migration for each id, in the order of the ids. *)
Lemma read_migrations_None ids : forall acc migrations,
  Legacy.read_migrations fs ids acc = (migrations, None) <->
  exists new, migrations = acc ++ new /\ Forall2 (legacy_loaded fs) ids new.
Proof.
  induction ids as [|id ids IH]; intros acc migrations; simpl.
  - split.
    + intros [= <-]. exists []. by rewrite app_nil_r.
    + intros (new & -> & ->%Forall2_nil_inv_l). by rewrite app_nil_r.
  - split.
    + destruct (Legacy.ReadFile fs (id +:+ ".sql")) as [script|e] eqn:Hs;
        [|done].
      destruct (Legacy.ReadFile fs (id +:+ ".revert.sql")) as [rev|e] eqn:Hr;
        [|done].
      intros (new & -> & Hnew)%IH.
      eexists (_ :: new). rewrite <- app_assoc. split; [done|].
      constructor; [|done].
      apply ReadFile_inl in Hs, Hr. by split_and!.
    + intros (new & -> & Hnew).
      apply Forall2_cons_inv_l in Hnew as (mig & new' & Hmig & Hnew' & ->).
      pose proof (legacy_loaded_eq _ _ Hmig) as Heq.
      destruct Hmig as (_ & Hs%ReadFile_inl & Hr%ReadFile_inl & _).
      rewrite Hs, Hr. apply IH. exists new'.
      rewrite <- app_assoc. simpl. by rewrite <- Heq.
Qed.

(** The loop stops at the first id one of whose files cannot be read, the
    script being read before the revert script; it returns the migrations
    of the ids before it. *)
Lemma read_migrations_stops pre : forall acc loaded id rest,
  Forall2 (legacy_loaded fs) pre loaded ->
  readable fs (id +:+ ".sql") && readable fs (id +:+ ".revert.sql") = false ->
  Legacy.read_migrations fs (pre ++ id :: rest) acc =
  (acc ++ loaded,
   Some (FsError (if readable fs (id +:+ ".sql")
                  then id +:+ ".revert.sql" else id +:+ ".sql"))).
Proof.
  induction pre as [|x pre IH]; intros acc loaded id rest Hpre Hbad; simpl.
  - apply Forall2_nil_inv_l in Hpre as ->. rewrite app_nil_r.
    destruct (readable fs (id +:+ ".sql")) eqn:Hs; simpl in Hbad.
    + unfold readable in Hs.
      unfold Legacy.ReadFile at 1.
      destruct (fs (id +:+ ".sql")); [done..|].
      by rewrite ReadFile_inr.
    + by rewrite ReadFile_inr.
  - apply Forall2_cons_inv_l in Hpre as (mig & loaded' & Hmig & Hpre & ->).
    pose proof (legacy_loaded_eq _ _ Hmig) as Heq.
    destruct Hmig as (_ & Hs%ReadFile_inl & Hr%ReadFile_inl & _).
    rewrite Hs, Hr, <- Heq. rewrite (IH _ loaded') by done.
    by rewrite <- app_assoc.
Qed.
End LegacyLoader.

(** X1.  [ReadChangeLogFile] returns no error exactly when the changelog
    file can be read, its text decodes to a list of ids and the two files
    [id.sql] and [id.revert.sql] of every id can be read.  The slice it
    returns then holds one migration for each id of the list, in the order
    of the list and with its repetitions: the id, the texts of the two
    files, and as checksum what [generateHash] gives for the script. *)
Theorem ReadChangeLogFile_loads_every_id
    (json_decode : string -> option (list string)) (fs : FS)
    (fileName : string) (migrations : list Migration) :
  Legacy.ReadChangeLogFile json_decode fs fileName = (migrations, None) <->
  exists buffer ids,
    fs fileName = Contents buffer /\
    json_decode buffer = Some ids /\
    Forall2 (legacy_loaded fs) ids migrations.
Proof.
  unfold Legacy.ReadChangeLogFile. split.
  - destruct (Legacy.ReadFile fs fileName) as [buffer|e] eqn:Hb; [|done].
    apply ReadFile_inl in Hb.
    destruct (json_decode buffer) as [ids|] eqn:Hj; [|done].
    intros (new & -> & Hnew)%read_migrations_None. eauto.
  - intros (buffer & ids & Hb%ReadFile_inl & Hj & Hall).
    rewrite Hb, Hj. apply read_migrations_None. eauto.
Qed.

(** X2.  The errors of [ReadChangeLogFile].  A changelog file that cannot
    be read gives the error of the read and no migration, a text that does
    not decode the error of the decoder and no migration.  Otherwise the
    ids are loaded in their order up to the first one with a file that
    cannot be read: the error names that file, the script if both are
    missing, and the migrations of the ids before it are returned with
    it. *)
Theorem ReadChangeLogFile_stops_at_first_unreadable_file
    (json_decode : string -> option (list string)) (fs : FS)
    (fileName : string) :
  (readable fs fileName = false ->
   Legacy.ReadChangeLogFile json_decode fs fileName
     = ([], Some (FsError fileName))) /\
  (forall buffer,
     fs fileName = Contents buffer -> json_decode buffer = None ->
     Legacy.ReadChangeLogFile json_decode fs fileName
       = ([], Some JsonError)) /\
  (forall buffer pre id rest loaded,
     fs fileName = Contents buffer ->
     json_decode buffer = Some (pre ++ id :: rest) ->
     Forall2 (legacy_loaded fs) pre loaded ->
     readable fs (id +:+ ".sql") && readable fs (id +:+ ".revert.sql")
       = false ->
     Legacy.ReadChangeLogFile json_decode fs fileName =
       (loaded,
        Some (FsError (if readable fs (id +:+ ".sql")
                       then id +:+ ".revert.sql" else id +:+ ".sql")))).
Proof.
  unfold Legacy.ReadChangeLogFile. split_and!.
  - intros H. by rewrite ReadFile_inr.
  - intros buffer Hb%ReadFile_inl Hj. by rewrite Hb, Hj.
  - intros buffer pre id rest loaded Hb%ReadFile_inl Hj Hpre Hbad.
    rewrite Hb, Hj. by rewrite (read_migrations_stops fs pre [] loaded).
Qed.

Lemma ReadChangeLogFile_stops_at_first_unreadable_file_witness :
  let fs := Demo.disk [("changelog.json", Demo.config ["T"; "T2"; "T3"]);
                       ("T.sql", "CREATE TABLE t");
                       ("T.revert.sql", "DROP TABLE t");
                       ("T2.sql", "CREATE TABLE t2")] in
  Legacy.ReadChangeLogFile Demo.json_decode fs "changelog.json" =
    ([mkMigration "T" "CREATE TABLE t" "DROP TABLE t"
                  (Legacy.generateHash "CREATE TABLE t")],
     Some (FsError "T2.revert.sql")).
Proof.
  intros fs.
  apply (proj2 (proj2 (ReadChangeLogFile_stops_at_first_unreadable_file
                         Demo.json_decode fs "changelog.json"))
           (Demo.config ["T"; "T2"; "T3"]) ["T"] "T2" ["T3"]).
  - reflexivity.
  - reflexivity.
  - repeat constructor.
  - reflexivity.
Defined.

(** ** The loader of the service *)
Section ServiceLoader.
Variable json_decode : string -> option (list string).
Variable Join : string -> string -> string.
Implicit Types (m : Service.MigrationService) (d : gmap string Migration).

Lemma readFileContent_inl fs path s :
  Service.readFileContent fs path = inl s <-> fs path = Contents s.
Proof.
  unfold Service.readFileContent.
  destruct (fs path); split; intros H; by simplify_eq.
Qed.

Lemma extractMigration_inl m id mig :
  Service.extractMigration Join m id = inl mig <-> service_loaded Join m id mig.
Proof.
  unfold Service.extractMigration, service_loaded. split.
  - destruct (Service.readFileContent _ _) as [script|e] eqn:Hs; [|done].
    destruct (Service.readFileContent _ (Join _ (id +:+ ".revert.sql")))
      as [rev|e] eqn:Hr; [|done].
    apply readFileContent_inl in Hs, Hr. by intros [= <-].
  - destruct mig as [i s r k]. simpl.
    intros (-> & Hs%readFileContent_inl & Hr%readFileContent_inl & ->).
    by rewrite Hs, Hr.
Qed.

Lemma readConfigFile_inl m ids :
  Service.readConfigFile json_decode m = inl ids <->
  exists buffer,
    Service.fs m (Service.configFile m) = Contents buffer /\
    json_decode buffer = Some ids.
Proof.
  unfold Service.readConfigFile. split.
  - destruct (Service.fs m _) as [| |buffer]; [done..|].
    destruct (json_decode buffer) eqn:Hj; [|done]. intros [= <-]. eauto.
  - intros (buffer & -> & ->). done.
Qed.

(** The loop of [getMigrations] ends without an error exactly when every
    id can be extracted. *)
Lemma extract_all_None m ids : forall acc,
  (exists d, Service.extract_all Join m ids acc = (d, None)) <->
  (forall id, id ∈ ids -> exists mig, service_loaded Join m id mig).
Proof.
  induction ids as [|v ids IH]; intros acc; simpl.
  - split; [|by eauto]. intros _ id Hid. by apply elem_of_nil in Hid.
  - destruct (Service.extractMigration Join m v) as [mig|e] eqn:Hv.
    + rewrite IH. apply extractMigration_inl in Hv. split.
      * intros H id [->|Hid]%elem_of_cons; eauto.
      * intros H id Hid. by apply H, list_elem_of_further.
    + split; [by intros [d [=]]|]. intros H.
      destruct (H v) as [mig Hmig]; [apply list_elem_of_here|].
      apply extractMigration_inl in Hmig. congruence.
Qed.

(** The loop stops at the first id that cannot be extracted; it stores
    the zero [Migration] under this id before it returns the error. *)
Lemma extract_all_stops m pre v rest err : forall acc,
  (forall id, id ∈ pre -> exists mig, service_loaded Join m id mig) ->
  Service.extractMigration Join m v = inr err ->
  exists d0,
    Service.extract_all Join m pre acc = (d0, None) /\
    Service.extract_all Join m (pre ++ v :: rest) acc
      = (<[v := Service.zero]> d0, Some err).
Proof.
  induction pre as [|x pre IH]; intros acc Hpre Hv; simpl.
  - exists acc. by rewrite Hv.
  - destruct (Hpre x) as [mig Hmig]; [apply list_elem_of_here|].
    apply extractMigration_inl in Hmig. rewrite Hmig.
    apply IH; [|done]. intros id Hid. by apply Hpre, list_elem_of_further.
Qed.

(** What the loop has stored when it ends without an error. *)
Lemma extract_all_loaded m ids d :
  Service.extract_all Join m ids ∅ = (d, None) ->
  forall id mig,
    d !! id = Some mig <-> id ∈ ids /\ service_loaded Join m id mig.
Proof.
  intros H id mig. rewrite (extract_all_lookup _ _ _ _ _ H).
  rewrite <- extractMigration_inl. case_decide as Hin.
  - destruct (Service.extractMigration Join m id) as [mig'|e]; split.
    + by intros [= ->].
    + by intros [_ [= ->]].
    + done.
    + by intros [_ [=]].
  - rewrite lookup_empty. split; [done | by intros [? _]].
Qed.
End ServiceLoader.

(** X3.  [getMigrations] returns no error exactly when the configuration
    file can be read, its text decodes to a list of ids and the two files
    of every id can be read under the script path.  The keys of the map it
    returns are then the ids of the list, and under an id the map holds
    the migration with this id, the texts of the two files and the
    hexadecimal MD5 digest of the script. *)
Theorem getMigrations_loads_every_id
    (json_decode : string -> option (list string))
    (Join : string -> string -> string)
    (m : Service.MigrationService) (d : gmap string Migration) :
  Service.getMigrations json_decode Join m = (d, None) <->
  exists buffer ids,
    Service.fs m (Service.configFile m) = Contents buffer /\
    json_decode buffer = Some ids /\
    (forall id, id ∈ ids -> exists mig, service_loaded Join m id mig) /\
    (forall id mig,
       d !! id = Some mig <-> id ∈ ids /\ service_loaded Join m id mig).
Proof.
  unfold Service.getMigrations. split.
  - destruct (Service.readConfigFile json_decode m) as [ids|e] eqn:Hc; [|done].
    apply readConfigFile_inl in Hc as (buffer & Hb & Hj). intros H.
    exists buffer, ids.
    split_and!; [done|done| |by apply extract_all_loaded].
    apply (extract_all_None Join m ids ∅). eauto.
  - intros (buffer & ids & Hb & Hj & Hall & Hd).
    rewrite (proj2 (readConfigFile_inl json_decode m ids)) by eauto.
    apply (extract_all_None Join m ids ∅) in Hall as [d' Hd'].
    rewrite Hd'. f_equal. apply map_eq. intros id. apply option_eq.
    intros mig. by rewrite (extract_all_loaded Join m ids d' Hd'), Hd.
Qed.

(** X4.  The errors of [getMigrations].  A configuration file that cannot
    be opened, or whose text cannot be read or decoded, gives the error
    of [readConfigFile] and an empty map.  Otherwise the ids are
    extracted in their order up to the first one that fails: the error
    of its extraction is returned, with a map that holds the migrations
    of the ids before it and, under the failing id, the zero
    [Migration].  The extraction of an id fails on the first of its two
    files, the script before the revert script, that cannot be opened or
    read, and its error says which. *)
Theorem getMigrations_stops_at_first_failing_id
    (json_decode : string -> option (list string))
    (Join : string -> string -> string) (m : Service.MigrationService) :
  let cfg := Service.configFile m in
  (Service.fs m cfg = Missing ->
   Service.getMigrations json_decode Join m
     = (∅, Some (Wrap "failed to open config file" (FsError cfg)))) /\
  (Service.fs m cfg = Unreadable ->
   Service.getMigrations json_decode Join m
     = (∅, Some (Wrap "failed to decode config file" (FsError cfg)))) /\
  (forall buffer,
     Service.fs m cfg = Contents buffer -> json_decode buffer = None ->
     Service.getMigrations json_decode Join m
       = (∅, Some (Wrap "failed to decode config file" JsonError))) /\
  (forall buffer pre v rest err,
     Service.fs m cfg = Contents buffer ->
     json_decode buffer = Some (pre ++ v :: rest) ->
     (forall id, id ∈ pre -> exists mig, service_loaded Join m id mig) ->
     Service.extractMigration Join m v = inr err ->
     exists d,
       Service.getMigrations json_decode Join m = (d, Some err) /\
       d !! v = Some Service.zero /\
       (forall id mig,
          id <> v ->
          d !! id = Some mig <-> id ∈ pre /\ service_loaded Join m id mig)) /\
  (forall v,
     let p := Join (Service.scriptPath m) (v +:+ ".sql") in
     let p' := Join (Service.scriptPath m) (v +:+ ".revert.sql") in
     readable (Service.fs m) p && readable (Service.fs m) p' = false ->
     Service.extractMigration Join m v =
       inr (let q := if readable (Service.fs m) p then p' else p in
            match Service.fs m q with
            | Missing => Wrap ("failed to open file " +:+ q) (FsError q)
            | _ => Wrap "failed to read file content" (FsError q)
            end)).
Proof.
  intros cfg. split_and!.
  - unfold Service.getMigrations, Service.readConfigFile. fold cfg.
    by intros ->.
  - unfold Service.getMigrations, Service.readConfigFile. fold cfg.
    by intros ->.
  - unfold Service.getMigrations, Service.readConfigFile. fold cfg.
    by intros buffer -> ->.
  - unfold Service.getMigrations, Service.readConfigFile. fold cfg.
    intros buffer pre v rest err -> -> Hpre Hv.
    destruct (extract_all_stops Join m pre v rest err ∅ Hpre Hv)
      as (d0 & Hd0 & ->).
    eexists. split; [done|]. split; [apply lookup_insert_eq|].
    intros id mig Hne. rewrite lookup_insert_ne by done.
    by apply extract_all_loaded.
  - intros v p p'. unfold Service.extractMigration, Service.readFileContent,
      readable. fold p p'.
    destruct (Service.fs m p) eqn:Hp; simpl; rewrite ?Hp; try done.
    destruct (Service.fs m p') eqn:Hp'; simpl; done.
Qed.

Lemma getMigrations_stops_at_first_failing_id_witness :
  exists d,
    Service.getMigrations Demo.json_decode Demo.Join
        (Demo.service ["T"; "T3"; "T2"])
      = (d, Some (Wrap "failed to open file scripts/T3.sql"
                       (FsError "scripts/T3.sql"))) /\
    d !! "T3" = Some Service.zero /\
    d !! "T" = Some Demo.ST /\
    d !! "T2" = None.
Proof.
  destruct (proj1 (proj2 (proj2 (proj2
              (getMigrations_stops_at_first_failing_id Demo.json_decode
                 Demo.Join (Demo.service ["T"; "T3"; "T2"])))))
              (Demo.config ["T"; "T3"; "T2"]) ["T"] "T3" ["T2"]
              (Wrap "failed to open file scripts/T3.sql"
                    (FsError "scripts/T3.sql")))
    as (d & Hd & Hv & Hpre).
  - reflexivity.
  - reflexivity.
  - intros id ->%list_elem_of_singleton. exists Demo.ST.
    by repeat split.
  - reflexivity.
  - exists d. split_and!; [exact Hd | exact Hv | |].
    + apply Hpre; [done|]. split; [apply list_elem_of_here|].
      by repeat split.
    + destruct (d !! "T2") as [mig|] eqn:E; [|done].
      apply Hpre in E as [E _]; [|done].
      by apply list_elem_of_singleton in E.
Defined.

(** X5.  [ExecuteMigration] of the service prepares the database before
    it reads the configuration: the first statement it sends is the CREATE
    TABLE of the changelog, whatever the files are.  When this statement
    is not answered its error is returned; when it is answered and the
    configuration cannot be loaded, the error of the loader is returned.
    In both cases nothing else has been sent and the database is as it
    was. *)
Theorem Service_prepares_database_before_loading {Schema : Type}
    (exec : string -> Schema -> option Schema) (link : nat -> bool)
    (json_decode : string -> option (list string))
    (Join : string -> string -> string)
    (order : map_order) (m : Service.MigrationService) (c : Conn Schema) :
  let r := Service.ExecuteMigration exec link json_decode Join order m c in
  (exists l, log r.1 = log c ++ SCreateTable :: l) /\
  (link (length (log c)) = false ->
   r = (mkConn (committed c) (log c ++ [SCreateTable]),
        Some (Driver SCreateTable))) /\
  (forall d err,
     link (length (log c)) = true ->
     Service.getMigrations json_decode Join m = (d, Some err) ->
     r = (mkConn (committed c) (log c ++ [SCreateTable]), Some err)).
Proof.
  intros r. subst r.
  unfold Service.ExecuteMigration, Service.prepareDatabase,
    Service.getExistingMigrations, Service.checkExistingChangelogs,
    create_table, select_changelog, up, send. simpl.
  split_and!.
  - destruct (link (length (log c))); simpl; [|by exists []].
    destruct (Service.getMigrations json_decode Join m) as [d [e|]];
      simpl; [by exists []|].
    destruct (link (length (log c ++ [SCreateTable]))); simpl.
    2:{ exists [SSelect]. by rewrite <- app_assoc. }
    rewrite check_loop_phases.
    pose proof (service_reverts_spec exec link
                  (lead d (changelog (committed c)))
                  (mkConn (committed c)
                     ((log c ++ [SCreateTable]) ++ [SSelect]))) as Hs.
    simpl in Hs.
    destruct (service_reverts exec link _ _) as [c' res'].
    destruct Hs as (done & rest & l & _ & _ & _ & Hl & _).
    assert (log c' = log c ++ SCreateTable :: SSelect :: l) as Hc'.
    { rewrite Hl. by rewrite <- !app_assoc. }
    destruct res' as [e|]; simpl; [by eauto|].
    destruct (service_verdict d _) as [e|]; simpl; [by eauto|].
    pose proof (execute_pending_spec exec link (changelog (committed c))
                  (order d) c') as Ha.
    destruct (Service.execute_pending exec link c' _ _) as [c4 o4].
    destruct Ha as (done' & l1 & _ & _ & _ & Hl1 & _). simpl.
    exists (SSelect :: l ++ l1). rewrite Hl1, Hc'.
    by rewrite <- !app_assoc.
  - by intros ->.
  - intros d err -> ->. done.
Qed.

Lemma Service_prepares_database_before_loading_witness :
  let m := Service.mkService "missing.json" "scripts" (Demo.files ["T"]) in
  Service.ExecuteMigration Demo.exec Demo.online Demo.json_decode Demo.Join
      Demo.range m Demo.one_applied =
    (mkConn (committed Demo.one_applied) [SCreateTable],
     Some (Wrap "failed to open config file" (FsError "missing.json"))).
Proof.
  intros m.
  apply (proj2 (proj2 (Service_prepares_database_before_loading Demo.exec
                         Demo.online Demo.json_decode Demo.Join Demo.range
                         m Demo.one_applied)) ∅).
  - reflexivity.
  - reflexivity.
Defined.

(** ** The two loaders side by side *)

(** X6.  On the same files the two loaders build the same migrations up
    to the checksum: for every migration [ReadChangeLogFile] returns from
    the files under the script path of a service, [extractMigration] of
    this service returns for its id the migration with the same id, script
    and revert script, and as checksum the hexadecimal encoding of the
    bytes that [ReadChangeLogFile] recorded. *)
Theorem loaders_agree_up_to_hex
    (json_decode : string -> option (list string))
    (Join : string -> string -> string) (m : Service.MigrationService)
    (fileName : string) (migrations : list Migration) :
  Legacy.ReadChangeLogFile json_decode
    (fun p => Service.fs m (Join (Service.scriptPath m) p)) fileName
    = (migrations, None) ->
  Forall (fun mig =>
            Service.extractMigration Join m (Id mig) =
            inl (mkMigration (Id mig) (Script mig) (RevertScript mig)
                   (hex_EncodeToString
                      (list_ascii_of_string (Checksum mig)))))
         migrations.
Proof.
  unfold Legacy.ReadChangeLogFile.
  destruct (Legacy.ReadFile _ fileName) as [buffer|e]; [|done].
  destruct (json_decode buffer) as [ids|]; [|done].
  intros (new & -> & Hnew)%read_migrations_None. simpl.
  induction Hnew as [|id mig ids new Hmig _ IH]; constructor; [|done].
  apply extractMigration_inl.
  destruct Hmig as (Hid & Hs & Hr & Hc). unfold service_loaded. simpl.
  rewrite Hid. split_and!; [done|done|done|].
  rewrite Hc. unfold Legacy.generateHash.
  by rewrite list_ascii_of_string_of_list_ascii.
Qed.

Lemma loaders_agree_up_to_hex_witness :
  let m := Service.mkService "config.json" "scripts"
             (Demo.disk [("scripts/changelog.json", Demo.config ["Test"]);
                         ("scripts/Test.sql", Demo.test_script);
                         ("scripts/Test.revert.sql", "DROP TABLE test")]) in
  Forall (fun mig =>
            Service.extractMigration Demo.Join m (Id mig) =
            inl (mkMigration (Id mig) (Script mig) (RevertScript mig)
                   (hex_EncodeToString
                      (list_ascii_of_string (Checksum mig)))))
         [mkMigration "Test" Demo.test_script "DROP TABLE test"
                      (Legacy.generateHash Demo.test_script)].
Proof.
  intros m.
  apply (loaders_agree_up_to_hex Demo.json_decode Demo.Join m
           "changelog.json").
  vm_compute. reflexivity.
Defined.

(** X7.  The format of the checksums.  Every migration of the map that
    [getMigrations] returns carries a checksum of thirty-two characters,
    each one of the digits [0123456789abcdef]; every migration that
    [ReadChangeLogFile] returns carries one of sixteen characters. *)
Theorem checksums_have_fixed_format
    (json_decode : string -> option (list string))
    (Join : string -> string -> string) :
  (forall m d id mig,
     Service.getMigrations json_decode Join m = (d, None) ->
     d !! id = Some mig ->
     String.length (Checksum mig) = 32 /\
     Forall (fun a => a ∈ hextable) (list_ascii_of_string (Checksum mig))) /\
  (forall fs fileName migrations,
     Legacy.ReadChangeLogFile json_decode fs fileName = (migrations, None) ->
     Forall (fun mig => String.length (Checksum mig) = 16) migrations).
Proof.
  split.
  - intros m d id mig Hd Hmig. unfold Service.getMigrations in Hd.
    destruct (Service.readConfigFile json_decode m) as [ids|e]; [|done].
    apply (extract_all_loaded Join m ids d Hd) in Hmig
      as (_ & _ & _ & _ & ->).
    split; [|apply hex_EncodeToString_digits].
    by rewrite hex_EncodeToString_length, MD5_Sum_length.
  - intros fs fileName migrations. unfold Legacy.ReadChangeLogFile.
    destruct (Legacy.ReadFile fs fileName) as [buffer|e]; [|done].
    destruct (json_decode buffer) as [ids|]; [|done].
    intros (new & -> & Hnew)%read_migrations_None. simpl.
    induction Hnew as [|id mig ids new Hmig _ IH]; constructor; [|done].
    destruct Hmig as (_ & _ & _ & ->). apply generateHash_length.
Qed.

Lemma checksums_have_fixed_format_witness :
  (String.length (Checksum Demo.ST) = 32 /\
   Forall (fun a => a ∈ hextable)
          (list_ascii_of_string (Checksum Demo.ST))) /\
  Forall (fun mig => String.length (Checksum mig) = 16)
         [mkMigration "Test" Demo.test_script "DROP TABLE test"
                      (Legacy.generateHash Demo.test_script)].
Proof.
  destruct (checksums_have_fixed_format Demo.json_decode Demo.Join)
    as [HS HL].
  split.
  - apply (HS (Demo.service ["T"]) {["T" := Demo.ST]} "T").
    + vm_compute. reflexivity.
    + vm_compute. reflexivity.
  - apply (HL Demo.test_files "changelog.json"). vm_compute. reflexivity.
Defined.

(** ** The desired set as a map *)
Section DesiredMap.
Implicit Types (migrations : list Migration) (order : map_order).

Lemma filter_id_unique migrations mig :
  NoDup (Id <$> migrations) -> mig ∈ migrations ->
  filter (fun x => Id x = Id mig) migrations = [mig].
Proof.
  induction migrations as [|x l IH]; intros Hnd Hin.
  { by apply elem_of_nil in Hin. }
  rewrite fmap_cons in Hnd. apply NoDup_cons in Hnd as [Hx Hnd].
  assert (Hnone : forall y, Id y ∉ Id <$> l ->
            filter (fun x => Id x = Id y) l = []).
  { intros y Hy. apply elem_of_nil_inv.
    intros z [Hz Hzl]%list_elem_of_filter. apply Hy. rewrite <- Hz.
    by apply list_elem_of_fmap_2. }
  apply elem_of_cons in Hin as [->|Hin].
  - rewrite filter_cons_True by done. f_equal. by apply Hnone.
  - rewrite filter_cons_False; [by apply IH|].
    intros Heq. apply Hx. rewrite Heq. by apply list_elem_of_fmap_2.
Qed.

Lemma convertMigrationToMap_dom migrations id :
  is_Some (Legacy.convertMigrationToMap migrations !! id) <->
  id ∈ Id <$> migrations.
Proof.
  rewrite convertMigrationToMap_lookup, list_elem_of_fmap. split.
  - intros [mig Hmig%last_Some_elem_of].
    apply list_elem_of_filter in Hmig as [<- Hmig]. eauto.
  - intros (mig & -> & Hmig).
    destruct (last (filter (fun x => Id x = Id mig) migrations)) eqn:E;
      [by eexists|].
    apply last_None in E.
    assert (mig ∈ filter (fun x => Id x = Id mig) migrations) as Hin
      by (by apply list_elem_of_filter).
    rewrite E in Hin. by apply elem_of_nil in Hin.
Qed.
End DesiredMap.

(** X8.  [convertMigrationToMap] loses nothing of a slice with distinct
    ids: a range over the map yields the migrations of the slice, each
    once, in some order, and the map has as many entries as the slice.
    For any slice the keys of the map are the ids that occur in it, and a
    lookup of another id finds nothing. *)
Theorem convertMigrationToMap_round_trip (order : map_order)
    (migrations : list Migration) :
  valid_order order ->
  (forall id,
     is_Some (Legacy.convertMigrationToMap migrations !! id) <->
     id ∈ Id <$> migrations) /\
  (NoDup (Id <$> migrations) ->
   order (Legacy.convertMigrationToMap migrations) ≡ₚ migrations /\
   size (Legacy.convertMigrationToMap migrations) = length migrations).
Proof.
  intros Hv. split; [apply convertMigrationToMap_dom|]. intros Hnd.
  pose proof (convertMigrationToMap_keyed migrations) as Hk.
  assert (Hperm : order (Legacy.convertMigrationToMap migrations)
                    ≡ₚ migrations).
  { apply NoDup_Permutation.
    - by apply NoDup_ids, order_NoDup.
    - by apply NoDup_ids.
    - intros mig. rewrite (order_elem order _ mig Hv Hk).
      rewrite convertMigrationToMap_lookup. split.
      + intros Hmig%last_Some_elem_of.
        by apply list_elem_of_filter in Hmig as [_ ?].
      + intros Hin. by rewrite filter_id_unique. }
  split; [done|].
  rewrite <- (Permutation_length Hperm), (Permutation_length (Hv _)).
  rewrite length_fmap. symmetry. apply length_map_to_list.
Qed.

Lemma convertMigrationToMap_round_trip_witness :
  Demo.range (Legacy.convertMigrationToMap [Demo.T2; Demo.T])
    ≡ₚ [Demo.T2; Demo.T] /\
  size (Legacy.convertMigrationToMap [Demo.T2; Demo.T]) = 2.
Proof.
  apply (convertMigrationToMap_round_trip Demo.range [Demo.T2; Demo.T]
           Demo_range_valid).
  apply (bool_decide_unpack _). vm_compute. exact I.
Defined.

(** ** The transactions *)
Section TransactionPairs.
Context {Schema : Type}.
Variable exec : string -> Schema -> option Schema.
Variable link : nat -> bool.
Implicit Types (c : Conn Schema) (m : Migration).

Lemma filter_id_absent (id : string) (rows : list Migration) :
  id ∉ Id <$> rows -> filter (fun x => Id x ≠ id) rows = rows.
Proof.
  induction rows as [|x rows IH]; [done|].
  rewrite fmap_cons, not_elem_of_cons. intros [Hx Hrows].
  rewrite filter_cons_True by done. by rewrite IH.
Qed.

Lemma filter_row_of m (rows : list Migration) :
  Id m ∉ Id <$> rows ->
  filter (fun x => Id x ≠ Id (row_of m)) (row_of m :: rows) = rows.
Proof.
  intros H. rewrite filter_cons_False by (simpl; tauto).
  by apply filter_id_absent.
Qed.
End TransactionPairs.

(** X9.  An apply followed by the revert of the row it wrote.  After an
    apply that returned nil the row on top of the changelog carries the
    id, the checksum and the revert script of the migration; when the
    revert of this row returns nil in its turn, the changelog is the one
    before the apply and the schema is what the revert script made of the
    schema the script had produced.  In both versions. *)
Theorem apply_then_revert_restores_changelog {Schema : Type}
    (exec : string -> Schema -> option Schema) (link : nat -> bool)
    (c : Conn Schema) (m : Migration) :
  (forall c1,
     Service.executeSingleMigration exec link c m = (c1, None) ->
     changelog (committed c1) = row_of m :: changelog (committed c) /\
     (Id (row_of m), Checksum (row_of m), RevertScript (row_of m))
       = (Id m, Checksum m, RevertScript m) /\
     forall c2,
       Service.revertSingleMigration exec link c1 (row_of m) = (c2, None) ->
       changelog (committed c2) = changelog (committed c) /\
       exists sc1,
         exec (Script m) (schema (committed c)) = Some sc1 /\
         exec (RevertScript m) sc1 = Some (schema (committed c2))) /\
  (forall c1,
     Legacy.executeChangeLog exec link c m = (c1, Legacy.Done) ->
     changelog (committed c1) = row_of m :: changelog (committed c) /\
     (Id (row_of m), Checksum (row_of m), RevertScript (row_of m))
       = (Id m, Checksum m, RevertScript m) /\
     forall c2,
       Legacy.revertScript exec link c1 (row_of m) = (c2, Legacy.Done) ->
       changelog (committed c2) = changelog (committed c) /\
       exists sc1,
         exec (Script m) (schema (committed c)) = Some sc1 /\
         exec (RevertScript m) sc1 = Some (schema (committed c2))).
Proof.
  split.
  - intros c1 Ha.
    pose proof (executeSingleMigration_spec exec link c m) as H.
    rewrite Ha in H. destruct H as (sc1 & Hs & Hid%has_id_false & Hc1 & _).
    rewrite Hc1. split_and!; [done|done|]. intros c2 Hr.
    pose proof (revertSingleMigration_spec exec link c1 (row_of m)) as H.
    rewrite Hr in H. destruct H as (sc2 & Hs2 & Hc2 & _).
    rewrite Hc2, Hc1 in *. simpl in *.
    split; [by apply filter_row_of|]. eauto.
  - intros c1 Ha.
    pose proof (executeChangeLog_spec exec link c m) as H.
    rewrite Ha in H. destruct H as (sc1 & Hs & Hid%has_id_false & Hc1 & _).
    rewrite Hc1. split_and!; [done|done|]. intros c2 Hr.
    pose proof (revertScript_spec exec link c1 (row_of m)) as H.
    rewrite Hr in H. destruct H as (sc2 & Hs2 & Hc2 & _).
    rewrite Hc2, Hc1 in *. simpl in *.
    split; [by apply filter_row_of|]. eauto.
Qed.

Lemma apply_then_revert_restores_changelog_witness :
  let c := Demo.one_applied in
  let s1 := (Service.executeSingleMigration Demo.exec Demo.online c
               Demo.ST2).1 in
  let s2 := (Service.revertSingleMigration Demo.exec Demo.online s1
               (row_of Demo.ST2)).1 in
  let l1 := (Legacy.executeChangeLog Demo.exec Demo.online c Demo.ST2).1 in
  let l2 := (Legacy.revertScript Demo.exec Demo.online l1
               (row_of Demo.ST2)).1 in
  changelog (committed s2) = changelog (committed c) /\
  changelog (committed l2) = changelog (committed c).
Proof.
  intros c s1 s2 l1 l2.
  destruct (apply_then_revert_restores_changelog Demo.exec Demo.online c
              Demo.ST2) as [HS HL].
  split.
  - destruct (HS s1) as (_ & _ & H); [by vm_compute|].
    destruct (H s2) as [H2 _]; [by vm_compute|]. exact H2.
  - destruct (HL l1) as (_ & _ & H); [by vm_compute|].
    destruct (H l2) as [H2 _]; [by vm_compute|]. exact H2.
Defined.

(** X10.  The apply of a migration whose id is recorded does not go
    through: the INSERT violates the primary key of the changelog, the
    call returns an error and the committed database is the one before
    it.  The service has by then run the script inside the transaction,
    which it rolls back; migrate.go sends the INSERT first and never sends
    the script. *)
Theorem apply_of_recorded_id_is_refused {Schema : Type}
    (exec : string -> Schema -> option Schema) (link : nat -> bool)
    (c : Conn Schema) (m : Migration) :
  Id m ∈ Id <$> changelog (committed c) ->
  (let r := Service.executeSingleMigration exec link c m in
   r.2 <> None /\ committed r.1 = committed c /\
   forall sc,
     (forall n, length (log c) <= n -> link n = true) ->
     exec (Script m) (schema (committed c)) = Some sc ->
     r = (mkConn (committed c)
            (log c ++ [SBegin; SScript (Script m); SInsert m; SRollback]),
          Some (Wrap "failed to insert into changelog"
                     (Driver (SInsert m))))) /\
  (let r := Legacy.executeChangeLog exec link c m in
   r.2 <> Legacy.Done /\ committed r.1 = committed c /\
   (exists l, log r.1 = log c ++ l /\ scripts l = []) /\
   ((forall n, length (log c) <= n -> link n = true) ->
    r = (mkConn (committed c) (log c ++ [SBegin; SInsert m]),
         Legacy.Failed (Driver (SInsert m))))).
Proof.
  intros Hid%has_id_true. split.
  - intros r. subst r.
    pose proof (executeSingleMigration_spec exec link c m) as H.
    destruct (Service.executeSingleMigration exec link c m) as [c' [e|]] eqn:E.
    2:{ destruct H as (sc & _ & Hn & _). congruence. }
    destruct H as [Hc _]. split_and!; [done|done|].
    intros sc Hl Hs. rewrite <- E. tx_unfold.
    rewrite !Hl, Hs by (rewrite ?length_app; simpl; lia). simpl.
    rewrite Hid. by rewrite <- !app_assoc.
  - intros r. subst r.
    assert (Hshape :
      Legacy.executeChangeLog exec link c m =
      if link (length (log c)) then
        (mkConn (committed c) (log c ++ [SBegin; SInsert m]),
         Legacy.Failed (Driver (SInsert m)))
      else (mkConn (committed c) (log c ++ [SBegin]), Legacy.Panicked)).
    { tx_unfold. destruct (link (length (log c))); simpl; [|done].
      rewrite Hid. rewrite <- !app_assoc. simpl.
      by destruct (link (length (log c ++ [SBegin]))). }
    rewrite Hshape.
    destruct (link (length (log c))) eqn:Hl; simpl.
    + split_and!; [done|done|by eexists|done].
    + split_and!; [done|done|by eexists|].
      intros H. rewrite H in Hl by lia. done.
Qed.

Lemma apply_of_recorded_id_is_refused_witness :
  Service.executeSingleMigration Demo.exec Demo.online
      (mkConn (mkDB [row_of Demo.ST] []) []) Demo.ST =
    (mkConn (mkDB [row_of Demo.ST] [])
       [SBegin; SScript (Script Demo.ST); SInsert Demo.ST; SRollback],
     Some (Wrap "failed to insert into changelog"
                (Driver (SInsert Demo.ST)))) /\
  Legacy.executeChangeLog Demo.exec Demo.online
      (mkConn (mkDB [row_of Demo.ST] []) []) Demo.ST =
    (mkConn (mkDB [row_of Demo.ST] []) [SBegin; SInsert Demo.ST],
     Legacy.Failed (Driver (SInsert Demo.ST))).
Proof.
  destruct (apply_of_recorded_id_is_refused Demo.exec Demo.online
              (mkConn (mkDB [row_of Demo.ST] []) []) Demo.ST)
    as [(_ & _ & HS) (_ & _ & _ & HL)].
  - simpl. apply list_elem_of_here.
  - split.
    + apply (HS ["t"]); [done | reflexivity].
    + by apply HL.
Defined.

(** X11.  A revert is atomic, in both versions: in one transaction the
    revert script and the DELETE of the rows with the id are sent, the
    script first in [revertSingleMigration], the DELETE first in
    [revertScript]; when the call returns nil the schema is the one the
    revert script produced and no row with the id is left, the other rows
    being as they were and in their order; after any failure the committed
    database is the one before the call. *)
Theorem revert_is_atomic {Schema : Type}
    (exec : string -> Schema -> option Schema) (link : nat -> bool)
    (c : Conn Schema) (r : Migration) :
  match Service.revertSingleMigration exec link c r with
  | (c', None) =>
      (exists sc,
         exec (RevertScript r) (schema (committed c)) = Some sc /\
         committed c' =
           mkDB (filter (fun x => Id x ≠ Id r) (changelog (committed c))) sc) /\
      log c' = log c ++
        [SBegin; SScript (RevertScript r); SDelete (Id r); SCommit]
  | (c', Some _) => committed c' = committed c
  end /\
  match Legacy.revertScript exec link c r with
  | (c', Legacy.Done) =>
      (exists sc,
         exec (RevertScript r) (schema (committed c)) = Some sc /\
         committed c' =
           mkDB (filter (fun x => Id x ≠ Id r) (changelog (committed c))) sc) /\
      log c' = log c ++
        [SBegin; SDelete (Id r); SScript (RevertScript r); SCommit]
  | (c', _) => committed c' = committed c
  end.
Proof.
  split.
  - pose proof (revertSingleMigration_spec exec link c r) as H.
    destruct (Service.revertSingleMigration exec link c r) as [c' [e|]].
    + by destruct H.
    + destruct H as (sc & ? & ? & ?). eauto.
  - pose proof (revertScript_spec exec link c r) as H.
    destruct (Legacy.revertScript exec link c r) as [c' [|e|]];
      [|by destruct H..].
    destruct H as (sc & ? & ? & ?). eauto.
Qed.

(** ** The state a run leaves behind *)
Section RunState.
Context {Schema : Type}.
Variable exec : string -> Schema -> option Schema.
Variable link : nat -> bool.
Variable json_decode : string -> option (list string).
Variable Join : string -> string -> string.
Implicit Types (c : Conn Schema) (d : gmap string Migration)
               (rows : list Migration) (order : map_order).

Lemma exec_all_app (qs1 qs2 : list string) (sc : Schema) :
  exec_all exec (qs1 ++ qs2) sc =
  match exec_all exec qs1 sc with
  | Some sc' => exec_all exec qs2 sc'
  | None => None
  end.
Proof.
  revert sc. induction qs1 as [|q qs1 IH]; intros sc; simpl; [done|].
  destruct (exec q sc); [apply IH | done].
Qed.

(** The reverts of the service, with the schema they leave. *)
Lemma service_reverts_state rows : forall c,
  match service_reverts exec link c rows with
  | (c', res) =>
      exists done rest,
        rows = done ++ rest /\
        (res = None -> rest = []) /\
        changelog (committed c') =
          filter (fun x => Id x ∉ Id <$> done) (changelog (committed c)) /\
        exec_all exec (RevertScript <$> done) (schema (committed c))
          = Some (schema (committed c'))
  end.
Proof.
  induction rows as [|r rows IH]; intros c; simpl.
  - exists [], []. by rewrite filter_not_in_nil.
  - pose proof (revertSingleMigration_spec exec link c r) as Hr.
    destruct (Service.revertSingleMigration exec link c r) as [c1 [e|]].
    + destruct Hr as [Hc _]. exists [], (r :: rows).
      by rewrite filter_not_in_nil, Hc.
    + destruct Hr as (sc & Hs & Hc & _). specialize (IH c1).
      destruct (service_reverts exec link c1 rows) as [c' res].
      destruct IH as (done & rest & -> & Hrest & Hch & Hsc).
      exists (r :: done), rest. rewrite Hc in Hch, Hsc.
      split_and!; [done|done| |].
      * by rewrite filter_not_in_cons.
      * rewrite fmap_cons. simpl. by rewrite Hs.
Qed.

(** The reverts of migrate.go: those that went through. *)
Lemma legacy_reverts_state rows : forall c,
  match legacy_reverts exec link c rows with
  | (c', res) =>
      exists done,
        done `sublist_of` rows /\
        changelog (committed c') =
          filter (fun x => Id x ∉ Id <$> done) (changelog (committed c)) /\
        exec_all exec (RevertScript <$> done) (schema (committed c))
          = Some (schema (committed c'))
  end.
Proof.
  induction rows as [|r rows IH]; intros c; simpl.
  - exists []. by rewrite filter_not_in_nil.
  - pose proof (revertScript_spec exec link c r) as Hr.
    destruct (Legacy.revertScript exec link c r) as [c1 o].
    assert (Hskip : committed c1 = committed c ->
              match legacy_reverts exec link c1 rows with
              | (c', res) =>
                exists done,
                  done `sublist_of` r :: rows /\
                  changelog (committed c') =
                    filter (fun x => Id x ∉ Id <$> done)
                           (changelog (committed c)) /\
                  exec_all exec (RevertScript <$> done)
                           (schema (committed c))
                    = Some (schema (committed c'))
              end).
    { intros Hc. specialize (IH c1).
      destruct (legacy_reverts exec link c1 rows) as [c' res].
      destruct IH as (done & Hsub & Hch & Hsc). rewrite Hc in Hch, Hsc.
      exists done. split_and!; [by apply sublist_cons|done|done]. }
    destruct o as [|e|].
    + destruct Hr as (sc & Hs & Hc & _). specialize (IH c1).
      destruct (legacy_reverts exec link c1 rows) as [c' res].
      destruct IH as (done & Hsub & Hch & Hsc).
      exists (r :: done). rewrite Hc in Hch, Hsc.
      split_and!; [by apply sublist_skip| |].
      * by rewrite filter_not_in_cons.
      * rewrite fmap_cons. simpl. by rewrite Hs.
    + destruct Hr as [Hc _]. by apply Hskip.
    + destruct Hr as [Hc _]. exists [].
      rewrite filter_not_in_nil, Hc. split_and!; [apply sublist_nil_l|done..].
Qed.

(** The applies of the service, with the schema they leave. *)
Lemma execute_pending_state existing ranged : forall c,
  match Service.execute_pending exec link c existing ranged with
  | (c', res) =>
      exists done,
        done `prefix_of` filter (fun m => Id m ∉ Id <$> existing) ranged /\
        (res = None ->
         done = filter (fun m => Id m ∉ Id <$> existing) ranged) /\
        changelog (committed c') =
          rev (row_of <$> done) ++ changelog (committed c) /\
        exec_all exec (Script <$> done) (schema (committed c))
          = Some (schema (committed c'))
  end.
Proof.
  induction ranged as [|m ranged IH]; intros c; simpl.
  - by exists [].
  - destruct (has_id (Id m) existing) eqn:Hid.
    + apply has_id_true in Hid. rewrite filter_cons_False by tauto.
      apply IH.
    + apply has_id_false in Hid. rewrite filter_cons_True by done.
      pose proof (executeSingleMigration_spec exec link c m) as Hm.
      destruct (Service.executeSingleMigration exec link c m) as [c1 [e|]].
      * destruct Hm as [Hc _]. exists []. rewrite Hc.
        split_and!; [apply prefix_nil|done..].
      * destruct Hm as (sc & Hs & _ & Hc & _). specialize (IH c1).
        destruct (Service.execute_pending exec link c1 existing ranged)
          as [c' res].
        destruct IH as (done & Hpre & Hall & Hch & Hsc).
        rewrite Hc in Hch, Hsc. simpl in *.
        exists (m :: done). split_and!.
        -- by apply prefix_cons.
        -- intros Hres. by rewrite (Hall Hres).
        -- rewrite Hch. simpl. by rewrite <- app_assoc.
        -- simpl. by rewrite Hs.
Qed.

(** The applies of migrate.go, the same way. *)
Lemma apply_pending_state pending : forall c,
  match Legacy.apply_pending exec link c pending with
  | (c', res) =>
      exists done,
        done `prefix_of` pending /\
        (res = Legacy.Done -> done = pending) /\
        changelog (committed c') =
          rev (row_of <$> done) ++ changelog (committed c) /\
        exec_all exec (Script <$> done) (schema (committed c))
          = Some (schema (committed c'))
  end.
Proof.
  induction pending as [|m pending IH]; intros c; simpl.
  - by exists [].
  - pose proof (executeChangeLog_spec exec link c m) as Hm.
    destruct (Legacy.executeChangeLog exec link c m) as [c1 o].
    destruct o as [|e|].
    + destruct Hm as (sc & Hs & _ & Hc & _). specialize (IH c1).
      destruct (Legacy.apply_pending exec link c1 pending) as [c' res].
      destruct IH as (done & Hpre & Hall & Hch & Hsc).
      rewrite Hc in Hch, Hsc. simpl in *.
      exists (m :: done). split_and!.
      * by apply prefix_cons.
      * intros Hres. by rewrite (Hall Hres).
      * rewrite Hch. simpl. by rewrite <- app_assoc.
      * simpl. by rewrite Hs.
    + destruct Hm as [Hc _]. exists []. rewrite Hc.
      split_and!; [apply prefix_nil|done..].
    + destruct Hm as [Hc _]. exists []. rewrite Hc.
      split_and!; [apply prefix_nil|done..].
Qed.

Lemma in_step_intro rows sc reverted applied (db db' : DB Schema) :
  changelog db = filter (fun x => Id x ∉ Id <$> reverted) rows ->
  exec_all exec (RevertScript <$> reverted) sc = Some (schema db) ->
  changelog db' = rev (row_of <$> applied) ++ changelog db ->
  exec_all exec (Script <$> applied) (schema db) = Some (schema db') ->
  in_step exec rows sc reverted applied db'.
Proof.
  unfold in_step. intros Hch Hsc Hch' Hsc'.
  split; [by rewrite Hch', Hch|].
  by rewrite exec_all_app, Hsc.
Qed.

Lemma in_step_reverted rows sc reverted (db : DB Schema) :
  changelog db = filter (fun x => Id x ∉ Id <$> reverted) rows ->
  exec_all exec (RevertScript <$> reverted) sc = Some (schema db) ->
  in_step exec rows sc reverted [] db.
Proof. intros Hch Hsc. by apply (in_step_intro _ _ _ [] db). Qed.

Lemma in_step_start c :
  in_step exec (changelog (committed c)) (schema (committed c)) [] []
          (committed c).
Proof. apply in_step_reverted; [by rewrite filter_not_in_nil | done]. Qed.
End RunState.

(** The state a run of the service leaves, whatever its outcome. *)
Lemma Service_run_state {Schema : Type}
    (exec : string -> Schema -> option Schema) (link : nat -> bool)
    (json_decode : string -> option (list string))
    (Join : string -> string -> string)
    (order : map_order) (m : Service.MigrationService) (c : Conn Schema)
    (d : gmap string Migration) :
  Service.getMigrations json_decode Join m = (d, None) ->
  let rows := changelog (committed c) in
  let P := filter (fun mig => Id mig ∉ Id <$> rows) (order d) in
  let r := Service.ExecuteMigration exec link json_decode Join order m c in
  exists reverted applied,
    reverted `prefix_of` lead d rows /\
    applied `prefix_of` P /\
    (applied <> [] -> reverted = lead d rows) /\
    in_step exec rows (schema (committed c)) reverted applied
            (committed r.1) /\
    (r.2 = None ->
     reverted = lead d rows /\ applied = P /\
     Forall (verified d) (below d rows)).
Proof.
  intros Hd rows P r. subst r.
  destruct (decide (ready link c)) as [Hr|Hr].
  2:{ destruct (Service_not_ready exec link json_decode Join order m c d Hr Hd)
        as (e & l & -> & _).
      exists [], []. simpl.
      split_and!; [apply prefix_nil|apply prefix_nil|done| |done].
      apply in_step_start. }
  rewrite (Service_run _ _ _ _ _ _ _ d) by done.
  rewrite check_loop_phases. fold rows.
  pose proof (service_reverts_state exec link (lead d rows) (prelude c)) as Hs.
  destruct (service_reverts exec link (prelude c) (lead d rows)) as [c' res].
  destruct Hs as (done & rest & Hsplit & Hrest & Hch & Hsc).
  simpl in Hch, Hsc. fold rows in Hch.
  assert (Hquiet : in_step exec rows (schema (committed c)) done []
                     (committed c')) by (by apply in_step_reverted).
  destruct res as [e|]; simpl.
  { exists done, []. split_and!; [|apply prefix_nil|done|done|done].
    rewrite Hsplit. by apply prefix_app_r. }
  rewrite (Hrest eq_refl), app_nil_r in Hsplit. subst done.
  destruct (service_verdict d (below d rows)) as [e|] eqn:Hver; simpl.
  { exists (lead d rows), [].
    split_and!; [done|apply prefix_nil|done|done|done]. }
  apply service_verdict_None in Hver.
  pose proof (execute_pending_state exec link rows (order d) c') as Ha.
  destruct (Service.execute_pending exec link c' rows (order d)) as [c4 res].
  destruct Ha as (applied & Hpre & Hall & Hch4 & Hsc4). fold P in Hpre, Hall.
  exists (lead d rows), applied. simpl.
  split_and!; [done|done|done| |].
  - by apply (in_step_intro exec _ _ _ _ (committed c')).
  - intros ->. by rewrite (Hall eq_refl).
Qed.

(** X12.  Whatever the outcome of a run of the service, the database it
    leaves is in step with what the run committed: the reverts of a
    prefix of the undesired entries on top of the stack, newest first,
    and then, only if all of these were reverted, the applies of a prefix
    of the pending migrations in the order of the range.  The rows of the
    reverted entries are gone, the rows of the applied migrations are on
    top, the last applied first, every other row is where it was, and the
    schema is what these revert scripts and scripts have made of it.
    When the run returns nil all of the lead was reverted, all the
    pending migrations were applied and every entry from the newest kept
    one down is verified.  A failed run is not undone: what it committed
    before the failure stays. *)
Theorem Service_run_is_in_step {Schema : Type}
    (exec : string -> Schema -> option Schema) (link : nat -> bool)
    (json_decode : string -> option (list string))
    (Join : string -> string -> string)
    (order : map_order) (m : Service.MigrationService) (c : Conn Schema)
    (d : gmap string Migration) :
  Service.getMigrations json_decode Join m = (d, None) ->
  let rows := changelog (committed c) in
  let P := filter (fun mig => Id mig ∉ Id <$> rows) (order d) in
  let r := Service.ExecuteMigration exec link json_decode Join order m c in
  exists reverted applied,
    reverted `prefix_of` lead d rows /\
    applied `prefix_of` P /\
    (applied <> [] -> reverted = lead d rows) /\
    in_step exec rows (schema (committed c)) reverted applied
            (committed r.1) /\
    (r.2 = None ->
     reverted = lead d rows /\ applied = P /\
     Forall (verified d) (below d rows)).
Proof. apply Service_run_state. Qed.

Lemma Service_run_is_in_step_witness :
  let c := Demo.both_applied in
  let d : gmap string Migration := {[ "T" := Demo.ST ]} in
  let rows := changelog (committed c) in
  let P := filter (fun mig => Id mig ∉ Id <$> rows) (Demo.range d) in
  let r := Service.ExecuteMigration Demo.exec Demo.online Demo.json_decode
             Demo.Join Demo.range (Demo.service ["T"]) c in
  exists reverted applied,
    reverted `prefix_of` lead d rows /\
    applied `prefix_of` P /\
    (applied <> [] -> reverted = lead d rows) /\
    in_step Demo.exec rows (schema (committed c)) reverted applied
            (committed r.1) /\
    (r.2 = None ->
     reverted = lead d rows /\ applied = P /\
     Forall (verified d) (below d rows)).
Proof.
  apply (Service_run_is_in_step Demo.exec Demo.online Demo.json_decode
           Demo.Join Demo.range (Demo.service ["T"]) Demo.both_applied).
  vm_compute. reflexivity.
Defined.

(** X13.  The same for migrate.go, on a changelog with distinct ids: the
    database a run leaves is in step with the reverts that went through,
    which are some of the undesired entries on top of the stack, not
    necessarily the newest ones and not necessarily all of them even when
    the run returns nil, and with the applies of a prefix of the pending
    migrations in the order of the range, all of them when the run
    returns nil. *)
Theorem Legacy_run_is_in_step {Schema : Type}
    (exec : string -> Schema -> option Schema) (link : nat -> bool)
    (order : map_order) (c : Conn Schema) (migrations : list Migration) :
  NoDup (Id <$> changelog (committed c)) ->
  let d := Legacy.convertMigrationToMap migrations in
  let rows := changelog (committed c) in
  let P := order (residual d rows) in
  let r := Legacy.ExecuteMigration exec link order c migrations in
  exists reverted applied,
    reverted `sublist_of` lead d rows /\
    applied `prefix_of` P /\
    in_step exec rows (schema (committed c)) reverted applied
            (committed r.1) /\
    (r.2 = Legacy.Done ->
     applied = P /\ Forall (verified d) (below d rows)).
Proof.
  intros Hnd d rows P r. subst r.
  destruct (decide (ready link c)) as [Hr|Hr].
  2:{ destruct (Legacy_not_ready exec link order c migrations Hr)
        as (e & l & -> & _).
      exists [], []. simpl.
      split_and!; [apply sublist_nil_l|apply prefix_nil| |done].
      apply in_step_start. }
  rewrite Legacy_run by done. fold d rows.
  pose proof (walk_phases exec link d rows (prelude c) Hnd) as Hw.
  pose proof (legacy_reverts_state exec link (lead d rows) (prelude c)) as Hs.
  destruct (legacy_reverts exec link (prelude c) (lead d rows)) as [c' o].
  destruct Hs as (done & Hsub & Hch & Hsc).
  simpl in Hch, Hsc. fold rows in Hch.
  assert (Hquiet : in_step exec rows (schema (committed c)) done []
                     (committed c')) by (by apply in_step_reverted).
  destruct (Legacy.walk exec link (prelude c) d false rows)
    as [[c3 pend] o3].
  assert (Hstop : o3 <> Legacy.Done -> c3 = c' ->
            exists reverted applied,
              reverted `sublist_of` lead d rows /\
              applied `prefix_of` P /\
              in_step exec rows (schema (committed c)) reverted applied
                      (committed (c3, o3).1) /\
              ((c3, o3).2 = Legacy.Done ->
               applied = P /\ Forall (verified d) (below d rows))).
  { intros Ho ->. exists done, []. simpl.
    split_and!; [done|apply prefix_nil|done|done]. }
  assert (c3 = c' /\ (o3 = Legacy.Panicked \/
          (o3 = legacy_verdict d (below d rows) /\
           (legacy_verdict d (below d rows) = Legacy.Done ->
            pend = residual d (below d rows))))) as [-> Ho3].
  { destruct o; simpl in Hw;
      [by destruct Hw as (-> & -> & Hres); auto..|].
    simplify_eq. auto. }
  destruct Ho3 as [->|(-> & Hres)]; [by apply Hstop|].
  destruct (legacy_verdict d (below d rows)) eqn:Hver;
    [|by apply Hstop..].
  rewrite (Hres eq_refl), residual_below. fold P.
  apply legacy_verdict_Done in Hver.
  pose proof (apply_pending_state exec link P c') as Ha.
  destruct (Legacy.apply_pending exec link c' P) as [c4 res].
  destruct Ha as (applied & Hpre & Hall & Hch4 & Hsc4).
  exists done, applied. simpl. split_and!; [done|done| |].
  - by apply (in_step_intro exec _ _ _ _ (committed c')).
  - intros ->. by rewrite (Hall eq_refl).
Qed.

Lemma Legacy_run_is_in_step_witness :
  let c := Demo.stale in
  let d := Legacy.convertMigrationToMap [Demo.T0] in
  let rows := changelog (committed c) in
  let P := Demo.range (residual d rows) in
  let r := Legacy.ExecuteMigration Demo.exec Demo.online Demo.range c
             [Demo.T0] in
  exists reverted applied,
    reverted `sublist_of` lead d rows /\
    applied `prefix_of` P /\
    in_step Demo.exec rows (schema (committed c)) reverted applied
            (committed r.1) /\
    (r.2 = Legacy.Done ->
     applied = P /\ Forall (verified d) (below d rows)).
Proof.
  apply (Legacy_run_is_in_step Demo.exec Demo.online Demo.range Demo.stale
           [Demo.T0]).
  apply (bool_decide_unpack _). vm_compute. exact I.
Defined.

(** ** What a run keeps *)
Section Kept.
Context {Schema : Type}.
Variable exec : string -> Schema -> option Schema.
Variable link : nat -> bool.
Implicit Types (c : Conn Schema) (d : gmap string Migration)
               (rows : list Migration).

(** Once it has met a kept entry the walk of migrate.go leaves the
    connection alone, whatever its map holds. *)
Lemma walk_inert rows : forall fm c,
  (Legacy.walk exec link c fm true rows).1.1 = c.
Proof.
  induction rows as [|r rows IH]; intros fm c; simpl; [done|].
  destruct (fm !! Id r); [|done].
  destruct (String.eqb _ _); [apply IH | done].
Qed.

(** The walk of migrate.go removes no row whose id is desired. *)
Lemma walk_keeps d rows : forall c x,
  kept d x -> x ∈ changelog (committed c) ->
  x ∈ changelog (committed (Legacy.walk exec link c d false rows).1.1).
Proof.
  induction rows as [|r rows IH]; intros c x Hx Hin; simpl; [done|].
  destruct (d !! Id r) as [mr|] eqn:Hr.
  - destruct (String.eqb _ _); [|done]. by rewrite walk_inert.
  - pose proof (revertScript_spec exec link c r) as Hs.
    destruct (Legacy.revertScript exec link c r) as [c1 o].
    assert (x ∈ changelog (committed c1)) as Hin1.
    { destruct o as [|e|]; [|by destruct Hs as [-> _]..].
      destruct Hs as (sc & _ & -> & _). simpl.
      apply list_elem_of_filter. split; [|done].
      intros Heq. destruct Hx as [mx Hmx]. congruence. }
    destruct o; simpl; [by apply IH|by apply IH|done].
Qed.

Lemma apply_pending_keeps pending : forall c x,
  x ∈ changelog (committed c) ->
  x ∈ changelog (committed (Legacy.apply_pending exec link c pending).1).
Proof.
  intros c x Hin.
  pose proof (apply_pending_spec exec link pending c) as H.
  destruct (Legacy.apply_pending exec link c pending) as [c' res].
  destruct H as (done & l & _ & _ & Hc & _). simpl. rewrite Hc.
  apply elem_of_app. by right.
Qed.
End Kept.

(** X14.  No run removes or changes the row of a desired migration: a
    row of the changelog whose id is a key of the desired set is in the
    changelog after the run, whatever the outcome, in both versions. *)
Theorem kept_entries_survive_any_run {Schema : Type}
    (exec : string -> Schema -> option Schema) (link : nat -> bool)
    (json_decode : string -> option (list string))
    (Join : string -> string -> string)
    (order : map_order) (c : Conn Schema) (x : Migration) :
  x ∈ changelog (committed c) ->
  (forall migrations,
     kept (Legacy.convertMigrationToMap migrations) x ->
     x ∈ changelog (committed
           (Legacy.ExecuteMigration exec link order c migrations).1)) /\
  (forall m d,
     Service.getMigrations json_decode Join m = (d, None) ->
     kept d x ->
     x ∈ changelog (committed
           (Service.ExecuteMigration exec link json_decode Join order m c).1)).
Proof.
  intros Hin. split.
  - intros migrations Hx.
    unfold Legacy.ExecuteMigration, create_table, select_changelog, up, send.
    simpl. destruct (link (length (log c))); [|done].
    destruct (link (length (log c ++ [SCreateTable]))); [|done].
    set (c2 := mkConn (committed c) ((log c ++ [SCreateTable]) ++ [SSelect])).
    pose proof (walk_keeps exec link _ (changelog (committed c)) c2 x Hx Hin)
      as Hw.
    destruct (Legacy.walk exec link c2 _ false _) as [[c3 pend] o3].
    simpl in Hw. destruct o3; [|done..].
    by apply apply_pending_keeps.
  - intros m d Hd [mx Hx].
    destruct (Service_run_state exec link json_decode Join order m c d Hd)
      as (reverted & applied & Hpre & _ & _ & [Hch _] & _).
    rewrite Hch. apply elem_of_app. right.
    apply list_elem_of_filter. split; [|done].
    intros Hid.
    assert (Id x ∈ Id <$> lead d (changelog (committed c))) as Hl.
    { destruct Hpre as [rest ->]. rewrite fmap_app. apply elem_of_app.
      by left. }
    apply (undesired_not_in d _ _ (lead_undesired d _)) in Hl. congruence.
Qed.

Lemma kept_entries_survive_any_run_witness :
  row_of Demo.ST ∈ changelog (committed
    (Legacy.ExecuteMigration Demo.exec Demo.online Demo.range
       Demo.both_applied [Demo.ST]).1) /\
  row_of Demo.ST ∈ changelog (committed
    (Service.ExecuteMigration Demo.exec Demo.online Demo.json_decode
       Demo.Join Demo.range (Demo.service ["T"]) Demo.both_applied).1).
Proof.
  destruct (kept_entries_survive_any_run Demo.exec Demo.online
              Demo.json_decode Demo.Join Demo.range Demo.both_applied
              (row_of Demo.ST)) as [HL HS].
  - apply list_elem_of_further, list_elem_of_here.
  - split.
    + apply HL. exists Demo.ST. vm_compute. reflexivity.
    + apply (HS _ {[ "T" := Demo.ST ]}).
      * vm_compute. reflexivity.
      * exists Demo.ST. vm_compute. reflexivity.
Defined.

(** ** A run that returns nil *)
Section Success.
Context {Schema : Type}.
Variable exec : string -> Schema -> option Schema.
Variable link : nat -> bool.
Implicit Types (c : Conn Schema) (d : gmap string Migration)
               (rows : list Migration) (order : map_order).

Lemma row_of_verified d mig : d !! Id mig = Some mig -> verified d (row_of mig).
Proof. intros H. by exists mig. Qed.

(** After a run of migrate.go that returned nil every desired id is
    recorded, and a recorded entry whose id is desired is verified. *)
Lemma Legacy_recorded order c migrations c1 :
  valid_order order ->
  NoDup (Id <$> changelog (committed c)) ->
  let d := Legacy.convertMigrationToMap migrations in
  Legacy.ExecuteMigration exec link order c migrations = (c1, Legacy.Done) ->
  (forall id, is_Some (d !! id) -> id ∈ Id <$> changelog (committed c1)) /\
  Forall (fun r => kept d r -> verified d r) (changelog (committed c1)).
Proof.
  intros Hv Hnd d Hrun.
  pose proof (convertMigrationToMap_keyed migrations) as Hk. fold d in Hk.
  set (rows := changelog (committed c)) in *.
  destruct (Legacy_converged exec link order c migrations c1 Hnd Hrun)
    as (Hver & pre' & Hsub & Hch). fold d rows in Hver, Hsub, Hch.
  rewrite Hch. split.
  - intros id [mig Hmig]. pose proof (Hk _ _ Hmig) as <-.
    rewrite !fmap_app, !elem_of_app.
    destruct (decide (Id mig ∈ Id <$> rows)) as [Hin|Hin].
    + right. right. apply list_elem_of_fmap in Hin as (x & Heq & Hx).
      rewrite Heq. apply list_elem_of_fmap_2, kept_in_below; [done|].
      exists mig. by rewrite <- Heq.
    + left. apply list_elem_of_fmap. exists (row_of mig). split; [done|].
      apply list_elem_of_In, in_rev. rewrite rev_involutive.
      apply list_elem_of_In, list_elem_of_fmap_2.
      by apply residual_elem.
  - rewrite !Forall_app. split_and!.
    + apply Forall_forall.
      intros x Hx%list_elem_of_In%in_rev%list_elem_of_In _.
      apply list_elem_of_fmap in Hx as (mig & -> & Hmig).
      apply residual_elem in Hmig as [Hmig _]; [|done..].
      by apply row_of_verified.
    + apply Forall_forall. intros x Hx [mx Hmx].
      apply (sublist_subseteq _ _ Hsub) in Hx.
      apply (proj1 (Forall_forall _ _) (lead_undesired d rows)) in Hx.
      unfold undesired in Hx. congruence.
    + eapply Forall_impl; [exact Hver|]. auto.
Qed.
End Success.

(** X15.  After a run that returned nil the changelog records the
    desired set.  For the service: the recorded ids are exactly the keys
    of the desired map and every recorded checksum is the desired one.
    For migrate.go, on a changelog with distinct ids: every desired id is
    recorded and every recorded entry with a desired id carries the
    desired checksum, but entries that are not desired may remain. *)
Theorem successful_run_records_desired_set {Schema : Type}
    (exec : string -> Schema -> option Schema) (link : nat -> bool)
    (json_decode : string -> option (list string))
    (Join : string -> string -> string)
    (order : map_order) (c c1 : Conn Schema) :
  valid_order order ->
  (forall m d,
     Service.getMigrations json_decode Join m = (d, None) ->
     Service.ExecuteMigration exec link json_decode Join order m c
       = (c1, None) ->
     (forall id, id ∈ Id <$> changelog (committed c1) <-> is_Some (d !! id)) /\
     Forall (verified d) (changelog (committed c1))) /\
  (forall migrations,
     NoDup (Id <$> changelog (committed c)) ->
     let d := Legacy.convertMigrationToMap migrations in
     Legacy.ExecuteMigration exec link order c migrations
       = (c1, Legacy.Done) ->
     (forall id, is_Some (d !! id) -> id ∈ Id <$> changelog (committed c1)) /\
     Forall (fun r => kept d r -> verified d r) (changelog (committed c1))).
Proof.
  intros Hv. split.
  - intros m d Hd Hrun.
    destruct (Service_converged exec link json_decode Join order m c d c1
                Hv Hd Hrun) as [Hver Hall].
    split; [|done]. intros id. split; [|apply Hall].
    intros (x & -> & Hx)%list_elem_of_fmap.
    apply (proj1 (Forall_forall _ _) Hver) in Hx. by apply verified_kept.
  - intros migrations Hnd d Hrun. by apply (Legacy_recorded exec link order c).
Qed.

Lemma successful_run_records_desired_set_witness :
  let d : gmap string Migration := {[ "T" := Demo.ST ]} in
  let s := (Service.ExecuteMigration Demo.exec Demo.online Demo.json_decode
              Demo.Join Demo.range (Demo.service ["T"]) Demo.both_applied).1 in
  (forall id, id ∈ Id <$> changelog (committed s) <-> is_Some (d !! id)) /\
  Forall (verified d) (changelog (committed s)).
Proof.
  intros d s.
  apply (proj1 (successful_run_records_desired_set Demo.exec Demo.online
                  Demo.json_decode Demo.Join Demo.range Demo.both_applied s
                  Demo_range_valid) (Demo.service ["T"]) d).
  - vm_compute. reflexivity.
  - vm_compute. reflexivity.
Defined.

(** X16.  The primary key of the changelog is an invariant of the runs:
    when the recorded ids are distinct before a run they are distinct
    after it, whatever the outcome, in both versions. *)
Theorem runs_keep_ids_distinct {Schema : Type}
    (exec : string -> Schema -> option Schema) (link : nat -> bool)
    (json_decode : string -> option (list string))
    (Join : string -> string -> string)
    (order : map_order) (c : Conn Schema) :
  NoDup (Id <$> changelog (committed c)) ->
  (forall migrations,
     NoDup (Id <$> changelog (committed
              (Legacy.ExecuteMigration exec link order c migrations).1))) /\
  (forall m,
     NoDup (Id <$> changelog (committed
              (Service.ExecuteMigration exec link json_decode Join
                 order m c).1))).
Proof.
  intros Hnd. split.
  - intros migrations. by apply Legacy_distinct.
  - intros m. by apply Service_distinct.
Qed.

Lemma runs_keep_ids_distinct_witness :
  NoDup (Id <$> changelog (committed
           (Legacy.ExecuteMigration Demo.exec Demo.online Demo.range
              Demo.one_applied [Demo.ST; Demo.ST2]).1)) /\
  NoDup (Id <$> changelog (committed
           (Service.ExecuteMigration Demo.exec Demo.online Demo.json_decode
              Demo.Join Demo.range (Demo.service ["T"; "T2"])
              Demo.one_applied).1)).
Proof.
  destruct (runs_keep_ids_distinct Demo.exec Demo.online Demo.json_decode
              Demo.Join Demo.range Demo.one_applied) as [HL HS].
  - apply (bool_decide_unpack _). vm_compute. exact I.
  - split; [apply HL | apply HS].
Defined.

(** ** A second run with the same desired set *)

(** X17.  The service is idempotent.  After a run that returned nil, a
    second run with the same configuration changes nothing in the
    database and sends no script, no INSERT and no DELETE, whatever the
    order in which either run ranges over the map; when the database
    answers, the second run sends the CREATE TABLE and the SELECT and
    returns nil. *)
Theorem Service_second_run_is_quiet {Schema : Type}
    (exec : string -> Schema -> option Schema) (link : nat -> bool)
    (json_decode : string -> option (list string))
    (Join : string -> string -> string)
    (order order' : map_order) (m : Service.MigrationService)
    (c : Conn Schema) (d : gmap string Migration) :
  valid_order order -> valid_order order' ->
  Service.getMigrations json_decode Join m = (d, None) ->
  let r1 := Service.ExecuteMigration exec link json_decode Join order m c in
  let r2 := Service.ExecuteMigration exec link json_decode Join order' m r1.1 in
  r1.2 = None ->
  committed r2.1 = committed r1.1 /\
  (exists l, log r2.1 = log r1.1 ++ l /\
             scripts l = [] /\ inserts l = [] /\ deletes l = []) /\
  (ready link r1.1 -> r2 = (prelude r1.1, None)).
Proof. apply Service_idempotent. Qed.

Lemma Service_second_run_is_quiet_witness :
  let r1 := Service.ExecuteMigration Demo.exec Demo.online Demo.json_decode
              Demo.Join Demo.range (Demo.service ["T"; "T2"])
              Demo.one_applied in
  let r2 := Service.ExecuteMigration Demo.exec Demo.online Demo.json_decode
              Demo.Join Demo.range (Demo.service ["T"; "T2"]) r1.1 in
  committed r2.1 = committed r1.1 /\
  (exists l, log r2.1 = log r1.1 ++ l /\
             scripts l = [] /\ inserts l = [] /\ deletes l = []) /\
  (ready Demo.online r1.1 -> r2 = (prelude r1.1, None)).
Proof.
  apply (Service_second_run_is_quiet Demo.exec Demo.online Demo.json_decode
           Demo.Join Demo.range Demo.range (Demo.service ["T"; "T2"])
           Demo.one_applied
           (Service.getMigrations Demo.json_decode Demo.Join
              (Demo.service ["T"; "T2"])).1
           Demo_range_valid Demo_range_valid).
  - vm_compute. reflexivity.
  - vm_compute. reflexivity.
Defined.

(** X18.  migrate.go is idempotent after a run that left no undesired
    entry behind.  On a changelog with distinct ids, after a run that
    returned nil and after which every recorded id is desired, a second
    run with the same slice on a database that answers sends the CREATE
    TABLE and the SELECT only, returns nil and changes nothing. *)
Theorem Legacy_second_run_is_quiet_when_reverted {Schema : Type}
    (exec : string -> Schema -> option Schema) (link : nat -> bool)
    (order order' : map_order) (c : Conn Schema)
    (migrations : list Migration) :
  valid_order order -> valid_order order' ->
  NoDup (Id <$> changelog (committed c)) ->
  let d := Legacy.convertMigrationToMap migrations in
  let r1 := Legacy.ExecuteMigration exec link order c migrations in
  let r2 := Legacy.ExecuteMigration exec link order' r1.1 migrations in
  r1.2 = Legacy.Done ->
  Forall (kept d) (changelog (committed r1.1)) ->
  ready link r1.1 ->
  r2 = (prelude r1.1, Legacy.Done).
Proof. apply Legacy_idempotent_when_reverted. Qed.

Lemma Legacy_second_run_is_quiet_when_reverted_witness :
  let r1 := Legacy.ExecuteMigration Demo.exec Demo.online Demo.range
              Demo.both_applied [Demo.ST] in
  let r2 := Legacy.ExecuteMigration Demo.exec Demo.online Demo.range
              r1.1 [Demo.ST] in
  r2 = (prelude r1.1, Legacy.Done).
Proof.
  apply (Legacy_second_run_is_quiet_when_reverted Demo.exec Demo.online
           Demo.range Demo.range Demo.both_applied [Demo.ST]
           Demo_range_valid Demo_range_valid).
  - apply (bool_decide_unpack _). vm_compute. exact I.
  - vm_compute. reflexivity.
  - vm_compute. repeat constructor. exists Demo.ST. vm_compute. reflexivity.
  - split; reflexivity.
Defined.

(** ** A run on which nothing fails *)
Section Progress.
Context {Schema : Type}.
Variable exec : string -> Schema -> option Schema.
Variable link : nat -> bool.
Implicit Types (c : Conn Schema) (d : gmap string Migration)
               (rows : list Migration) (order : map_order).

Ltac link_up H :=
  rewrite ?H by (rewrite ?length_app; simpl; lia).

Lemma executeSingleMigration_ok c m sc :
  (forall n, length (log c) <= n -> link n = true) ->
  exec (Script m) (schema (committed c)) = Some sc ->
  Id m ∉ Id <$> changelog (committed c) ->
  Service.executeSingleMigration exec link c m =
    (mkConn (mkDB (row_of m :: changelog (committed c)) sc)
            (log c ++ service_apply_tx m), None).
Proof.
  intros Hl He Hid%has_id_false. tx_unfold. link_up Hl. rewrite He. simpl.
  link_up Hl. rewrite Hid. simpl. link_up Hl. by rewrite <- !app_assoc.
Qed.

Lemma executeChangeLog_ok c m sc :
  (forall n, length (log c) <= n -> link n = true) ->
  exec (Script m) (schema (committed c)) = Some sc ->
  Id m ∉ Id <$> changelog (committed c) ->
  Legacy.executeChangeLog exec link c m =
    (mkConn (mkDB (row_of m :: changelog (committed c)) sc)
            (log c ++ legacy_apply_tx m), Legacy.Done).
Proof.
  intros Hl He Hid%has_id_false. tx_unfold. link_up Hl. rewrite Hid. simpl.
  link_up Hl. rewrite He. simpl. link_up Hl. by rewrite <- !app_assoc.
Qed.

Lemma apply_pending_all pending : forall c sc,
  (forall n, length (log c) <= n -> link n = true) ->
  NoDup (Id <$> pending) ->
  (forall mig, mig ∈ pending -> Id mig ∉ Id <$> changelog (committed c)) ->
  exec_all exec (Script <$> pending) (schema (committed c)) = Some sc ->
  Legacy.apply_pending exec link c pending =
    (mkConn (mkDB (rev (row_of <$> pending) ++ changelog (committed c)) sc)
            (log c ++ flat_map legacy_apply_tx pending), Legacy.Done).
Proof.
  induction pending as [|m pending IH]; intros c sc Hl Hnd Hnew He.
  - simpl in *. simplify_eq. rewrite app_nil_r. by destruct c as [[] ?].
  - rewrite fmap_cons in Hnd, He. apply NoDup_cons in Hnd as [Hm Hnd].
    simpl in He.
    destruct (exec (Script m) (schema (committed c))) as [sc1|] eqn:E;
      [|done].
    simpl. rewrite (executeChangeLog_ok c m sc1);
      [|done|done|apply Hnew, list_elem_of_here].
    rewrite (IH _ sc); simpl; [| |done| |done].
    + by rewrite <- !app_assoc.
    + intros n Hn. apply Hl. rewrite length_app in Hn. lia.
    + intros mig Hmig. rewrite not_elem_of_cons. split.
      * intros Heq. apply Hm. rewrite <- Heq. by apply list_elem_of_fmap_2.
      * by apply Hnew, list_elem_of_further.
Qed.

Lemma execute_pending_all existing ranged : forall c sc,
  (forall n, length (log c) <= n -> link n = true) ->
  let P := filter (fun m => Id m ∉ Id <$> existing) ranged in
  NoDup (Id <$> P) ->
  (forall mig, mig ∈ P -> Id mig ∉ Id <$> changelog (committed c)) ->
  exec_all exec (Script <$> P) (schema (committed c)) = Some sc ->
  Service.execute_pending exec link c existing ranged =
    (mkConn (mkDB (rev (row_of <$> P) ++ changelog (committed c)) sc)
            (log c ++ flat_map service_apply_tx P), None).
Proof.
  induction ranged as [|m ranged IH]; intros c sc Hl P Hnd Hnew He; subst P.
  - simpl in *. simplify_eq. rewrite app_nil_r. by destruct c as [[] ?].
  - simpl. destruct (has_id (Id m) existing) eqn:Hid.
    + apply has_id_true in Hid.
      rewrite filter_cons_False in * by tauto. by apply IH.
    + apply has_id_false in Hid.
      rewrite filter_cons_True in * by done.
      rewrite fmap_cons in Hnd, He. apply NoDup_cons in Hnd as [Hm Hnd].
      simpl in He.
      destruct (exec (Script m) (schema (committed c))) as [sc1|] eqn:E;
        [|done].
      rewrite (executeSingleMigration_ok c m sc1);
        [|done|done|apply Hnew, list_elem_of_here].
      rewrite (IH _ sc); simpl; [| |done| |done].
      * by rewrite <- !app_assoc.
      * intros n Hn. apply Hl. rewrite length_app in Hn. lia.
      * intros mig Hmig. rewrite not_elem_of_cons. split.
        -- intros Heq. apply Hm. rewrite <- Heq.
           by apply list_elem_of_fmap_2.
        -- by apply Hnew, list_elem_of_further.
Qed.

(** On a stack with distinct ids, the rows left when the ids of the lead
    are deleted are the rows from the newest kept one down. *)
Lemma filter_lead_below d rows :
  NoDup (Id <$> rows) ->
  filter (fun x => Id x ∉ Id <$> lead d rows) rows = below d rows.
Proof.
  intros Hnd.
  transitivity (filter (fun x => Id x ∉ Id <$> lead d rows)
                       (lead d rows ++ below d rows));
    [by rewrite lead_below|].
  rewrite filter_upper; [|by rewrite lead_below|done].
  by rewrite filter_all_gone.
Qed.
End Progress.

(** X19.  A run succeeds whenever it can.  On a changelog with distinct
    ids and a database that answers every statement, when every entry
    from the newest kept one down is verified and the revert scripts of
    the undesired entries on top of the stack, newest first, followed by
    the scripts of the pending migrations in the order of the range, run
    one after the other without a failure, a run of either version
    returns nil.  It has sent the CREATE TABLE, the SELECT, one
    transaction for each of these reverts and one for each of these
    applies, and nothing else; the changelog is then the rows of the
    pending migrations, the last applied first, on top of the entries
    from the newest kept one down, and the schema is the one the scripts
    have produced. *)
Theorem run_succeeds_when_scripts_do {Schema : Type}
    (exec : string -> Schema -> option Schema) (link : nat -> bool)
    (json_decode : string -> option (list string))
    (Join : string -> string -> string)
    (order : map_order) (c : Conn Schema) (sc : Schema) :
  valid_order order ->
  (forall n, length (log c) <= n -> link n = true) ->
  NoDup (Id <$> changelog (committed c)) ->
  let rows := changelog (committed c) in
  (forall migrations,
     let d := Legacy.convertMigrationToMap migrations in
     let P := order (residual d rows) in
     Forall (verified d) (below d rows) ->
     exec_all exec ((RevertScript <$> lead d rows) ++ (Script <$> P))
              (schema (committed c)) = Some sc ->
     Legacy.ExecuteMigration exec link order c migrations =
       (mkConn (mkDB (rev (row_of <$> P) ++ below d rows) sc)
               (log c ++ [SCreateTable; SSelect]
                  ++ flat_map legacy_revert_tx (lead d rows)
                  ++ flat_map legacy_apply_tx P),
        Legacy.Done)) /\
  (forall m d,
     Service.getMigrations json_decode Join m = (d, None) ->
     let P := filter (fun mig => Id mig ∉ Id <$> rows) (order d) in
     Forall (verified d) (below d rows) ->
     exec_all exec ((RevertScript <$> lead d rows) ++ (Script <$> P))
              (schema (committed c)) = Some sc ->
     Service.ExecuteMigration exec link json_decode Join order m c =
       (mkConn (mkDB (rev (row_of <$> P) ++ below d rows) sc)
               (log c ++ [SCreateTable; SSelect]
                  ++ flat_map service_revert_tx (lead d rows)
                  ++ flat_map service_apply_tx P),
        None)).
Proof.
  intros Hv Hl Hnd rows.
  assert (Hl' : forall n, length (log (prelude c)) <= n -> link n = true).
  { intros n Hn. apply Hl. simpl in Hn. rewrite !length_app in Hn. lia. }
  assert (Hin : forall d x, x ∈ below d rows -> x ∈ rows).
  { intros d x Hx. rewrite <- (lead_below d rows). apply elem_of_app.
    by right. }
  split.
  - intros migrations d P Hver He.
    pose proof (convertMigrationToMap_keyed migrations) as Hk. fold d in Hk.
    rewrite exec_all_app in He.
    destruct (exec_all exec (RevertScript <$> lead d rows) _) as [sc1|] eqn:E1;
      [|done].
    rewrite Legacy_run by by apply ready_up. fold d rows.
    pose proof (walk_phases exec link d rows (prelude c) Hnd) as Hw.
    rewrite (legacy_reverts_all _ _ _ (prelude c) sc1) in Hw by done.
    simpl in Hw. fold rows in Hw.
    rewrite (filter_lead_below d rows Hnd) in Hw.
    destruct (Legacy.walk exec link (prelude c) d false rows)
      as [[c3 pend] o3].
    simpl in Hw. destruct Hw as (-> & -> & Hres).
    assert (legacy_verdict d (below d rows) = Legacy.Done) as Hdone.
    { rewrite <- (app_nil_r (below d rows)).
      by rewrite legacy_verdict_verified. }
    rewrite Hdone, (Hres Hdone), residual_below. fold P.
    rewrite (apply_pending_all exec link P _ sc); simpl.
    + by rewrite <- !app_assoc.
    + intros n Hn. apply Hl. rewrite !length_app in *. simpl in *. lia.
    + apply order_NoDup; auto using residual_keyed.
    + intros mig Hmig. apply residual_elem in Hmig as [_ Hmig]; [|done..].
      intros (x & Heq & Hx)%list_elem_of_fmap. apply Hmig.
      rewrite Heq. by apply list_elem_of_fmap_2, (Hin d).
    + done.
  - intros m d Hd P Hver He.
    pose proof (getMigrations_keyed _ _ _ _ Hd) as Hk.
    rewrite exec_all_app in He.
    destruct (exec_all exec (RevertScript <$> lead d rows) _) as [sc1|] eqn:E1;
      [|done].
    rewrite (Service_run _ _ _ _ _ _ _ d) by (by try apply ready_up).
    rewrite check_loop_phases. fold rows.
    rewrite (service_reverts_all _ _ _ (prelude c) sc1) by done.
    simpl. fold rows. rewrite (filter_lead_below d rows Hnd).
    assert (service_verdict d (below d rows) = None) as ->.
    { rewrite <- (app_nil_r (below d rows)).
      by rewrite service_verdict_verified. }
    rewrite (execute_pending_all exec link rows (order d) _ sc); simpl;
      fold P.
    + by rewrite <- !app_assoc.
    + intros n Hn. apply Hl. rewrite !length_app in *. simpl in *. lia.
    + apply filter_NoDup_ids, order_NoDup; done.
    + intros mig Hmig. apply filtered_elem in Hmig as [_ Hmig]; [|done..].
      intros (x & Heq & Hx)%list_elem_of_fmap. apply Hmig.
      rewrite Heq. by apply list_elem_of_fmap_2, (Hin d).
    + done.
Qed.

Lemma run_succeeds_when_scripts_do_witness :
  let c := Demo.both_applied in
  let rows := changelog (committed c) in
  let d := Legacy.convertMigrationToMap [Demo.ST; Demo.T0] in
  let PL := Demo.range (residual d rows) in
  let d' : gmap string Migration := {[ "T" := Demo.ST ]} in
  let PS := filter (fun mig => Id mig ∉ Id <$> rows) (Demo.range d') in
  Legacy.ExecuteMigration Demo.exec Demo.online Demo.range c
      [Demo.ST; Demo.T0] =
    (mkConn (mkDB (rev (row_of <$> PL) ++ below d rows) ["t0"; "t"])
       (log c ++ [SCreateTable; SSelect]
          ++ flat_map legacy_revert_tx (lead d rows)
          ++ flat_map legacy_apply_tx PL),
     Legacy.Done) /\
  Service.ExecuteMigration Demo.exec Demo.online Demo.json_decode Demo.Join
      Demo.range (Demo.service ["T"]) c =
    (mkConn (mkDB (rev (row_of <$> PS) ++ below d' rows) ["t"])
       (log c ++ [SCreateTable; SSelect]
          ++ flat_map service_revert_tx (lead d' rows)
          ++ flat_map service_apply_tx PS),
     None).
Proof.
  intros c rows d PL d' PS.
  assert (Hnd : NoDup (Id <$> changelog (committed c)))
    by (apply (bool_decide_unpack _); vm_compute; exact I).
  split.
  - destruct (run_succeeds_when_scripts_do Demo.exec Demo.online
                Demo.json_decode Demo.Join Demo.range c ["t0"; "t"]
                Demo_range_valid (fun _ _ => eq_refl) Hnd) as [HL _].
    apply (HL [Demo.ST; Demo.T0]).
    + vm_compute. repeat constructor. eexists. split; reflexivity.
    + vm_compute. reflexivity.
  - destruct (run_succeeds_when_scripts_do Demo.exec Demo.online
                Demo.json_decode Demo.Join Demo.range c ["t"]
                Demo_range_valid (fun _ _ => eq_refl) Hnd) as [_ HS].
    apply (HS (Demo.service ["T"]) d').
    + vm_compute. reflexivity.
    + vm_compute. repeat constructor. eexists. split; reflexivity.
    + vm_compute. reflexivity.
Defined.

(** ** The transactions of a run *)
Section Brackets.
Context {Schema : Type}.
Variable exec : string -> Schema -> option Schema.
Variable link : nat -> bool.
Variable json_decode : string -> option (list string).
Variable Join : string -> string -> string.
Implicit Types (c : Conn Schema) (d : gmap string Migration)
               (rows : list Migration) (order : map_order) (l : list stmt).

Lemma times_app s l1 l2 : times s (l1 ++ l2) = times s l1 + times s l2.
Proof. apply count_occ_app. Qed.

Lemma closed_app l1 l2 : closed l1 -> closed l2 -> closed (l1 ++ l2).
Proof. unfold closed. rewrite !times_app. lia. Qed.

Lemma closed_nil : closed [].
Proof. done. Qed.

Lemma bracketed_nil start : bracketed link start [] None.
Proof. by left. Qed.

Lemma bracketed_app start l1 l2 res :
  bracketed link start l1 None -> bracketed link (start ++ l1) l2 res ->
  bracketed link start (l1 ++ l2) res.
Proof.
  intros [[Hc1 Hr1]|(l0 & _ & _ & _ & [=])].
  intros [[Hc2 Hr2]|(l0 & -> & Hc0 & Hl & ->)].
  - left. split; [by apply closed_app|].
    intros Hres. rewrite times_app, (Hr1 eq_refl), (Hr2 Hres). done.
  - right. exists (l1 ++ l0). rewrite <- !app_assoc in *.
    split_and!; [done|by apply closed_app|done|done].
Qed.

Lemma revertSingleMigration_bracketed c r :
  match Service.revertSingleMigration exec link c r with
  | (c', res) =>
      exists l, log c' = log c ++ l /\ bracketed link (log c) l res
  end.
Proof.
  unfold bracketed, closed, times.
  tx_cases; eexists; (split; [reflexivity|]); simpl;
    try (left; split; [reflexivity|]; by intros);
    right; exists []; rewrite app_nil_r; by split_and!.
Qed.

Lemma executeSingleMigration_bracketed c m :
  match Service.executeSingleMigration exec link c m with
  | (c', res) =>
      exists l, log c' = log c ++ l /\ bracketed link (log c) l res
  end.
Proof.
  unfold bracketed, closed, times.
  tx_cases; eexists; (split; [reflexivity|]); simpl;
    try (left; split; [reflexivity|]; by intros);
    right; exists []; rewrite app_nil_r; by split_and!.
Qed.
Lemma bracketed_weaken start l res :
  bracketed link start l None -> bracketed link start l res.
Proof.
  intros [[Hc Hr]|(l0 & _ & _ & _ & [=])]. left. split; [done|].
  intros _. by apply Hr.
Qed.

Lemma service_reverts_bracketed rows : forall c,
  match service_reverts exec link c rows with
  | (c', res) =>
      exists l, log c' = log c ++ l /\ bracketed link (log c) l res
  end.
Proof.
  induction rows as [|r rows IH]; intros c; simpl.
  - exists []. rewrite app_nil_r. split; [done|apply bracketed_nil].
  - pose proof (revertSingleMigration_bracketed c r) as Hr.
    destruct (Service.revertSingleMigration exec link c r) as [c1 [e|]];
      [done|].
    destruct Hr as (l1 & Hl1 & Hb1). specialize (IH c1).
    destruct (service_reverts exec link c1 rows) as [c' res].
    destruct IH as (l2 & Hl2 & Hb2). exists (l1 ++ l2).
    rewrite Hl2, Hl1, <- app_assoc. split; [done|].
    apply bracketed_app; [done|]. by rewrite <- Hl1.
Qed.

Lemma execute_pending_bracketed existing ranged : forall c,
  match Service.execute_pending exec link c existing ranged with
  | (c', res) =>
      exists l, log c' = log c ++ l /\ bracketed link (log c) l res
  end.
Proof.
  induction ranged as [|m ranged IH]; intros c; simpl.
  - exists []. rewrite app_nil_r. split; [done|apply bracketed_nil].
  - destruct (has_id (Id m) existing); [apply IH|].
    pose proof (executeSingleMigration_bracketed c m) as Hm.
    destruct (Service.executeSingleMigration exec link c m) as [c1 [e|]];
      [done|].
    destruct Hm as (l1 & Hl1 & Hb1). specialize (IH c1).
    destruct (Service.execute_pending exec link c1 existing ranged)
      as [c' res].
    destruct IH as (l2 & Hl2 & Hb2). exists (l1 ++ l2).
    rewrite Hl2, Hl1, <- app_assoc. split; [done|].
    apply bracketed_app; [done|]. by rewrite <- Hl1.
Qed.

Lemma bracketed_quiet start l res :
  times SBegin l = 0 -> times SCommit l = 0 -> times SRollback l = 0 ->
  bracketed link start l res.
Proof. intros Hb Hc Hr. left. unfold closed. by rewrite Hb, Hc, Hr. Qed.








End Brackets.

(** X20.  The service ends every transaction it begins.  In the
    statements of a run, whatever its outcome, there are as many BEGINs as
    COMMITs and ROLLBACKs together, and no ROLLBACK at all when the run
    returns nil; the one exception is a run whose last statement is a
    BEGIN that the database did not answer, which opens no transaction:
    the error of this BEGIN is then the result of the run. *)
Theorem Service_ends_every_transaction {Schema : Type}
    (exec : string -> Schema -> option Schema) (link : nat -> bool)
    (json_decode : string -> option (list string))
    (Join : string -> string -> string)
    (order : map_order) (m : Service.MigrationService) (c : Conn Schema) :
  let r := Service.ExecuteMigration exec link json_decode Join order m c in
  exists l,
    log r.1 = log c ++ l /\
    ((times SBegin l = times SCommit l + times SRollback l /\
      (r.2 = None -> times SRollback l = 0)) \/
     (exists l0,
        l = l0 ++ [SBegin] /\
        times SBegin l0 = times SCommit l0 + times SRollback l0 /\
        link (length (log c ++ l0)) = false /\
        r.2 = Some (Driver SBegin))).
Proof.
  intros r. subst r.
  unfold Service.ExecuteMigration, Service.prepareDatabase,
    Service.getExistingMigrations, Service.checkExistingChangelogs,
    create_table, select_changelog, up, send. simpl.
  destruct (link (length (log c))); simpl;
    [|exists [SCreateTable]; split; [done|by apply bracketed_quiet]].
  destruct (Service.getMigrations json_decode Join m) as [d [e|]]; simpl;
    [exists [SCreateTable]; split; [done|by apply bracketed_quiet]|].
  destruct (link (length (log c ++ [SCreateTable]))); simpl.
  2:{ exists [SCreateTable; SSelect]. rewrite <- app_assoc.
      split; [done|by apply bracketed_quiet]. }
  set (c2 := mkConn (committed c) ((log c ++ [SCreateTable]) ++ [SSelect])).
  assert (Hpre : bracketed link (log c) [SCreateTable; SSelect] None)
    by (by apply bracketed_quiet).
  assert (Hc2 : log c2 = log c ++ [SCreateTable; SSelect])
    by (simpl; by rewrite <- app_assoc).
  rewrite check_loop_phases.
  pose proof (service_reverts_bracketed exec link
                (lead d (changelog (committed c))) c2) as Hs.
  destruct (service_reverts exec link c2 _) as [c' res].
  destruct Hs as (l1 & Hl1 & Hb1). rewrite Hc2 in Hl1, Hb1.
  assert (Hrev : forall res', res = None \/ res' = res ->
            exists l, log c' = log c ++ l /\ bracketed link (log c) l res').
  { intros res' Hres. exists ([SCreateTable; SSelect] ++ l1).
    rewrite Hl1, <- app_assoc. split; [done|].
    apply bracketed_app; [done|].
    destruct Hres as [->| ->]; [by apply bracketed_weaken|done]. }
  destruct res as [e|]; simpl; [by apply Hrev; right|].
  destruct (service_verdict d _) as [e|]; simpl; [by apply Hrev; left|].
  pose proof (execute_pending_bracketed exec link
                (changelog (committed c))
                (order d) c') as Ha.
  destruct (Service.execute_pending exec link c' _ _) as [c4 res4].
  destruct Ha as (l2 & Hl2 & Hb2). simpl.
  exists (([SCreateTable; SSelect] ++ l1) ++ l2). split.
  - rewrite Hl2, Hl1. by rewrite <- !app_assoc.
  - apply bracketed_app; [by apply bracketed_app|].
    by rewrite app_assoc, <- Hl1.
Qed.


(** X22.  In the service a revert that fails ends the run at once.  When
    the reverts of the undesired entries on top of the stack went through
    up to an entry whose revert fails, the run returns the error of this
    revert; the connection is the one this revert left, so that nothing
    was sent after its ROLLBACK, neither for the older entries nor for
    the pending migrations, and the database is the one the reverts
    before it had committed. *)
Theorem Service_propagates_failed_revert {Schema : Type}
    (exec : string -> Schema -> option Schema) (link : nat -> bool)
    (json_decode : string -> option (list string))
    (Join : string -> string -> string)
    (order : map_order) (m : Service.MigrationService) (c : Conn Schema)
    (d : gmap string Migration) (pre : list Migration) (u : Migration)
    (rest : list Migration) (c1 c2 : Conn Schema) (err : error) :
  ready link c ->
  Service.getMigrations json_decode Join m = (d, None) ->
  changelog (committed c) = pre ++ u :: rest ->
  Forall (undesired d) pre -> undesired d u ->
  service_reverts exec link (prelude c) pre = (c1, None) ->
  Service.revertSingleMigration exec link c1 u = (c2, Some err) ->
  Service.ExecuteMigration exec link json_decode Join order m c
    = (c2, Some err) /\
  committed c2 = committed c1.
Proof. apply Service_failed_revert_aborts. Qed.

Lemma Service_propagates_failed_revert_witness :
  let c1 := prelude Demo.stale in
  let c2 := (Service.revertSingleMigration Demo.exec Demo.online c1
               (row_of Demo.T2)).1 in
  Service.ExecuteMigration Demo.exec Demo.online Demo.json_decode Demo.Join
      Demo.range (Demo.service []) Demo.stale
    = (c2, Some (Wrap "failed to execute revert script"
                      (Driver (SScript "DROP TABLE t2")))) /\
  committed c2 = committed c1.
Proof.
  intros c1 c2.
  apply (Service_propagates_failed_revert Demo.exec Demo.online
           Demo.json_decode Demo.Join Demo.range (Demo.service [])
           Demo.stale ∅ [] (row_of Demo.T2) [row_of Demo.T] c1 c2).
  - split; reflexivity.
  - vm_compute. reflexivity.
  - reflexivity.
  - constructor.
  - reflexivity.
  - reflexivity.
  - vm_compute. reflexivity.
Defined.

(** ** The checksum loses nothing of the digest *)
Section Encoding.

Lemma position_hex_digit (n : N) :
  (n < 16)%N -> N.of_nat (position (hex_digit n) hextable) = n.
Proof.
  intros Hn.
  assert (Hall : forallb (fun k => N.eqb (N.of_nat
                    (position (hex_digit (N.of_nat k)) hextable))
                    (N.of_nat k)) (seq 0 16) = true) by (by vm_compute).
  rewrite forallb_forall in Hall.
  specialize (Hall (N.to_nat n)). rewrite N2Nat.id in Hall.
  apply N.eqb_eq, Hall, in_seq. lia.
Qed.

Lemma hex_digit_inj (n k : N) :
  (n < 16)%N -> (k < 16)%N -> hex_digit n = hex_digit k -> n = k.
Proof.
  intros Hn Hk Heq.
  rewrite <- (position_hex_digit n), <- (position_hex_digit k) by done.
  by rewrite Heq.
Qed.

Lemma hex_byte_inj (a b : ascii) :
  hex_digit (N_of_ascii a / 16) = hex_digit (N_of_ascii b / 16) ->
  hex_digit (N_of_ascii a mod 16) = hex_digit (N_of_ascii b mod 16) ->
  a = b.
Proof.
  intros Hhi Hlo.
  assert (N_of_ascii a < 256)%N by apply N_ascii_bounded.
  assert (N_of_ascii b < 256)%N by apply N_ascii_bounded.
  apply hex_digit_inj in Hhi;
    [|apply N.Div0.div_lt_upper_bound; lia..].
  apply hex_digit_inj in Hlo; [|apply N.mod_lt; lia..].
  rewrite <- (ascii_N_embedding a), <- (ascii_N_embedding b).
  f_equal.
  rewrite (N.div_mod (N_of_ascii a) 16), (N.div_mod (N_of_ascii b) 16)
    by lia.
  by rewrite Hhi, Hlo.
Qed.

Lemma string_of_list_ascii_inj (l1 l2 : list ascii) :
  string_of_list_ascii l1 = string_of_list_ascii l2 -> l1 = l2.
Proof.
  intros H. apply (f_equal list_ascii_of_string) in H.
  by rewrite !list_ascii_of_string_of_list_ascii in H.
Qed.

Lemma hex_EncodeToString_inj (src1 src2 : list ascii) :
  hex_EncodeToString src1 = hex_EncodeToString src2 -> src1 = src2.
Proof.
  unfold hex_EncodeToString. intros H%string_of_list_ascii_inj.
  revert src2 H. induction src1 as [|a src1 IH]; intros [|b src2] H;
    simpl in H; try done.
  injection H as Hhi Hlo H. f_equal; [by apply hex_byte_inj | by apply IH].
Qed.
End Encoding.

(** X23.  The checksum loses nothing of the digest.  Two migrations that
    [extractMigration] returns carry the same checksum exactly when the
    MD5 digests of their scripts are the same, and so do two strings
    that [generateHash] returns: neither the hexadecimal encoding of the
    service nor the conversion of the bytes to a string in migrate.go
    makes two digests alike. *)
Theorem equal_checksums_mean_equal_digests
    (Join : string -> string -> string) :
  (forall m id1 id2 mig1 mig2,
     Service.extractMigration Join m id1 = inl mig1 ->
     Service.extractMigration Join m id2 = inl mig2 ->
     Checksum mig1 = Checksum mig2 <->
     MD5.Sum (Script mig1) = MD5.Sum (Script mig2)) /\
  (forall s1 s2,
     Legacy.generateHash s1 = Legacy.generateHash s2 <->
     MD5.Sum s1 = MD5.Sum s2).
Proof.
  split.
  - intros m id1 id2 mig1 mig2
           (_ & _ & _ & ->)%extractMigration_inl
           (_ & _ & _ & ->)%extractMigration_inl.
    split; [apply hex_EncodeToString_inj | by intros ->].
  - intros s1 s2. unfold Legacy.generateHash.
    split; [apply string_of_list_ascii_inj | by intros ->].
Qed.

Lemma equal_checksums_mean_equal_digests_witness :
  Checksum Demo.ST = Checksum Demo.ST2 <->
  MD5.Sum (Script Demo.ST) = MD5.Sum (Script Demo.ST2).
Proof.
  apply (proj1 (equal_checksums_mean_equal_digests Demo.Join)
           (Demo.service []) "T" "T2").
  - vm_compute. reflexivity.
  - vm_compute. reflexivity.
Defined.

(** ** The two versions side by side *)
Section Simulation.
Context {Schema : Type}.
Variable exec : string -> Schema -> option Schema.
Variable link : nat -> bool.
Implicit Types (c : Conn Schema) (d : gmap string Migration)
               (rows : list Migration) (order : map_order).

Ltac sim_cases :=
  intros [Hdb Hlen];
  match goal with
  | cL : Conn Schema, cS : Conn Schema |- _ =>
      destruct cL as [dbL lL], cS as [dbS lS]
  end;
  simpl in Hdb, Hlen; subst;
  unfold alike; tx_unfold; rewrite ?length_app; simpl; rewrite ?Hlen;
  intros H; repeat (case_match; simplify_eq/=);
  eexists; (split; [reflexivity|]); simpl;
  (split; [done|]); rewrite ?length_app; simpl; lia.

Lemma apply_sim cL cS m cS' :
  alike cL cS ->
  Service.executeSingleMigration exec link cS m = (cS', None) ->
  exists cL',
    Legacy.executeChangeLog exec link cL m = (cL', Legacy.Done) /\
    alike cL' cS'.
Proof. revert cL cS. intros cL cS. sim_cases. Qed.

Lemma revert_sim cL cS r cS' :
  alike cL cS ->
  Service.revertSingleMigration exec link cS r = (cS', None) ->
  exists cL',
    Legacy.revertScript exec link cL r = (cL', Legacy.Done) /\
    alike cL' cS'.
Proof. revert cL cS. intros cL cS. sim_cases. Qed.
Lemma alike_refl c : alike c c.
Proof. by split. Qed.

Lemma reverts_sim rows : forall cL cS cS',
  alike cL cS ->
  service_reverts exec link cS rows = (cS', None) ->
  exists cL',
    legacy_reverts exec link cL rows = (cL', Legacy.Done) /\ alike cL' cS'.
Proof.
  induction rows as [|r rows IH]; intros cL cS cS' Ha H; simpl in *.
  - simplify_eq. eauto.
  - destruct (Service.revertSingleMigration exec link cS r)
      as [c1 [e|]] eqn:Hr; [done|].
    destruct (revert_sim cL cS r c1 Ha Hr) as (cL1 & -> & Ha1).
    by apply (IH cL1 c1).
Qed.

Lemma applies_sim existing ranged : forall cL cS cS',
  alike cL cS ->
  Service.execute_pending exec link cS existing ranged = (cS', None) ->
  exists cL',
    Legacy.apply_pending exec link cL
      (filter (fun m => Id m ∉ Id <$> existing) ranged)
      = (cL', Legacy.Done) /\
    alike cL' cS'.
Proof.
  induction ranged as [|m ranged IH]; intros cL cS cS' Ha H; simpl in *.
  - simplify_eq. eauto.
  - destruct (has_id (Id m) existing) eqn:Hid.
    + apply has_id_true in Hid. rewrite filter_cons_False by tauto.
      by apply (IH cL cS).
    + apply has_id_false in Hid. rewrite filter_cons_True by done.
      destruct (Service.executeSingleMigration exec link cS m)
        as [c1 [e|]] eqn:Hm; [done|].
      destruct (apply_sim cL cS m c1 Ha Hm) as (cL1 & Hl & Ha1).
      simpl. rewrite Hl. by apply (IH cL1 c1).
Qed.
(** One apply in the two versions, whatever happens: the committed
    databases stay the same and the two calls succeed together. *)
Lemma apply_sim_any cL cS m :
  alike cL cS ->
  match Legacy.executeChangeLog exec link cL m,
        Service.executeSingleMigration exec link cS m with
  | (cL', o), (cS', res) =>
      committed cL' = committed cS' /\
      (o = Legacy.Done <-> res = None) /\
      (o = Legacy.Done -> alike cL' cS')
  end.
Proof.
  intros [Hdb Hlen]. destruct cL as [dbL lL], cS as [dbS lS].
  simpl in Hdb, Hlen. subst.
  unfold alike. tx_unfold. rewrite ?length_app. simpl. rewrite ?Hlen.
  repeat (case_match; simplify_eq/=); try congruence;
    (split; [done|]); (split; [split; by intros|]); try done;
    intros _; split; [done|]; rewrite ?length_app; simpl; lia.
Qed.

Lemma applies_sim_any existing ranged : forall cL cS,
  alike cL cS ->
  match Legacy.apply_pending exec link cL
          (filter (fun m => Id m ∉ Id <$> existing) ranged),
        Service.execute_pending exec link cS existing ranged with
  | (cL', o), (cS', res) =>
      committed cL' = committed cS' /\ (o = Legacy.Done <-> res = None)
  end.
Proof.
  induction ranged as [|m ranged IH]; intros cL cS Ha; simpl.
  - by destruct Ha.
  - destruct (has_id (Id m) existing) eqn:Hid.
    + apply has_id_true in Hid. rewrite filter_cons_False by tauto.
      by apply IH.
    + apply has_id_false in Hid. rewrite filter_cons_True by done.
      simpl. pose proof (apply_sim_any cL cS m Ha) as Hm.
      destruct (Legacy.executeChangeLog exec link cL m) as [cL1 o1].
      destruct (Service.executeSingleMigration exec link cS m)
        as [cS1 res1].
      destruct Hm as (Hdb & Hiff & Halike).
      destruct o1 as [|e|], res1 as [e'|]; simpl;
        try (by discriminate (proj1 Hiff eq_refl));
        try (by discriminate (proj2 Hiff eq_refl));
        try (split; [done|]; split; by intros).
      by apply IH, Halike.
Qed.

Lemma verdicts_agree d rows :
  legacy_verdict d rows = Legacy.Done <-> service_verdict d rows = None.
Proof.
  induction rows as [|r rows IH]; simpl; [done|].
  destruct (d !! Id r); [|done]. by destruct (String.eqb _ _).
Qed.
End Simulation.

(** X24.  migrate.go accepts what the service accepts.  On a changelog
    with distinct ids, for the same desired set and when the two ranges
    yield the pending migrations in the same order: if a run of the
    service returns nil, the run of migrate.go on the same connection
    returns nil as well, leaves the same database and has sent as many
    statements.  The converse does not hold, since migrate.go goes on
    after a revert that failed. *)
Theorem Legacy_succeeds_where_Service_does {Schema : Type}
    (exec : string -> Schema -> option Schema) (link : nat -> bool)
    (json_decode : string -> option (list string))
    (Join : string -> string -> string)
    (order : map_order) (m : Service.MigrationService) (c cS : Conn Schema)
    (migrations : list Migration) :
  NoDup (Id <$> changelog (committed c)) ->
  let d := Legacy.convertMigrationToMap migrations in
  let rows := changelog (committed c) in
  Service.getMigrations json_decode Join m = (d, None) ->
  order (residual d rows)
    = filter (fun mig => Id mig ∉ Id <$> rows) (order d) ->
  Service.ExecuteMigration exec link json_decode Join order m c
    = (cS, None) ->
  exists cL,
    Legacy.ExecuteMigration exec link order c migrations
      = (cL, Legacy.Done) /\
    committed cL = committed cS /\
    length (log cL) = length (log cS).
Proof.
  intros Hnd d rows Hd Horder Hrun.
  destruct (decide (ready link c)) as [Hrdy|Hn].
  2:{ destruct (Service_not_ready exec link json_decode Join order m c d Hn Hd)
        as (e & l & Heq & _). congruence. }
  rewrite (Service_run _ _ _ _ _ _ _ d), check_loop_phases in Hrun by done.
  fold rows in Hrun.
  destruct (service_reverts exec link (prelude c) (lead d rows))
    as [c' [e|]] eqn:Hrev; [done|].
  destruct (service_verdict d (below d rows)) as [e|] eqn:Hver; [done|].
  apply service_verdict_None in Hver.
  destruct (reverts_sim exec link _ (prelude c) (prelude c) c'
              (alike_refl _) Hrev) as (cL1 & HrevL & Ha1).
  destruct (applies_sim exec link _ _ cL1 c' cS Ha1 Hrun)
    as (cL & HappL & HaL).
  exists cL. split; [|exact HaL].
  rewrite Legacy_run by done. fold d rows.
  pose proof (walk_phases exec link d rows (prelude c) Hnd) as Hw.
  rewrite HrevL in Hw.
  destruct (Legacy.walk exec link (prelude c) d false rows)
    as [[c3 pend] o3].
  simpl in Hw. destruct Hw as (-> & -> & Hres).
  assert (legacy_verdict d (below d rows) = Legacy.Done) as Hdone.
  { rewrite <- (app_nil_r (below d rows)).
    by rewrite legacy_verdict_verified. }
  rewrite Hdone, (Hres Hdone), residual_below, Horder. exact HappL.
Qed.

Lemma Legacy_succeeds_where_Service_does_witness :
  let cS := (Service.ExecuteMigration Demo.exec Demo.online Demo.json_decode
               Demo.Join Demo.range (Demo.service ["T"; "T2"])
               Demo.one_applied).1 in
  exists cL,
    Legacy.ExecuteMigration Demo.exec Demo.online Demo.range
        Demo.one_applied [Demo.ST; Demo.ST2]
      = (cL, Legacy.Done) /\
    committed cL = committed cS /\
    length (log cL) = length (log cS).
Proof.
  intros cS.
  apply (Legacy_succeeds_where_Service_does Demo.exec Demo.online
           Demo.json_decode Demo.Join Demo.range (Demo.service ["T"; "T2"])
           Demo.one_applied cS [Demo.ST; Demo.ST2]).
  - apply (bool_decide_unpack _). vm_compute. exact I.
  - vm_compute. reflexivity.
  - vm_compute. reflexivity.
  - vm_compute. reflexivity.
Defined.

(** X25.  With nothing to revert the two versions agree.  On a changelog
    with distinct ids whose newest entry is desired, or which is empty,
    for the same desired set and when the two ranges yield the pending
    migrations in the same order, a run of migrate.go and a run of the
    service on the same connection leave the same database, whatever
    fails, and one returns nil exactly when the other does. *)
Theorem versions_agree_without_reverts {Schema : Type}
    (exec : string -> Schema -> option Schema) (link : nat -> bool)
    (json_decode : string -> option (list string))
    (Join : string -> string -> string)
    (order : map_order) (m : Service.MigrationService) (c : Conn Schema)
    (migrations : list Migration) :
  NoDup (Id <$> changelog (committed c)) ->
  let d := Legacy.convertMigrationToMap migrations in
  let rows := changelog (committed c) in
  Service.getMigrations json_decode Join m = (d, None) ->
  order (residual d rows)
    = filter (fun mig => Id mig ∉ Id <$> rows) (order d) ->
  lead d rows = [] ->
  let rL := Legacy.ExecuteMigration exec link order c migrations in
  let rS := Service.ExecuteMigration exec link json_decode Join order m c in
  committed rL.1 = committed rS.1 /\
  (rL.2 = Legacy.Done <-> rS.2 = None).
Proof.
  intros Hnd d rows Hd Horder Hlead rL rS. subst rL rS.
  destruct (decide (ready link c)) as [Hrdy|Hn].
  2:{ destruct (Service_not_ready exec link json_decode Join order m c d Hn Hd)
        as (e & l & -> & _).
      destruct (Legacy_not_ready exec link order c migrations Hn)
        as (e' & l' & -> & _).
      simpl. split; [done|]. split; by intros. }
  rewrite Legacy_run, (Service_run _ _ _ _ _ _ _ d) by done.
  rewrite check_loop_phases. fold d rows.
  pose proof (walk_phases exec link d rows (prelude c) Hnd) as Hw.
  rewrite Hlead in *. simpl in Hw |- *.
  destruct (Legacy.walk exec link (prelude c) d false rows)
    as [[c3 pend] o3].
  simpl in Hw. destruct Hw as (-> & -> & Hres).
  pose proof (verdicts_agree d (below d rows)) as Hv.
  destruct (legacy_verdict d (below d rows)) as [|e|] eqn:HvL;
    destruct (service_verdict d (below d rows)) as [e'|] eqn:HvS; simpl;
    try (by discriminate (proj1 Hv eq_refl));
    try (by discriminate (proj2 Hv eq_refl));
    try (split; [done|]; split; by intros).
  rewrite (Hres eq_refl), residual_below, Horder.
  pose proof (applies_sim_any exec link rows (order d) (prelude c)
                (prelude c) (alike_refl _)) as Ha.
  destruct (Legacy.apply_pending exec link (prelude c) _) as [cL o].
  destruct (Service.execute_pending exec link (prelude c) rows (order d))
    as [cS res].
  exact Ha.
Qed.

Lemma versions_agree_without_reverts_witness :
  let rL := Legacy.ExecuteMigration Demo.exec Demo.online Demo.range
              Demo.one_applied [Demo.ST; Demo.ST2] in
  let rS := Service.ExecuteMigration Demo.exec Demo.online Demo.json_decode
              Demo.Join Demo.range (Demo.service ["T"; "T2"])
              Demo.one_applied in
  committed rL.1 = committed rS.1 /\
  (rL.2 = Legacy.Done <-> rS.2 = None).
Proof.
  apply (versions_agree_without_reverts Demo.exec Demo.online
           Demo.json_decode Demo.Join Demo.range (Demo.service ["T"; "T2"])
           Demo.one_applied [Demo.ST; Demo.ST2]).
  - apply (bool_decide_unpack _). vm_compute. exact I.
  - vm_compute. reflexivity.
  - vm_compute. reflexivity.
  - vm_compute. reflexivity.
Defined.

(** X26.  The service rejects a changelog written with the checksums of
    migrate.go.  When the changelog holds an entry whose id is desired
    and whose recorded checksum is a string that [generateHash] returns,
    as the entries applied from the migrations of [ReadChangeLogFile]
    are, no run of the service returns nil: the recorded sixteen bytes
    are never the thirty-two digits the service computes, whatever the
    scripts are. *)
Theorem Service_rejects_raw_digest_entries {Schema : Type}
    (exec : string -> Schema -> option Schema) (link : nat -> bool)
    (json_decode : string -> option (list string))
    (Join : string -> string -> string)
    (order : map_order) (m : Service.MigrationService) (c : Conn Schema)
    (d : gmap string Migration) (x : Migration) (script : string) :
  valid_order order ->
  Service.getMigrations json_decode Join m = (d, None) ->
  x ∈ changelog (committed c) ->
  kept d x ->
  Checksum x = Legacy.generateHash script ->
  (Service.ExecuteMigration exec link json_decode Join order m c).2 <> None.
Proof.
  intros Hv Hd Hin Hx Hsum Hnil.
  destruct (Service.ExecuteMigration exec link json_decode Join order m c)
    as [c1 res] eqn:Hrun.
  simpl in Hnil. subst res.
  destruct (Service_converged exec link json_decode Join order m c d c1
              Hv Hd Hrun) as [Hver _].
  assert (x ∈ changelog (committed c1)) as Hin1.
  { destruct (Service_run_state exec link json_decode Join order m c d Hd)
      as (reverted & applied & Hpre & _ & _ & [Hch _] & _).
    rewrite Hrun in Hch. simpl in Hch. rewrite Hch.
    apply elem_of_app. right. apply list_elem_of_filter. split; [|done].
    intros Hid.
    assert (Id x ∈ Id <$> lead d (changelog (committed c))) as Hl.
    { destruct Hpre as [rest ->]. rewrite fmap_app. apply elem_of_app.
      by left. }
    apply (undesired_not_in d _ _ (lead_undesired d _)) in Hl.
    destruct Hx as [mx Hmx]. congruence. }
  apply (proj1 (Forall_forall _ _) Hver) in Hin1 as (mig & Hmig & Heq).
  unfold Service.getMigrations in Hd.
  destruct (Service.readConfigFile json_decode m) as [ids|e]; [|done].
  apply (extract_all_loaded Join m ids d Hd) in Hmig as (_ & _ & _ & _ & Hc).
  rewrite Hsum, Hc in Heq. apply (f_equal String.length) in Heq.
  by rewrite generateHash_length, hex_EncodeToString_length,
    MD5_Sum_length in Heq.
Qed.

Lemma Service_rejects_raw_digest_entries_witness :
  let x := mkMigration "T" EmptyString "DROP TABLE t"
             (Legacy.generateHash "CREATE TABLE t") in
  (Service.ExecuteMigration Demo.exec Demo.online Demo.json_decode Demo.Join
     Demo.range (Demo.service ["T"]) (mkConn (mkDB [x] ["t"]) [])).2
  <> None.
Proof.
  intros x.
  apply (Service_rejects_raw_digest_entries Demo.exec Demo.online
           Demo.json_decode Demo.Join Demo.range (Demo.service ["T"])
           (mkConn (mkDB [x] ["t"]) []) {[ "T" := Demo.ST ]} x
           "CREATE TABLE t" Demo_range_valid).
  - vm_compute. reflexivity.
  - apply list_elem_of_here.
  - exists Demo.ST. vm_compute. reflexivity.
  - reflexivity.
Defined.
